(** * The layered configuration store and its reload monitor

    A shallow embedding of [gds/burp/config.py] (the [Configuration] /
    [Section] / [Option] machinery inherited from Trac) and of
    [gds/burp/monitor.py] (the polling [PluginMonitorThread]).

    Conventions of the embedding.
    - Text is a [string] whose characters are read as the code points
      U+0000..U+00FF; on such text [to_unicode] and [_to_utf8] act as the
      identity, so a [str] and the [unicode] it decodes to are identified.
    - A Python dict is a [gmap]; the dict the monitor iterates over is an
      association list, in iteration order.
    - Mutation is explicit state passing: every operation returns the
      object it mutated next to its result.  An exception is a [Raise]
      outcome, and the state reached when it was raised is returned too.
    - Modification times are integers; only their order is used.
    - What [ConfigParser] holds after reading a file is taken from the file
      system model ([fcontents]): for every section of the file and every
      option that [parser.has_option] reports in it (the entry [__name__]
      that Python 2 keeps in every section included), what [parser.get]
      returns for it: the text as written when it holds no [%(name)s]
      reference, else what the interpolation makes of it, which may be an
      exception.  The INI grammar and the format operator behind the
      interpolation are not modelled, and the files have no [DEFAULT]
      section, so that a parser holds no defaults and no section of that
      name.
    - Values read from a file are byte strings until [Section.get] decodes
      them; [str.strip] trims the white space of the C locale, where
      [unicode.strip] trims the Unicode white space.  A string that a
      caller or a declaration supplies is a [unicode].
    - A [Section] proxy is addressed by its owner and its name, as
      [Configuration.__getitem__] hands it out; a proxy that a caller keeps
      across a reparse is not modelled.
    - [float()] reads the literals of CPython 2.7; exceptions that do not
      derive from [Exception] are not modelled. *)

From Stdlib Require Import ZArith NArith Bool Ascii String Lia.
From stdpp Require Import base option list strings gmap sorting.

Set Warnings "-register-all".

Local Open Scope string_scope.
Local Open Scope Z_scope.

(** ** Exceptions and outcomes *)

(** The exception classes the two modules meet; all of them derive from
    [Exception]. *)
Inductive exn : Type :=
  | TypeError (msg : string)
  | ValueError (msg : string)
  | AttributeError (msg : string)
  | IOError (msg : string)
  | OSError (msg : string)
  | ParsingError (file : string)
  | ImportError (msg : string)
  | InterpolationError (msg : string).

Inductive outcome (A : Type) : Type :=
  | Ok (a : A)
  | Raise (e : exn).
Arguments Ok {A} a.
Arguments Raise {A} e.

Definition is_Raise {A} (r : outcome A) : bool :=
  match r with Ok _ => false | Raise _ => true end.

(** ** Text primitives of the Python runtime *)

Module Text.

Definition code (a : ascii) : N := N_of_ascii a.

(** [unicode.isspace] restricted to U+0000..U+00FF. *)
Definition isspace (a : ascii) : bool :=
  let n := code a in
  ((9 <=? n) && (n <=? 13) || (28 <=? n) && (n <=? 32)
   || (n =? 133) || (n =? 160))%N.

Definition isdigit (a : ascii) : bool :=
  let n := code a in ((48 <=? n) && (n <=? 57))%N.

Definition digit_value (a : ascii) : N := (code a - 48)%N.

(** [unicode.lower] restricted to U+0000..U+00FF: the ASCII capitals and
    the Latin-1 capitals (U+00C0..U+00DE without the multiplication
    sign). *)
Definition lower_char (a : ascii) : ascii :=
  let n := code a in
  if ((65 <=? n) && (n <=? 90)
      || (192 <=? n) && (n <=? 222) && negb (n =? 215))%N
  then ascii_of_N (n + 32) else a.

Fixpoint lower (s : string) : string :=
  match s with
  | EmptyString => EmptyString
  | String a s' => String (lower_char a) (lower s')
  end.

Fixpoint lstrip (s : string) : string :=
  match s with
  | EmptyString => EmptyString
  | String a s' => if isspace a then lstrip s' else s
  end.

Fixpoint rstrip (s : string) : string :=
  match s with
  | EmptyString => EmptyString
  | String a s' =>
      match rstrip s' with
      | EmptyString => if isspace a then EmptyString else String a EmptyString
      | r => String a r
      end
  end.

Definition strip (s : string) : string := rstrip (lstrip s).

(** [str.isspace] on one byte, in the C locale; [str.strip] trims by it. *)
Definition isspace_str (a : ascii) : bool :=
  let n := code a in ((9 <=? n) && (n <=? 13) || (n =? 32))%N.

Fixpoint lstrip_str (s : string) : string :=
  match s with
  | EmptyString => EmptyString
  | String a s' => if isspace_str a then lstrip_str s' else s
  end.

Fixpoint rstrip_str (s : string) : string :=
  match s with
  | EmptyString => EmptyString
  | String a s' =>
      match rstrip_str s' with
      | EmptyString => if isspace_str a then EmptyString else String a EmptyString
      | r => String a r
      end
  end.

Definition strip_str (s : string) : string := rstrip_str (lstrip_str s).

Fixpoint startswith (p s : string) : bool :=
  match p, s with
  | EmptyString, _ => true
  | String a p', String b s' => if Ascii.eqb a b then startswith p' s' else false
  | String _ _, EmptyString => false
  end.

Definition str_eqb (a b : string) : bool := String.eqb a b.

(** [s.split(sep)] for a non-empty separator: [go] walks [s], [skip]
    counts the characters of a separator just matched that are still to
    be dropped, [cur] is the current element, reversed. *)
Fixpoint split_go (sep s : string) (skip : nat) (cur : string) : list string :=
  match s with
  | EmptyString => [String.rev cur]
  | String a s' =>
      match skip with
      | S k => split_go sep s' k cur
      | O =>
          if startswith sep s
          then String.rev cur :: split_go sep s' (String.length sep - 1) EmptyString
          else split_go sep s' O (String a cur)
      end
  end.

(** [str.split]: an empty separator is a [ValueError]. *)
Definition split (sep s : string) : outcome (list string) :=
  match sep with
  | EmptyString => Raise (ValueError "empty separator")
  | _ => Ok (split_go sep s O EmptyString)
  end.

End Text.

(** ** Numbers read by [float()]

    [float(s)] skips surrounding white space and reads, ignoring case, a
    signed decimal literal, [inf], [infinity] or [nan].  The literal is
    kept exactly (sign, decimal mantissa, power of ten); which literals
    denote the double [0.0] is decided by [rounds_to_zero]. *)

Inductive pyfloat : Type :=
  | FNan
  | FInf (neg : bool)
  | FDec (neg : bool) (mant : N) (exp10 : Z).

Module Float.

(** The longest prefix of digits: its value on top of [acc], how many
    digits were read, and the rest. *)
Fixpoint digits (s : string) (acc : N) (n : nat) : N * nat * string :=
  match s with
  | EmptyString => (acc, n, EmptyString)
  | String a s' =>
      if Text.isdigit a
      then digits s' (10 * acc + Text.digit_value a)%N (S n)
      else (acc, n, s)
  end.

Definition sign (s : string) : bool * string :=
  match s with
  | String "-" s' => (true, s')
  | String "+" s' => (false, s')
  | _ => (false, s)
  end.

(** What may follow the mantissa: nothing, or [e], a sign and digits. *)
Definition exponent (s : string) : option Z :=
  match s with
  | EmptyString => Some 0
  | String "e" s' =>
      let '(neg, s'') := sign s' in
      let '(v, n, rest) := digits s'' 0%N O in
      match n, rest with
      | S _, EmptyString => Some (if neg then - Z.of_N v else Z.of_N v)
      | _, _ => None
      end
  | _ => None
  end.

Definition decimal (neg : bool) (s : string) : option pyfloat :=
  let '(i, ni, r1) := digits s 0%N O in
  let '(m, nf, r2) :=
    match r1 with
    | String "." r => digits r i O
    | _ => (i, O, r1)
    end in
  match (ni + nf)%nat with
  | O => None
  | S _ =>
      match exponent r2 with
      | Some e => Some (FDec neg m (e - Z.of_nat nf))
      | None => None
      end
  end.

(** [float(s)] for a string [s]; [None] is the [ValueError]. *)
Definition of_string (s : string) : option pyfloat :=
  let '(neg, r) := sign (Text.lower (Text.strip s)) in
  if Text.str_eqb r "inf" || Text.str_eqb r "infinity" then Some (FInf neg)
  else if Text.str_eqb r "nan" then Some FNan
  else decimal neg r.

(** [mant * 10^exp10] is at most [2^-1075], half the least positive
    double: the nearest double (ties to even) is zero. *)
Definition rounds_to_zero (mant : N) (exp10 : Z) : bool :=
  (mant =? 0)%N
  || (exp10 <? 0) && (Z.of_N mant * 2 ^ 1075 <=? 10 ^ (- exp10)).

(** [bool(f)]: a float is true unless it equals [0.0]. *)
Definition nonzero (f : pyfloat) : bool :=
  match f with
  | FNan => true
  | FInf _ => true
  | FDec _ m e => negb (rounds_to_zero m e)
  end.

End Float.

(** ** Python values *)

(** The values an option default may take (the registry's [default]),
    which are also the values a section caches. *)
Inductive Value : Type :=
  | VNone
  | VBool (b : bool)
  | VInt (z : Z)
  | VFloat (f : pyfloat)
  | VStr (s : string)
  | VList (l : list string).

(** What a caller may pass as [default] and what an accessor returns: a
    value, the module's private sentinel [_use_default = object()], or any
    other object, of which only the behaviour of [bool()] on it is known
    (it is not a string and not iterable). *)
Inductive PyObj : Type :=
  | Val (v : Value)
  | _use_default
  | Opaque (nonzero : outcome bool).

(** Truth value testing on values. *)
Definition truth (v : Value) : bool :=
  match v with
  | VNone => false
  | VBool b => b
  | VInt z => negb (z =? 0)
  | VFloat f => Float.nonzero f
  | VStr s => negb (Text.str_eqb s "")
  | VList l => match l with [] => false | _ :: _ => true end
  end.

(** [bool(o)]. *)
Definition py_bool (o : PyObj) : outcome bool :=
  match o with
  | Val v => Ok (truth v)
  | _use_default => Ok true
  | Opaque nonzero => nonzero
  end.

Definition bool_literals : list string := ["yes"; "true"; "enabled"; "on"].

Definition str_in (s : string) (l : list string) : bool :=
  existsb (Text.str_eqb s) l.

(** [as_bool(value)], config.py:29. *)
Definition as_bool (value : PyObj) : outcome bool :=
  match value with
  | Val (VStr s) =>
      match Float.of_string s with
      | Some f => Ok (Float.nonzero f)
      | None => Ok (str_in (Text.lower (Text.strip s)) bool_literals)
      end
  | _ =>
      match py_bool value with
      | Ok b => Ok b
      | Raise (TypeError _) => Ok false
      | Raise (ValueError _) => Ok false
      | Raise e => Raise e
      end
  end.

(** [to_unicode(text)] and [_to_utf8(basestr)], config.py:47 and 75, on
    the text of the model (see the conventions above). *)
Definition to_unicode (text : string) : string := text.
Definition _to_utf8 (basestr : string) : string := to_unicode basestr.

(** ** The file system and [os.path] (POSIX flavour) *)

(** What a parser holds: for each section, for each option that
    [parser.has_option] reports in it, what [parser.get] returns. *)
Abbreviation parsed := (gmap string (gmap string (outcome string))).

(** What [ConfigParser.read] finds in a regular file: it cannot be opened;
    or its text breaks the INI grammar, [partial] being what the parser
    holds when the error is raised; or it parses, and the parser holds
    [sections]. *)
Inductive fcontents : Type :=
  | Unreadable
  | Malformed (partial : parsed)
  | Parsed (sections : parsed).

Record file : Type := mkFile { mtime : Z; contents : fcontents }.

(** The regular files, by path. *)
Abbreviation filesystem := (gmap string file).

Module os_path.

Definition isfile (fs : filesystem) (path : string) : bool :=
  match fs !! path with Some _ => true | None => false end.

Definition getmtime (fs : filesystem) (path : string) : outcome Z :=
  match fs !! path with
  | Some f => Ok (mtime f)
  | None => Raise (OSError path)
  end.

Definition isabs (path : string) : bool := Text.startswith "/" path.

(** The prefix of [p] up to and including its last slash. *)
Fixpoint head (p : string) : string :=
  match p with
  | EmptyString => EmptyString
  | String a p' =>
      match head p' with
      | EmptyString => if Ascii.eqb a "/" then String a EmptyString else EmptyString
      | h => String a h
      end
  end.

Fixpoint all_slashes (p : string) : bool :=
  match p with
  | EmptyString => true
  | String a p' => Ascii.eqb a "/" && all_slashes p'
  end.

Fixpoint rstrip_slashes (p : string) : string :=
  match p with
  | EmptyString => EmptyString
  | String a p' =>
      match rstrip_slashes p' with
      | EmptyString => if Ascii.eqb a "/" then EmptyString else String a EmptyString
      | r => String a r
      end
  end.

Definition dirname (p : string) : string :=
  let h := head p in
  if all_slashes h then h else rstrip_slashes h.

Fixpoint endswith_slash (p : string) : bool :=
  match p with
  | EmptyString => false
  | String a EmptyString => Ascii.eqb a "/"
  | String _ p' => endswith_slash p'
  end.

Definition join (a b : string) : string :=
  if Text.startswith "/" b then b
  else if Text.str_eqb a "" || endswith_slash a then a +:+ b
  else a +:+ "/" +:+ b.

End os_path.

(** ** [ConfigParser] (with [optionxform = str]) *)

Module ConfigParser.

(** [parser.read(filename)] on a parser that holds no section, as at
    config.py:94 and 226: the list of files read, and what the parser
    holds afterwards.  A file that cannot be opened is skipped silently. *)
Definition read (fs : filesystem) (filename : string)
  : outcome (list string) * parsed :=
  match fs !! filename with
  | None => (Ok [], ∅)
  | Some f =>
      match contents f with
      | Unreadable => (Ok [], ∅)
      | Malformed partial => (Raise (ParsingError filename), partial)
      | Parsed sections => (Ok [filename], sections)
      end
  end.

(** [parser.get(section, option)] where [parser.has_option(section,
    option)] holds, which is where the code calls it: the interpolated
    value, or the exception of the interpolation.  [None] is the case in
    which [has_option] is false. *)
Definition get (held : parsed) (section opt : string) : option (outcome string) :=
  held !! section ≫= (.!! opt).

(** [parser.has_option(section, option)]: the option is in the section,
    be it the entry [__name__]. *)
Definition has_option (held : parsed) (section opt : string) : bool :=
  match get held section opt with Some _ => true | None => false end.

(** [parser.has_section(section)]. *)
Definition has_section (held : parsed) (section : string) : bool :=
  match held !! section with Some _ => true | None => false end.

(** [option in parser.options(section)], behind [has_section]:
    [options] leaves the entry [__name__] out. *)
Definition in_options (held : parsed) (section opt : string) : bool :=
  has_section held section
  && negb (String.eqb opt "__name__")
  && has_option held section opt.

End ConfigParser.

(** ** The option registry, config.py:466 *)

Record Option : Type := mkOption {
  option_section : string;
  option_name : string;
  option_default : Value;
  option_doc : string
}.

(** [Option.registry]: filled by the declarations, read by the accessors. *)
Abbreviation Registry := (gmap (string * string) Option).

(** ** Configurations and their section proxies *)

(** [Section], config.py:252.  The slots [config] and [name] are the owner
    and the key under which the owner holds the proxy. *)
Record Section_ : Type := mkSection {
  overridden : gmap string Value;
  _cache : gmap string Value
}.

Definition Section_init : Section_ := mkSection ∅ ∅.

(** [Configuration], config.py:79.  [parser] is [self.parser._sections];
    [config_cache] is the attribute [self._cache] of the configuration
    itself, which does not exist until [parse_if_needed] assigns it. *)
Inductive Configuration : Type := mkConfiguration {
  filename : string;
  parser : parsed;
  _old_sections : parsed;
  parents : list Configuration;
  _lastmtime : Z;
  _sections : gmap string Section_;
  config_cache : option (gmap string Value)
}.

(** [Configuration(filename)]: the constructor reads the file once and
    records no modification time. *)
Definition Configuration_init (fs : filesystem) (filename : string)
  : outcome Configuration :=
  match ConfigParser.read fs filename with
  | (Ok _, held) => Ok (mkConfiguration filename held ∅ [] 0 ∅ None)
  | (Raise e, _) => Raise e
  end.

(** [config[name]], config.py:102: the proxy is created on first use. *)
Definition ensure_proxy (secs : gmap string Section_) (name : string)
  : gmap string Section_ :=
  match secs !! name with
  | Some _ => secs
  | None => <[name := Section_init]> secs
  end.

Definition Configuration_getitem (config : Configuration) (name : string)
  : Configuration :=
  match config with
  | mkConfiguration fn held old ps lm secs cc =>
      mkConfiguration fn held old ps lm (ensure_proxy secs name) cc
  end.

(** ** Reading values *)

(** The tail of [Section.get], config.py:329-332: a false value becomes
    [u''], a string is decoded, anything else is kept. *)
Definition normalise (value : Value) : Value :=
  if negb (truth value) then VStr ""
  else match value with
       | VStr s => VStr (to_unicode s)
       | _ => value
       end.

(** The [else] clause of the loop over the parents, config.py:321-326. *)
Definition registry_default (registry : Registry) (name key : string)
    (default : PyObj) : PyObj :=
  match default with
  | _use_default => _use_default
  | _ =>
      match registry !! (name, key) with
      | Some opt => Val (option_default opt)
      | None => _use_default
      end
  end.

Definition section_cache (secs : gmap string Section_) (name : string)
  : gmap string Value :=
  match secs !! name with
  | Some s => _cache s
  | None => ∅
  end.

(** [self._cache[key] = value] on the proxy held under [name]. *)
Definition cache_store (secs : gmap string Section_) (name key : string)
    (value : Value) : gmap string Section_ :=
  match secs !! name with
  | Some s => <[name := mkSection (overridden s) (<[key := value]> (_cache s))]> secs
  | None => <[name := mkSection ∅ {[key := value]}]> secs
  end.

(** The value [parser.get] hands to [Section.get], config.py:315. *)
Definition got_value (got : outcome string) : outcome PyObj :=
  match got with
  | Ok raw => Ok (Val (VStr raw))
  | Raise e => Raise e
  end.

(** [config[name].get(key, default)]: [Configuration.__getitem__]
    (config.py:102) followed by [Section.get] (config.py:304).  This is
    [Configuration.get], and it is also the call [parent[self.name].get(key,
    _use_default)] that [Section.get] makes on each parent.  The result is
    paired with the configuration as the call leaves it: proxies created
    and values cached, in this configuration and in its parents.  An
    exception of [parser.get], here or in a parent, ends the call. *)
Fixpoint Configuration_get (registry : Registry) (config : Configuration)
    (name key : string) (default : PyObj) {struct config}
  : outcome PyObj * Configuration :=
  match config with
  | mkConfiguration fn held old ps lm secs0 cc =>
      let secs := ensure_proxy secs0 name in
      match section_cache secs name !! key with
      | Some cached => (Ok (Val cached), mkConfiguration fn held old ps lm secs cc)
      | None =>
          let '(value, ps') :=
            match ConfigParser.get held (_to_utf8 name) (_to_utf8 key) with
            | Some got => (got_value got, ps)
            | None =>
                (fix loop (l : list Configuration)
                   : outcome PyObj * list Configuration :=
                   match l with
                   | [] => (Ok (registry_default registry name key default), [])
                   | parent :: rest =>
                       let '(v, parent') :=
                         Configuration_get registry parent name key _use_default in
                       match v with
                       | Ok _use_default =>
                           let '(v', rest') := loop rest in (v', parent' :: rest')
                       | _ => (v, parent' :: rest)
                       end
                   end) ps
            end in
          match value with
          | Raise e => (Raise e, mkConfiguration fn held old ps' lm secs cc)
          | Ok _use_default =>
              (Ok default, mkConfiguration fn held old ps' lm secs cc)
          | Ok (Val v) =>
              let v' := normalise v in
              (Ok (Val v'),
               mkConfiguration fn held old ps' lm (cache_store secs name key v') cc)
          | Ok (Opaque t) =>
              (* not reached: a parent is asked with the sentinel as its
                 default, and the registry holds values *)
              (Ok (Opaque t), mkConfiguration fn held old ps' lm secs cc)
          end
      end
  end.

(** [Section.get] on the proxy that [config] holds for [name]. *)
Definition Section_get := Configuration_get.

(** [Section.getbool], config.py:336. *)
Definition Section_getbool (registry : Registry) (config : Configuration)
    (name key : string) (default : PyObj) : outcome bool * Configuration :=
  let '(value, config') := Section_get registry config name key default in
  (match value with Ok v => as_bool v | Raise e => Raise e end, config').

(** [Configuration.getbool], config.py:118. *)
Definition Configuration_getbool := Section_getbool.

(** An argument left out of a call takes the default of the signature. *)
Definition arg {A} (given : option A) (signature_default : A) : A :=
  match given with Some a => a | None => signature_default end.

(** [filter(None, items)] on strings. *)
Definition filter_nonempty (items : list string) : list string :=
  List.filter (fun item => negb (Text.str_eqb item "")) items.

(** [Section.getlist(key, default='', sep=',', keep_empty=True)],
    config.py:367. *)
Definition Section_getlist (registry : Registry) (config : Configuration)
    (name key : string) (default : option PyObj) (sep : option string)
    (keep_empty : option bool) : outcome (list string) * Configuration :=
  let default := arg default (Val (VStr "")) in
  let sep := arg sep "," in
  let keep_empty := arg keep_empty true in
  let '(got, config') := Section_get registry config name key default in
  match got with
  | Raise e => (Raise e, config')
  | Ok value =>
      match py_bool value with
      | Raise e => (Raise e, config')
      | Ok false => (Ok [], config')
      | Ok true =>
          let items :=
            match value with
            | Val (VStr s) =>
                match Text.split sep s with
                | Ok parts => Ok (List.map Text.strip parts)
                | Raise e => Raise e
                end
            | Val (VList l) => Ok l
            | _ => Raise (TypeError "object is not iterable")
            end in
          match items with
          | Ok items =>
              (Ok (if keep_empty then items else filter_nonempty items), config')
          | Raise e => (Raise e, config')
          end
      end
  end.

(** [Configuration.getlist(section, key, default='', sep=',',
    keep_empty=False)], config.py:142: all five arguments are passed on. *)
Definition Configuration_getlist (registry : Registry) (config : Configuration)
    (section key : string) (default : option PyObj) (sep : option string)
    (keep_empty : option bool) : outcome (list string) * Configuration :=
  let default := arg default (Val (VStr "")) in
  let sep := arg sep "," in
  let keep_empty := arg keep_empty false in
  Section_getlist registry config section key
    (Some default) (Some sep) (Some keep_empty).

(** [Configuration.remove], config.py:185: [self[section].remove(key)].
    The class [Section] defines no [remove] (its methods are [contains],
    [iterate], [get], [getbool], [getint], [getfloat], [getlist], [getpath]
    and [options]), so the attribute lookup fails once [self[section]] has
    been evaluated. *)
Definition Configuration_remove (config : Configuration) (section key : string)
  : outcome unit * Configuration :=
  (Raise (AttributeError "'Section' object has no attribute 'remove'"),
   Configuration_getitem config section).

(** ** Reparsing *)

(** The argument of [raise IOError(...)] at config.py:228 is
    ["Error reading '%(file)s', make sure it is readable." %
    (self.filename, )]: a format with a named key applied to a tuple.  The
    [%] operator raises [TypeError] there, before [IOError] is built. *)
Definition read_failure (filename : string) : exn :=
  TypeError "format requires a mapping".

(** One file name of the [inherit.file] list, config.py:238-241: the
    entry is a byte string when it is trimmed. *)
Definition inherit_path (self_filename : string) (entry : string) : string :=
  let filename := to_unicode (Text.strip_str entry) in
  if os_path.isabs filename then filename
  else os_path.join (os_path.dirname self_filename) filename.

(** The loop at config.py:237-242: a parent is constructed and appended for
    each entry, in order; a constructor that raises ends the loop with the
    parents appended so far. *)
Fixpoint build_parents (fs : filesystem) (self_filename : string)
    (entries : list string) : outcome unit * list Configuration :=
  match entries with
  | [] => (Ok (), [])
  | entry :: rest =>
      match Configuration_init fs (inherit_path self_filename entry) with
      | Raise e => (Raise e, [])
      | Ok parent =>
          let '(r, built) := build_parents fs self_filename rest in
          (r, parent :: built)
      end
  end.

(** [Configuration.parse_if_needed], config.py:217. *)
Fixpoint parse_if_needed (fs : filesystem) (force : bool)
    (config : Configuration) {struct config} : outcome bool * Configuration :=
  match config with
  | mkConfiguration fn held old ps lm secs cc =>
      if Text.str_eqb fn "" || negb (os_path.isfile fs fn) then (Ok false, config)
      else
        match os_path.getmtime fs fn with
        | Raise e => (Raise e, config)
        | Ok modtime =>
            if force || (lm <? modtime) then
              match ConfigParser.read fs fn with
              | (Raise e, held') =>
                  (Raise e, mkConfiguration fn held' old ps lm ∅ cc)
              | (Ok [], held') =>
                  (Raise (read_failure fn), mkConfiguration fn held' old ps lm ∅ cc)
              | (Ok (_ :: _), held') =>
                  match ConfigParser.get held' "inherit" "file" with
                  | Some (Raise e) =>
                      (Raise e, mkConfiguration fn held' held' [] modtime ∅ cc)
                  | directive =>
                      let entries :=
                        match directive with
                        | Some (Ok value) => Text.split_go "," value O EmptyString
                        | _ => []
                        end in
                      match build_parents fs fn entries with
                      | (Raise e, built) =>
                          (Raise e, mkConfiguration fn held' held' built modtime ∅ cc)
                      | (Ok _, built) =>
                          (Ok true,
                           mkConfiguration fn held' held' built modtime ∅ (Some ∅))
                      end
                  end
              end
            else
              let '(r, ps') :=
                (fix loop (l : list Configuration) (changed : bool)
                   : outcome bool * list Configuration :=
                   match l with
                   | [] => (Ok changed, [])
                   | parent :: rest =>
                       match parse_if_needed fs force parent with
                       | (Ok b, parent') =>
                           let '(r, rest') := loop rest (changed || b) in
                           (r, parent' :: rest')
                       | (Raise e, parent') => (Raise e, parent' :: rest)
                       end
                   end) ps false in
              match r with
              | Ok true =>
                  (Ok true, mkConfiguration fn held old ps' lm secs (Some ∅))
              | Ok false =>
                  (Ok false, mkConfiguration fn held old ps' lm secs cc)
              | Raise e =>
                  (Raise e, mkConfiguration fn held old ps' lm secs cc)
              end
        end
  end.

(** ** The plugin monitor, monitor.py *)

(** What the weak reference [plugin.get('instance')] may point to, by the
    [isinstance] tests of [__reload], in their order. *)
Inductive Instance : Type :=
  | MenuItemHandler
  | ConfigurationInstance (config : Configuration)
  | ComponentInstance
  | OtherInstance.

(** An entry of [burp.monitoring[filename]]; [instance] is [None] once the
    referent is gone. *)
Record plugin : Type := mkPlugin {
  plugin_module : string;
  plugin_class : string;
  instance : option Instance
}.

(** The world at one tick: the files; what fetching and reloading a
    module and looking a class up in it does ([sys.modules[module]],
    [reload(module)], [getattr(module, class)], monitor.py:59-63); and what
    [patch_menu_item] then does with the instance and that class
    (monitor.py:66, 88): code outside the monitor that may raise. *)
Record world : Type := mkWorld {
  files : filesystem;
  rebind : string -> string -> outcome unit;
  patch_menu_item : string -> string -> outcome unit
}.

Inductive event : Type :=
  | Modified (filename : string)
  | Reloading (class : string)
  | NoLongerExists (module class : string)
  | Patching (class : string)
  | ReloadingConfiguration (filename : string)
  | ErrorReloading (filename : string) (e : exn).

(** The thread: [self.mtimes], and [self.burp.monitoring] as the sequence
    [iteritems()] yields. *)
Record PluginMonitorThread : Type := mkMonitor {
  mtimes : gmap string Z;
  monitoring : list (string * list plugin)
}.

(** [self.mtimes.get(filename, -1)]. *)
Definition recorded (seen : gmap string Z) (filename : string) : Z :=
  match seen !! filename with
  | Some t => t
  | None => -1
  end.

(** [__has_changed], monitor.py:25. *)
Definition has_changed (w : world) (seen : gmap string Z) (filename : string)
  : outcome bool * gmap string Z :=
  match os_path.getmtime (files w) filename with
  | Raise e => (Raise e, seen)
  | Ok lastModified =>
      if recorded seen filename <? lastModified
      then (Ok true, <[filename := lastModified]> seen)
      else (Ok false, seen)
  end.

(** [__reload], monitor.py:45. *)
Definition reload (w : world) (p : plugin) : outcome unit * plugin * list event :=
  match instance p with
  | None => (Ok (), p, [NoLongerExists (plugin_module p) (plugin_class p)])
  | Some MenuItemHandler =>
      match rebind w (plugin_module p) (plugin_class p) with
      | Raise e => (Raise e, p, [])
      | Ok _ =>
          (match patch_menu_item w (plugin_module p) (plugin_class p) with
           | Ok _ => Ok ()
           | Raise e => Raise e
           end, p, [Patching (plugin_class p)])
      end
  | Some (ConfigurationInstance config) =>
      let '(r, config') := parse_if_needed (files w) true config in
      (match r with Ok _ => Ok () | Raise e => Raise e end,
       mkPlugin (plugin_module p) (plugin_class p)
         (Some (ConfigurationInstance config')),
       [ReloadingConfiguration (filename config)])
  | Some ComponentInstance => (Ok (), p, [])
  | Some OtherInstance => (Ok (), p, [])
  end.

(** The loop [for plugin in plugins], monitor.py:39. *)
Fixpoint reload_each (w : world) (plugins : list plugin)
  : outcome unit * list plugin * list event :=
  match plugins with
  | [] => (Ok (), [], [])
  | p :: rest =>
      match reload w p with
      | (Ok _, p', log) =>
          let '(r, rest', log') := reload_each w rest in
          (r, p' :: rest', (Reloading (plugin_class p) :: log ++ log')%list)
      | (Raise e, p', log) =>
          (Raise e, p' :: rest, Reloading (plugin_class p) :: log)
      end
  end.

(** [__monitor], monitor.py:34. *)
Definition monitor (w : world) (seen : gmap string Z) (filename : string)
    (plugins : list plugin)
  : outcome unit * gmap string Z * list plugin * list event :=
  match has_changed w seen filename with
  | (Raise e, seen') => (Raise e, seen', plugins, [])
  | (Ok false, seen') => (Ok (), seen', plugins, [])
  | (Ok true, seen') =>
      let '(r, plugins', log) := reload_each w plugins in
      (r, seen', plugins', Modified filename :: log)
  end.

(** The loop [for filename, plugins in self.burp.monitoring.iteritems()],
    monitor.py:80.  A raised exception comes with the value of [filename]
    at that point. *)
Fixpoint monitor_each (w : world) (seen : gmap string Z)
    (watched : list (string * list plugin))
  : option (string * exn) * gmap string Z * list (string * list plugin) * list event :=
  match watched with
  | [] => (None, seen, [], [])
  | (filename, plugins) :: rest =>
      match monitor w seen filename plugins with
      | (Ok _, seen', plugins', log) =>
          let '(r, seen'', rest', log') := monitor_each w seen' rest in
          (r, seen'', (filename, plugins') :: rest', (log ++ log')%list)
      | (Raise e, seen', plugins', log) =>
          (Some (filename, e), seen', (filename, plugins') :: rest, log)
      end
  end.

(** One turn of the loop of [run], monitor.py:78, the sleep left out: the
    [try] statement encloses the whole [for] loop, and the handler logs and
    falls through to the sleep. *)
Definition tick (w : world) (m : PluginMonitorThread)
  : PluginMonitorThread * list event :=
  let '(r, seen, watched, log) := monitor_each w (mtimes m) (monitoring m) in
  (mkMonitor seen watched,
   match r with
   | None => log
   | Some (filename, e) => (log ++ [ErrorReloading filename e])%list
   end).

(** [run] for as many turns as there are worlds, one per tick; the log of
    each turn is kept apart. *)
Fixpoint run (ws : list world) (m : PluginMonitorThread)
  : PluginMonitorThread * list (list event) :=
  match ws with
  | [] => (m, [])
  | w :: ws' =>
      let '(m', log) := tick w m in
      let '(m'', logs) := run ws' m' in
      (m'', log :: logs)
  end.

(** [PluginMonitorThread.__init__], monitor.py:10: the time of every
    watched file is recorded, in iteration order, on top of [seen]. *)
Fixpoint initial_mtimes (fs : filesystem) (names : list string)
    (seen : gmap string Z) : outcome (gmap string Z) :=
  match names with
  | [] => Ok seen
  | filename :: rest =>
      match os_path.getmtime fs filename with
      | Ok t => initial_mtimes fs rest (<[filename := t]> seen)
      | Raise e => Raise e
      end
  end.

(** ** Trimmed, case-folded and comma-separated text, as the
    specification words them *)

(** White space: of a byte string, and of a unicode string within
    U+0000..U+00FF. *)
Definition str_blank (a : ascii) : Prop :=
  In (Text.code a) [9; 10; 11; 12; 13; 32]%N.

Definition unicode_blank (a : ascii) : Prop :=
  In (Text.code a) [9; 10; 11; 12; 13; 28; 29; 30; 31; 32; 133; 160]%N.

Fixpoint every (P : ascii -> Prop) (s : string) : Prop :=
  match s with
  | EmptyString => True
  | String a s' => P a /\ every P s'
  end.

Definition first_is (P : ascii -> Prop) (s : string) : Prop :=
  match s with
  | EmptyString => False
  | String a _ => P a
  end.

Fixpoint last_is (P : ascii -> Prop) (s : string) : Prop :=
  match s with
  | EmptyString => False
  | String a EmptyString => P a
  | String _ s' => last_is P s'
  end.

(** [core] is [s] trimmed: [s] without the white space it begins and ends
    with. *)
Definition trimmed (blank : ascii -> Prop) (s core : string) : Prop :=
  exists lead trail,
    s = lead +:+ core +:+ trail
    /\ every blank lead /\ every blank trail
    /\ ~ first_is blank core /\ ~ last_is blank core.

(** A capital letter of U+0000..U+00FF and its small letter. *)
Definition capital (a : ascii) : Prop :=
  (65 <= Text.code a <= 90
   \/ (192 <= Text.code a <= 222 /\ Text.code a <> 215))%N.

Definition small_of (a b : ascii) : Prop :=
  (capital a /\ Text.code b = Text.code a + 32)%N \/ (~ capital a /\ b = a).

(** [t] is [s] case-folded. *)
Fixpoint case_folded (s t : string) : Prop :=
  match s, t with
  | EmptyString, EmptyString => True
  | String a s', String b t' => small_of a b /\ case_folded s' t'
  | _, _ => False
  end.

Fixpoint occurs (c : ascii) (s : string) : bool :=
  match s with
  | EmptyString => false
  | String a s' => Ascii.eqb a c || occurs c s'
  end.

(** [elements] are the elements of the comma-separated list [value]. *)
Definition comma_separated (value : string) (elements : list string) : Prop :=
  elements <> []
  /\ String.concat "," elements = value
  /\ Forall (fun element => occurs "," element = false) elements.

(** ** The boolean-literal rule, as the specification words it *)

Definition boolean_words : list string := ["yes"; "true"; "enabled"; "on"].

(** Trimmed and case-folded, the string is one of the four words. *)
Definition spells_true (s : string) : Prop :=
  exists core t,
    trimmed unicode_blank s core /\ case_folded core t /\ In t boolean_words.

(** A decimal digit, and the number a non-empty string of digits writes. *)
Definition digit (a : ascii) : Prop := (48 <= Text.code a <= 57)%N.

Inductive numeral : string -> N -> Prop :=
  | numeral_digit (a : ascii) :
      digit a -> numeral (String a EmptyString) (Text.code a - 48)
  | numeral_more (ds : string) (v : N) (a : ascii) :
      numeral ds v -> digit a ->
      numeral (ds +:+ String a EmptyString) (10 * v + (Text.code a - 48)).

(** Digits or nothing, nothing counting as zero. *)
Definition numeral0 (ds : string) (v : N) : Prop :=
  (ds = "" /\ v = 0%N) \/ numeral ds v.

Definition signed (neg : bool) (sgn : string) : Prop :=
  (neg = false /\ (sgn = "" \/ sgn = "+")) \/ (neg = true /\ sgn = "-").

(** The exponent part of a decimal literal and the power of ten it
    writes: nothing, or [e], a sign and digits. *)
Definition exponent_part (s : string) (e : Z) : Prop :=
  (s = "" /\ e = 0)
  \/ exists neg sgn ds v,
       s = "e" +:+ sgn +:+ ds /\ signed neg sgn /\ numeral ds v
       /\ e = if neg then - Z.of_N v else Z.of_N v.

(** What a case-folded, trimmed text writes as a number for [float()]:
    an infinity, a NaN, or a signed decimal literal, with an optional
    exponent: digits, or digits with a point before, within or after
    them, the digits writing the mantissa and those after the point
    lowering the power of ten. *)
Inductive spells_number : string -> pyfloat -> Prop :=
  | spells_infinity (neg : bool) (sgn word : string) :
      signed neg sgn -> In word ["inf"; "infinity"] ->
      spells_number (sgn +:+ word) (FInf neg)
  | spells_nan (neg : bool) (sgn : string) :
      signed neg sgn -> spells_number (sgn +:+ "nan") FNan
  | spells_integer (neg : bool) (sgn int ex : string) (m : N) (e : Z) :
      signed neg sgn -> numeral int m -> exponent_part ex e ->
      spells_number (sgn +:+ int +:+ ex) (FDec neg m e)
  | spells_fraction (neg : bool) (sgn int frac ex : string) (m : N) (e : Z) :
      signed neg sgn -> numeral (int +:+ frac) m -> exponent_part ex e ->
      spells_number (sgn +:+ int +:+ "." +:+ frac +:+ ex)
        (FDec neg m (e - Z.of_nat (String.length frac))).

(** The double nearest to the number is not [0.0]: the number is not zero
    and exceeds [2^-1075], half the least positive double, in size. *)
Definition not_zero (f : pyfloat) : Prop :=
  match f with
  | FNan => True
  | FInf _ => True
  | FDec _ m e =>
      m <> 0%N /\ (0 <= e \/ 10 ^ (- e) < Z.of_N m * 2 ^ 1075)
  end.

(** The string is read by [float()] as a number other than zero. *)
Definition parses_as_nonzero_number (s : string) : Prop :=
  exists core t f,
    trimmed unicode_blank s core /\ case_folded core t
    /\ spells_number t f /\ not_zero f.

(** ** The resolution order, as the specification words it *)

(** What is set explicitly for [(name, key)], as [parser.get] hands it
    out: in this file's own parsed section, else in the nearest parent,
    depth first, the parents tried in the order of their declaration. *)
Fixpoint explicit_value (config : Configuration) (name key : string)
  : option (outcome string) :=
  match config with
  | mkConfiguration _ held _ ps _ _ _ =>
      match ConfigParser.get held name key with
      | Some got => Some got
      | None =>
          (fix first (l : list Configuration) : option (outcome string) :=
             match l with
             | [] => None
             | parent :: rest =>
                 match explicit_value parent name key with
                 | Some got => Some got
                 | None => first rest
                 end
             end) ps
      end
  end.

(** Explicit value, else registry default (an empty one read as [u'']),
    else the default of the caller; the exception of an explicit value
    that does not interpolate. *)
Definition resolve (registry : Registry) (config : Configuration)
    (name key : string) (default : PyObj) : outcome PyObj :=
  match explicit_value config name key with
  | Some (Ok raw) => Ok (Val (VStr raw))
  | Some (Raise e) => Raise e
  | None =>
      match registry !! (name, key) with
      | Some opt => Ok (Val (normalise (option_default opt)))
      | None => Ok default
      end
  end.

(** The value cached for [(name, key)] by the proxy of [config]. *)
Definition cached (config : Configuration) (name key : string) : option Value :=
  section_cache (_sections config) name !! key.

(** Cache coherence of a configuration that is only read as a parent: what
    a proxy caches is the explicit value, here and in every ancestor. *)
Fixpoint coherent_parent (config : Configuration) : Prop :=
  match config with
  | mkConfiguration _ _ _ ps _ secs _ =>
      (forall name key v, section_cache secs name !! key = Some v ->
         exists raw, v = VStr raw
                     /\ explicit_value config name key = Some (Ok raw))
      /\ (fix all (l : list Configuration) : Prop :=
            match l with
            | [] => True
            | parent :: rest => coherent_parent parent /\ all rest
            end) ps
  end.

(** Cache coherence of a configuration read by callers: what a proxy caches
    is what a fresh resolution yields, and the parents are coherent. *)
Definition coherent (registry : Registry) (config : Configuration) : Prop :=
  (forall name key v, cached config name key = Some v ->
     resolve registry config name key _use_default = Ok (Val v))
  /\ Forall coherent_parent (parents config).

(** The same configuration with every cache dropped, parents included. *)
Fixpoint drop_caches (config : Configuration) : Configuration :=
  match config with
  | mkConfiguration fn held old ps lm _ cc =>
      mkConfiguration fn held old (List.map drop_caches ps) lm ∅ cc
  end.

(** ** The reparse conditions, as the specification words them *)

(** No reparse is pending: the file is missing, or its time does not
    exceed the recorded one and the same holds of every parent. *)
Fixpoint up_to_date (fs : filesystem) (config : Configuration) : bool :=
  match config with
  | mkConfiguration fn _ _ ps lm _ _ =>
      match fs !! fn with
      | None => true
      | Some f =>
          Text.str_eqb fn ""
          || (mtime f <=? lm) && forallb (up_to_date fs) ps
      end
  end.

(** This file or some transitively visited parent changed: the file
    exists and is reparsed (forced, or newer than recorded), or else a
    parent is in that case. *)
Fixpoint reparse_due (fs : filesystem) (force : bool) (config : Configuration)
  : bool :=
  match config with
  | mkConfiguration fn _ _ ps lm _ _ =>
      match fs !! fn with
      | None => false
      | Some f =>
          negb (Text.str_eqb fn "")
          && (force || (lm <? mtime f) || existsb (reparse_due fs force) ps)
      end
  end.

(** [path] is what an element of the [inherit.file] list names: the
    element trimmed, taken as it is when absolute and relative to the
    directory of the inheriting file otherwise. *)
Definition names_file (self_filename element path : string) : Prop :=
  exists core,
    trimmed str_blank element core
    /\ ((os_path.isabs core = true /\ path = core)
        \/ (os_path.isabs core = false
            /\ path = os_path.join (os_path.dirname self_filename) core)).

(** [paths] are the parent files that the [inherit.file] value names, in
    the order of the list. *)
Definition names_parents (self_filename value : string) (paths : list string)
  : Prop :=
  exists elements,
    comma_separated value elements
    /\ Forall2 (names_file self_filename) elements paths.

Definition is_parsed (c : fcontents) : bool :=
  match c with Parsed _ => true | _ => false end.

(** The file parses and its [inherit.file] option, if it has one,
    interpolates. *)
Definition parses_and_inherits (c : fcontents) : bool :=
  match c with
  | Parsed sections =>
      match ConfigParser.get sections "inherit" "file" with
      | Some (Raise _) => false
      | _ => true
      end
  | _ => false
  end.

(** ** Files and configurations of the examples *)

(** What a parser holds for a file of these sections, each a list of
    options whose values hold no reference: the values as written, and the
    entry [__name__] of each section. *)
Definition ini (l : list (string * list (string * string))) : parsed :=
  list_to_map
    (List.map
       (fun '(name, options) =>
          (name, (Ok <$> list_to_map options) ∪ {[ "__name__" := Ok name ]}))
       l).

(** The object a constructor call yields ([Configuration(filename)]
    raising is not the case in the examples). *)
Definition constructed (r : outcome Configuration) : Configuration :=
  match r with
  | Ok config => config
  | Raise _ => mkConfiguration "" ∅ ∅ [] 0 ∅ None
  end.

(** A child that inherits from one parent, the parent setting [a] in
    section [x]; then the parent file rewritten at a later time. *)
Definition fs_inherit : filesystem :=
  {[ "/etc/child.ini" := mkFile 1 (Parsed (ini [("inherit", [("file", "parent.ini")])]));
     "/etc/parent.ini" := mkFile 1 (Parsed (ini [("x", [("a", "1")])])) ]}.

Definition fs_parent_rewritten : filesystem :=
  <["/etc/parent.ini" := mkFile 2 (Parsed (ini [("x", [("a", "2")])]))]> fs_inherit.

Definition child_created : Configuration :=
  constructed (Configuration_init fs_inherit "/etc/child.ini").

Definition child_parsed : Configuration :=
  snd (parse_if_needed fs_inherit false child_created).

Definition child_read : Configuration :=
  snd (Configuration_get ∅ child_parsed "x" "a" (Val (VStr ""))).

Definition child_reparsed : Configuration :=
  snd (parse_if_needed fs_parent_rewritten false child_read).

(** Child and parent both set [a] in section [x]. *)
Definition fs_override : filesystem :=
  {[ "/etc/child.ini" :=
       mkFile 1 (Parsed (ini [("inherit", [("file", "parent.ini")]); ("x", [("a", "1")])]));
     "/etc/parent.ini" := mkFile 1 (Parsed (ini [("x", [("a", "2")])])) ]}.

Definition overriding_child : Configuration :=
  snd (parse_if_needed fs_override false
         (constructed (Configuration_init fs_override "/etc/child.ini"))).

(** A file parsed at time 5 that can no longer be opened, its time
    unchanged. *)
Definition fs_locked : filesystem := {[ "/etc/burp.ini" := mkFile 5 Unreadable ]}.

Definition parsed_before_lock : Configuration :=
  mkConfiguration "/etc/burp.ini" (ini [("x", [("a", "1")])])
    (ini [("x", [("a", "1")])]) [] 5 ∅ (Some ∅).

(** A file whose [inherit.file] option refers to an option that is not
    there: [file = %(nope)s]. *)
Definition fs_bad_reference : filesystem :=
  {[ "/etc/burp.ini" :=
       mkFile 1 (Parsed {[ "inherit" :=
                             {[ "file" := Raise (InterpolationError "nope");
                                "__name__" := Ok "inherit" ]} ]}) ]}.

Definition bad_reference : Configuration :=
  constructed (Configuration_init fs_bad_reference "/etc/burp.ini").



(** A list option with an empty element, and an option set to nothing. *)
Definition fs_list : filesystem :=
  {[ "/etc/burp.ini" :=
       mkFile 1 (Parsed (ini [("x", [("a", "a, b,,c"); ("empty", "")])])) ]}.

Definition list_config : Configuration :=
  snd (parse_if_needed fs_list false
         (constructed (Configuration_init fs_list "/etc/burp.ini"))).

(** Two watched files, both newer than recorded; reloading the module
    [modA] raises. *)
Definition world_at (t : Z) : world :=
  mkWorld {[ "A" := mkFile t (Parsed ∅); "B" := mkFile t (Parsed ∅) ]}
    (fun module _ =>
       if Text.str_eqb module "modA" then Raise (ImportError "modA") else Ok ())
    (fun _ _ => Ok ()).

(** A world in which every module reloads and every handler is patched. *)
Definition working_world (fs : filesystem) : world :=
  mkWorld fs (fun _ _ => Ok ()) (fun _ _ => Ok ()).

Definition two_watched : PluginMonitorThread :=
  mkMonitor {[ "A" := 1; "B" := 1 ]}
    [("A", [mkPlugin "modA" "HandlerA" (Some MenuItemHandler)]);
     ("B", [mkPlugin "modB" "HandlerB" (Some MenuItemHandler)])].



(** ** The loops over the parents, by name *)

(** The loop of [parse_if_needed] over the parents, config.py:244. *)
Fixpoint visit_parents (fs : filesystem) (force : bool)
    (l : list Configuration) (changed : bool)
  : outcome bool * list Configuration :=
  match l with
  | [] => (Ok changed, [])
  | parent :: rest =>
      match parse_if_needed fs force parent with
      | (Ok b, parent') =>
          let '(r, rest') := visit_parents fs force rest (changed || b) in
          (r, parent' :: rest')
      | (Raise e, parent') => (Raise e, parent' :: rest)
      end
  end.

(** The loop of [Section.get] over the parents, config.py:317, with its
    [else] clause. *)
Fixpoint ask_parents (registry : Registry) (name key : string) (default : PyObj)
    (l : list Configuration) : outcome PyObj * list Configuration :=
  match l with
  | [] => (Ok (registry_default registry name key default), [])
  | parent :: rest =>
      let '(v, parent') :=
        Configuration_get registry parent name key _use_default in
      match v with
      | Ok _use_default =>
          let '(v', rest') := ask_parents registry name key default rest in
          (v', parent' :: rest')
      | _ => (v, parent' :: rest)
      end
  end.

(** The first explicit value among the parents. *)
Fixpoint first_explicit (l : list Configuration) (name key : string)
  : option (outcome string) :=
  match l with
  | [] => None
  | parent :: rest =>
      match explicit_value parent name key with
      | Some got => Some got
      | None => first_explicit rest name key
      end
  end.

(** What a configuration answers when a child asks it as a parent. *)
Definition parent_answer (config : Configuration) (name key : string)
  : outcome PyObj :=
  match explicit_value config name key with
  | Some (Ok raw) => Ok (Val (VStr raw))
  | Some (Raise e) => Raise e
  | None => Ok _use_default
  end.

(** A coherent configuration asked as a parent answers [parent_answer],
    stays coherent and keeps its explicit values. *)
Definition answers_as_parent (registry : Registry) (config : Configuration)
  : Prop :=
  forall name key,
    coherent_parent config ->
    exists config',
      Configuration_get registry config name key _use_default
      = (parent_answer config name key, config')
      /\ coherent_parent config'
      /\ forall n k, explicit_value config' n k = explicit_value config n k.

(** The precedence the specification gives to [get], written out on one
    call: the value of this file's own section, else the first explicit
    value among the parents (depth first, in declaration order), else the
    registry default (an empty one read as [u'']), else the default of the
    caller; an explicit value being the text that [parser.get] returns, or
    its exception; an explicit empty string is returned as such; and the
    configuration is left coherent. *)
Definition follows_precedence (registry : Registry) (config : Configuration)
    (name key : string) (default : PyObj) : Prop :=
  fst (Section_get registry config name key default)
  = match ConfigParser.get (parser config) name key with
    | Some (Ok text) => Ok (Val (VStr text))
    | Some (Raise e) => Raise e
    | None =>
        match first_explicit (parents config) name key with
        | Some (Ok text) => Ok (Val (VStr text))
        | Some (Raise e) => Raise e
        | None =>
            match registry !! (name, key) with
            | Some opt => Ok (Val (normalise (option_default opt)))
            | None => Ok default
            end
        end
    end
  /\ (explicit_value config name key = Some (Ok "") ->
      fst (Section_get registry config name key default) = Ok (Val (VStr "")))
  /\ coherent registry (snd (Section_get registry config name key default)).

(** ** Presence tests *)

(** [o is not None]. *)
Definition is_some {A} (o : option A) : bool :=
  match o with Some _ => true | None => false end.

(** [Configuration.has_option(section, option, defaults=True)],
    config.py:203: [has_section] followed by the membership test on
    [options]. *)
Fixpoint Configuration_has_option (registry : Registry) (config : Configuration)
    (section opt : string) (defaults : bool) {struct config} : bool :=
  match config with
  | mkConfiguration _ held _ ps _ _ _ =>
      if ConfigParser.in_options held (_to_utf8 section) (_to_utf8 opt) then true
      else if (fix loop (l : list Configuration) : bool :=
                 match l with
                 | [] => false
                 | parent :: rest =>
                     if Configuration_has_option registry parent section opt false
                     then true
                     else loop rest
                 end) ps
      then true
      else defaults && match registry !! (section, opt) with
                       | Some _ => true
                       | None => false
                       end
  end.

(** [config[name].contains(key, defaults=True)], config.py:265, the proxy
    being fetched by [Configuration.__getitem__] as for [get]: the test of
    a parent goes through [parent[self.name]], which creates the proxy of
    the parent, up to the first parent that answers [True]. *)
Fixpoint Section_contains (registry : Registry) (config : Configuration)
    (name key : string) (defaults : bool) {struct config}
  : bool * Configuration :=
  match config with
  | mkConfiguration fn held old ps lm secs0 cc =>
      let secs := ensure_proxy secs0 name in
      if ConfigParser.has_option held (_to_utf8 name) (_to_utf8 key)
      then (true, mkConfiguration fn held old ps lm secs cc)
      else
        let '(found, ps') :=
          (fix loop (l : list Configuration) : bool * list Configuration :=
             match l with
             | [] => (false, [])
             | parent :: rest =>
                 let '(b, parent') :=
                   Section_contains registry parent name key false in
                 if b then (true, parent' :: rest)
                 else let '(b', rest') := loop rest in (b', parent' :: rest')
             end) ps in
        (if found then true
         else defaults && match registry !! (name, key) with
                          | Some _ => true
                          | None => false
                          end,
         mkConfiguration fn held old ps' lm secs cc)
  end.

(** ** Numbers *)

(** [Section.getint(key, default)], config.py:347.  [int_] is the builtin
    [int], of which the accessor only uses that it is applied to the value
    when the value is true. *)
Definition Section_getint (int_ : PyObj -> outcome Z) (registry : Registry)
    (config : Configuration) (name key : string) (default : PyObj)
  : outcome Z * Configuration :=
  let '(got, config') := Section_get registry config name key default in
  match got with
  | Raise e => (Raise e, config')
  | Ok value =>
      match py_bool value with
      | Raise e => (Raise e, config')
      | Ok false => (Ok 0, config')
      | Ok true => (int_ value, config')
      end
  end.

(** [Section.getfloat(key, default)], config.py:357, with the builtin
    [float] as [float_]; [0.0] is the literal [FDec false 0 0]. *)
Definition Section_getfloat (float_ : PyObj -> outcome pyfloat)
    (registry : Registry) (config : Configuration) (name key : string)
    (default : PyObj) : outcome pyfloat * Configuration :=
  let '(got, config') := Section_get registry config name key default in
  match got with
  | Raise e => (Raise e, config')
  | Ok value =>
      match py_bool value with
      | Raise e => (Raise e, config')
      | Ok false => (Ok (FDec false 0 0), config')
      | Ok true => (float_ value, config')
      end
  end.

(** [Configuration.getint] and [Configuration.getfloat], config.py:128 and
    135. *)
Definition Configuration_getint := Section_getint.
Definition Configuration_getfloat := Section_getfloat.

(** ** Declarations *)

(** [Option.__init__(section, name, default, doc)], config.py:482: the
    descriptor enters the registry under [(section, name)], in the place of
    any descriptor declared for that pair before.  [doc] is the text after
    [cleandoc]. *)
Definition Option_init (registry : Registry) (section name : string)
    (default : Value) (doc : string) : Option * Registry :=
  let self := mkOption section name default doc in
  (self, <[(section, name) := self]> registry).

(** [Option.__get__(instance, owner)], config.py:499, on an instance whose
    attribute [config] is the configuration [config]: the accessor of the
    class is called with the descriptor's own name and default.  The
    accessors of [Option], [BoolOption], [IntOption], [FloatOption] and
    [ListOption] (config.py:470, 518, 523, 528, 542). *)
Definition Option_get (registry : Registry) (self : Option)
    (config : Configuration) : outcome PyObj * Configuration :=
  Section_get registry config (option_section self) (option_name self)
    (Val (option_default self)).

Definition BoolOption_get (registry : Registry) (self : Option)
    (config : Configuration) : outcome bool * Configuration :=
  Section_getbool registry config (option_section self) (option_name self)
    (Val (option_default self)).

Definition IntOption_get (int_ : PyObj -> outcome Z) (registry : Registry)
    (self : Option) (config : Configuration) : outcome Z * Configuration :=
  Section_getint int_ registry config (option_section self) (option_name self)
    (Val (option_default self)).

Definition FloatOption_get (float_ : PyObj -> outcome pyfloat)
    (registry : Registry) (self : Option) (config : Configuration)
  : outcome pyfloat * Configuration :=
  Section_getfloat float_ registry config (option_section self)
    (option_name self) (Val (option_default self)).

(** A [ListOption] keeps [sep] and [keep_empty] next to what an [Option]
    keeps (config.py:536; [sep=','] and [keep_empty=False] when left
    out). *)
Definition ListOption_get (registry : Registry) (self : Option)
    (sep : string) (keep_empty : bool) (config : Configuration)
  : outcome (list string) * Configuration :=
  Section_getlist registry config (option_section self) (option_name self)
    (Some (Val (option_default self))) (Some sep) (Some keep_empty).

(** ** Listing the sections *)

(** [_get_registry(Option, compmgr)], config.py:412.  A component manager
    is given by what the test of config.py:429 decides for an entry [each]
    of the registry: that no component class holds the descriptor
    [each[1]], or that the manager enables the class that does (the
    classes are those of [ComponentMeta], of [gds.burp.core]). *)
Definition Option_get_registry
    (compmgr : option (string * string * Option -> bool))
    (registry : Registry) : Registry :=
  match compmgr with
  | None => registry
  | Some keeps => filter (fun each => keeps each = true) registry
  end.

(** [Configuration.defaults(compmgr)], config.py:164. *)
Definition Configuration_defaults (compmgr : option (string * string * Option -> bool))
    (registry : Registry) : gmap string (gmap string Value) :=
  map_fold
    (fun each opt defaults =>
       <[fst each := <[snd each := option_default opt]>
                       (default ∅ (defaults !! fst each))]> defaults)
    ∅ (Option_get_registry compmgr registry).

(** The order of [sorted] on text: by code point, a proper prefix first. *)
Definition str_le (a b : string) : Prop := String.leb a b = true.

#[global] Instance str_le_dec : RelDecision str_le.
Proof. intros a b. unfold str_le. apply _. Defined.

(** [sorted(s)] for a set of strings. *)
Definition sorted (s : gset string) : list string :=
  merge_sort str_le (elements s).

(** [Configuration.sections(compmgr, defaults=True)], config.py:189. *)
Fixpoint Configuration_sections (registry : Registry)
    (compmgr : option (string * string * Option -> bool)) (config : Configuration)
    (defaults : bool) {struct config} : list string :=
  match config with
  | mkConfiguration _ held _ ps _ _ _ =>
      let own : gset string := list_to_set (List.map to_unicode (elements (dom held))) in
      let with_parents :=
        (fix loop (l : list Configuration) (sections : gset string)
           : gset string :=
           match l with
           | [] => sections
           | parent :: rest =>
               loop rest
                 (sections
                  ∪ list_to_set
                      (Configuration_sections registry compmgr parent false))
           end) ps own in
      sorted (if defaults
              then with_parents ∪ dom (Configuration_defaults compmgr registry)
              else with_parents)
  end.

(** [name in config], config.py:96. *)
Definition Configuration_contains (registry : Registry)
    (config : Configuration) (name : string) : bool :=
  bool_decide (name ∈ Configuration_sections registry None config true).

(** ** The monitor at start-up *)

(** [PluginMonitorThread(burp, interval)], monitor.py:10, for the watch
    list [burp.monitoring]; the log and alert calls are left out. *)
Definition PluginMonitorThread_init (fs : filesystem)
    (watched : list (string * list plugin)) : outcome PluginMonitorThread :=
  match initial_mtimes fs (List.map fst watched) ∅ with
  | Ok seen => Ok (mkMonitor seen watched)
  | Raise e => Raise e
  end.

(** ** The loops of the presence tests and of the listing, by name *)

Fixpoint any_parent_has_option (registry : Registry) (section opt : string)
    (l : list Configuration) : bool :=
  match l with
  | [] => false
  | parent :: rest =>
      if Configuration_has_option registry parent section opt false then true
      else any_parent_has_option registry section opt rest
  end.

Fixpoint any_parent_contains (registry : Registry) (name key : string)
    (l : list Configuration) : bool * list Configuration :=
  match l with
  | [] => (false, [])
  | parent :: rest =>
      let '(b, parent') := Section_contains registry parent name key false in
      if b then (true, parent' :: rest)
      else
        let '(b', rest') := any_parent_contains registry name key rest in
        (b', parent' :: rest')
  end.

Fixpoint parent_sections (registry : Registry)
    (compmgr : option (string * string * Option -> bool)) (l : list Configuration)
    (sections : gset string) : gset string :=
  match l with
  | [] => sections
  | parent :: rest =>
      parent_sections registry compmgr rest
        (sections
         ∪ list_to_set (Configuration_sections registry compmgr parent false))
  end.

(** Some file of the inheritance tree of [config] has a section [name]. *)
Fixpoint section_in_tree (config : Configuration) (name : string) : Prop :=
  match config with
  | mkConfiguration _ held _ ps _ _ _ =>
      is_Some (held !! name)
      \/ (fix some (l : list Configuration) : Prop :=
            match l with
            | [] => False
            | parent :: rest => section_in_tree parent name \/ some rest
            end) ps
  end.

(** ** Absolute paths *)

(** The file of [config] and the files of all its ancestors are given by
    absolute paths. *)
Fixpoint absolute_tree (config : Configuration) : Prop :=
  match config with
  | mkConfiguration fn _ _ ps _ _ _ =>
      os_path.isabs fn = true
      /\ (fix all (l : list Configuration) : Prop :=
            match l with
            | [] => True
            | parent :: rest => absolute_tree parent /\ all rest
            end) ps
  end.

(** ** States that cache the same *)

(** Two states of a configuration that hold the same data and cache the
    same values, at every level: they differ at most in section proxies
    that cache nothing. *)
Fixpoint same_cached (c c' : Configuration) {struct c} : Prop :=
  match c, c' with
  | mkConfiguration fn held old ps lm secs cc,
    mkConfiguration fn' held' old' ps' lm' secs' cc' =>
      fn = fn' /\ held = held' /\ old = old' /\ lm = lm' /\ cc = cc'
      /\ (forall n k, section_cache secs n !! k = section_cache secs' n !! k)
      /\ (fix all (l l' : list Configuration) {struct l} : Prop :=
            match l, l' with
            | [], [] => True
            | p :: rest, p' :: rest' => same_cached p p' /\ all rest rest'
            | _, _ => False
            end) ps ps'
  end.

(** * Properties *)

Lemma str_eqb_eq (a b : string) : Text.str_eqb a b = true <-> a = b.
Proof. unfold Text.str_eqb. apply String.eqb_eq. Qed.

Lemma str_in_In (s : string) (l : list string) : str_in s l = true <-> In s l.
Proof.
  unfold str_in. rewrite existsb_exists. split.
  - intros [x [Hin Heq]]. apply str_eqb_eq in Heq. now subst.
  - intros Hin. exists s. split; [assumption | now apply str_eqb_eq].
Qed.

(** ** Trimming *)

Lemma app_cons_str (x : ascii) (a b : string) :
  String x a +:+ b = String x (a +:+ b).
Proof. reflexivity. Qed.

Lemma app_nil_l_str (a : string) : "" +:+ a = a.
Proof. reflexivity. Qed.

Ltac app_norm := rewrite ?app_cons_str, ?app_nil_l_str in *.

Lemma app_assoc_str (a b c : string) : (a +:+ b) +:+ c = a +:+ b +:+ c.
Proof. induction a as [| x a IH]; [reflexivity |]. app_norm. now rewrite IH. Qed.

Lemma app_nil_r_str (a : string) : a +:+ "" = a.
Proof. induction a as [| x a IH]; [reflexivity |]. app_norm. now rewrite IH. Qed.

Lemma app_length_str (a b : string) :
  String.length (a +:+ b) = (String.length a + String.length b)%nat.
Proof. induction a as [| x a IH]; [reflexivity |]. app_norm. cbn. now rewrite IH. Qed.

(** The two pairs of trimming functions, [str.strip] and [unicode.strip],
    share their shape: the lemmas are proved once, for any functions with
    these equations. *)
Section Trimming.

Variable isblank : ascii -> bool.
Variable blank : ascii -> Prop.
Hypothesis blank_spec : forall a, isblank a = true <-> blank a.

Variables lstrip rstrip : string -> string.
Hypothesis lstrip_nil : lstrip "" = "".
Hypothesis lstrip_cons :
  forall a s, lstrip (String a s) = if isblank a then lstrip s else String a s.
Hypothesis rstrip_nil : rstrip "" = "".
Hypothesis rstrip_cons :
  forall a s,
    rstrip (String a s)
    = match rstrip s with
      | EmptyString => if isblank a then EmptyString else String a EmptyString
      | r => String a r
      end.

Lemma isblank_false a : isblank a = false <-> ~ blank a.
Proof.
  rewrite <- blank_spec. destruct (isblank a); split; congruence.
Qed.

Lemma lstrip_split s :
  exists lead,
    s = lead +:+ lstrip s /\ every blank lead /\ ~ first_is blank (lstrip s).
Proof.
  induction s as [| a s (lead & Hs & Hl & Hf)].
  - exists "". rewrite lstrip_nil. cbn. tauto.
  - rewrite lstrip_cons. destruct (isblank a) eqn:E.
    + exists (String a lead). app_norm. rewrite <- Hs. cbn.
      repeat split; [apply blank_spec, E | exact Hl | exact Hf].
    + exists "". cbn. repeat split. apply isblank_false, E.
Qed.

Lemma rstrip_split s :
  exists trail,
    s = rstrip s +:+ trail /\ every blank trail /\ ~ last_is blank (rstrip s)
    /\ (~ first_is blank s -> ~ first_is blank (rstrip s)).
Proof.
  induction s as [| a s (trail & Hs & Ht & Hl & Hf)].
  - exists "". rewrite rstrip_nil. cbn. tauto.
  - rewrite rstrip_cons. destruct (rstrip s) as [| b r] eqn:Er.
    + destruct (isblank a) eqn:E.
      * exists (String a trail). app_norm. subst s. cbn in *.
        repeat split; [apply blank_spec, E | exact Ht | tauto | tauto].
      * exists trail. app_norm. subst s. cbn in *.
        repeat split; [exact Ht | apply isblank_false, E | tauto].
    + exists trail. app_norm. subst s.
      repeat split; [exact Ht | exact Hl | cbn; tauto].
Qed.

Lemma strip_is_trimmed s : trimmed blank s (rstrip (lstrip s)).
Proof.
  destruct (lstrip_split s) as (lead & Hs & Hl & Hf).
  destruct (rstrip_split (lstrip s)) as (trail & Hs' & Ht & Hlast & Hfirst).
  exists lead, trail. rewrite <- Hs'. repeat split; auto.
Qed.

Lemma lstrip_blank t : every blank t -> lstrip t = "".
Proof.
  induction t as [| a t IH]; [intros _; apply lstrip_nil |].
  cbn. intros [Ha Ht]. rewrite lstrip_cons.
  apply blank_spec in Ha. rewrite Ha. apply IH, Ht.
Qed.

Lemma rstrip_blank t : every blank t -> rstrip t = "".
Proof.
  induction t as [| a t IH]; [intros _; apply rstrip_nil |].
  cbn. intros [Ha Ht]. rewrite rstrip_cons, IH by exact Ht.
  apply blank_spec in Ha. rewrite Ha. reflexivity.
Qed.

Lemma lstrip_lead lead x : every blank lead -> lstrip (lead +:+ x) = lstrip x.
Proof.
  induction lead as [| a lead IH]; [reflexivity |].
  cbn. intros [Ha Hl]. app_norm. rewrite lstrip_cons.
  apply blank_spec in Ha. rewrite Ha. apply IH, Hl.
Qed.

Lemma rstrip_trail x trail : every blank trail -> rstrip (x +:+ trail) = rstrip x.
Proof.
  intros Ht. induction x as [| a x IH].
  - app_norm. rewrite rstrip_nil. apply rstrip_blank, Ht.
  - app_norm. rewrite !rstrip_cons, IH. reflexivity.
Qed.

Lemma rstrip_last x : ~ last_is blank x -> rstrip x = x.
Proof.
  induction x as [| a x IH]; [intros _; apply rstrip_nil |].
  intros Hl. rewrite rstrip_cons. destruct x as [| b r].
  - rewrite rstrip_nil. cbn in Hl. apply isblank_false in Hl. rewrite Hl. reflexivity.
  - rewrite IH by exact Hl. reflexivity.
Qed.

Lemma trimmed_is_strip s core : trimmed blank s core -> core = rstrip (lstrip s).
Proof.
  intros (lead & trail & -> & Hl & Ht & Hf & Hlast).
  rewrite lstrip_lead by exact Hl.
  destruct core as [| c r].
  - app_norm. rewrite lstrip_blank by exact Ht. symmetry. apply rstrip_nil.
  - rewrite app_cons_str, lstrip_cons.
    cbn in Hf. apply isblank_false in Hf. rewrite Hf.
    rewrite <- app_cons_str.
    rewrite rstrip_trail by exact Ht. symmetry. apply rstrip_last, Hlast.
Qed.

End Trimming.

Lemma isspace_str_blank a : Text.isspace_str a = true <-> str_blank a.
Proof.
  unfold Text.isspace_str, str_blank. cbn [In].
  rewrite orb_true_iff, andb_true_iff, !N.leb_le, N.eqb_eq. lia.
Qed.

Lemma isspace_blank a : Text.isspace a = true <-> unicode_blank a.
Proof.
  unfold Text.isspace, unicode_blank. cbn [In].
  rewrite !orb_true_iff, !andb_true_iff, !N.leb_le, !N.eqb_eq. lia.
Qed.

(** [str.strip] yields the trimmed byte string, and nothing else is it. *)
Lemma strip_str_trimmed s core :
  trimmed str_blank s core <-> core = Text.strip_str s.
Proof.
  split.
  - apply (trimmed_is_strip Text.isspace_str str_blank isspace_str_blank
             Text.lstrip_str Text.rstrip_str); reflexivity.
  - intros ->.
    apply (strip_is_trimmed Text.isspace_str str_blank isspace_str_blank
             Text.lstrip_str Text.rstrip_str); reflexivity.
Qed.

(** [unicode.strip] likewise. *)
Lemma strip_trimmed s core :
  trimmed unicode_blank s core <-> core = Text.strip s.
Proof.
  split.
  - apply (trimmed_is_strip Text.isspace unicode_blank isspace_blank
             Text.lstrip Text.rstrip); reflexivity.
  - intros ->.
    apply (strip_is_trimmed Text.isspace unicode_blank isspace_blank
             Text.lstrip Text.rstrip); reflexivity.
Qed.

(** ** Case folding *)

Lemma code_lt a : (Text.code a < 256)%N.
Proof. apply N_ascii_bounded. Qed.

Lemma lower_char_small a b : small_of a b <-> b = Text.lower_char a.
Proof.
  unfold small_of, capital, Text.lower_char.
  assert (Hc : ((65 <=? Text.code a) && (Text.code a <=? 90)
                || (192 <=? Text.code a) && (Text.code a <=? 222)
                   && negb (Text.code a =? 215))%N = true
               <-> (65 <= Text.code a <= 90
                    \/ (192 <= Text.code a <= 222 /\ Text.code a <> 215))%N).
  { rewrite orb_true_iff, !andb_true_iff, negb_true_iff, !N.leb_le, N.eqb_neq. lia. }
  destruct ((65 <=? Text.code a) && (Text.code a <=? 90)
            || (192 <=? Text.code a) && (Text.code a <=? 222)
               && negb (Text.code a =? 215))%N.
  - assert (Hcap : (65 <= Text.code a <= 90
                    \/ (192 <= Text.code a <= 222 /\ Text.code a <> 215))%N)
      by now apply Hc.
    split.
    + intros [[_ Hb] | [Hn _]]; [| tauto].
      unfold Text.code in Hb |- *. rewrite <- Hb. symmetry. apply ascii_N_embedding.
    + intros ->. left. split; [exact Hcap |].
      unfold Text.code at 1. apply N_ascii_embedding. lia.
  - assert (Hcap : ~ (65 <= Text.code a <= 90
                      \/ (192 <= Text.code a <= 222 /\ Text.code a <> 215))%N).
    { intros H. apply Hc in H. discriminate. }
    split.
    + intros [[H _] | [_ Hb]]; [tauto | exact Hb].
    + intros ->. right. split; [exact Hcap | reflexivity].
Qed.

(** [unicode.lower] yields the case-folded text, and nothing else is it. *)
Lemma lower_case_folded s t : case_folded s t <-> t = Text.lower s.
Proof.
  revert t. induction s as [| a s IH]; intros [| b t]; cbn.
  - tauto.
  - split; [tauto | discriminate].
  - split; [tauto | discriminate].
  - rewrite lower_char_small, IH. split; [intros [-> ->]; reflexivity |].
    intros [= -> ->]. tauto.
Qed.

(** ** Numbers read by [float()] *)

Lemma isdigit_digit a : Text.isdigit a = true <-> digit a.
Proof.
  unfold Text.isdigit, digit. rewrite andb_true_iff, !N.leb_le. tauto.
Qed.

Lemma numeral_nonempty ds v : numeral ds v -> ds <> "".
Proof.
  intros H. destruct H as [a Ha | ds v a H Ha]; [discriminate |].
  destruct ds; discriminate.
Qed.

Lemma numeral_snoc pre acc a :
  numeral0 pre acc -> digit a ->
  numeral (pre +:+ String a "") (10 * acc + (Text.code a - 48)).
Proof.
  intros [[-> ->] | H] Ha.
  - app_norm. rewrite N.mul_0_r, N.add_0_l. now constructor.
  - now constructor.
Qed.

(** What [digits] reads: the leading digits of its input, whose value it
    hands out on top of the digits read before. *)
Lemma digits_reads s :
  forall pre acc n v n' rest,
    numeral0 pre acc ->
    Float.digits s acc n = (v, n', rest) ->
    exists ds,
      s = ds +:+ rest /\ n' = (n + String.length ds)%nat
      /\ numeral0 (pre +:+ ds) v /\ ~ first_is digit rest.
Proof.
  induction s as [| a s IH]; intros pre acc n v n' rest Hpre; cbn [Float.digits].
  - intros [= <- <- <-]. exists "". rewrite !app_nil_r_str. app_norm. cbn.
    repeat split; [lia | exact Hpre | tauto].
  - destruct (Text.isdigit a) eqn:Ea.
    + intros Hd. apply isdigit_digit in Ea.
      destruct (IH (pre +:+ String a "") _ _ _ _ _
                  (or_intror (numeral_snoc pre acc a Hpre Ea)) Hd)
        as (ds & -> & -> & Hv & Hrest).
      exists (String a ds). rewrite app_assoc_str in Hv. app_norm. cbn in *.
      repeat split; [lia | exact Hv | exact Hrest].
    + intros [= <- <- <-]. exists "". rewrite !app_nil_r_str. app_norm. cbn.
      repeat split; [lia | exact Hpre |].
      intros Ha. apply isdigit_digit in Ha. congruence.
Qed.

Lemma digits_stops rest acc n :
  ~ first_is digit rest -> Float.digits rest acc n = (acc, n, rest).
Proof.
  destruct rest as [| a rest]; [reflexivity |]. cbn. intros Ha.
  destruct (Text.isdigit a) eqn:Ea; [| reflexivity].
  apply isdigit_digit in Ea. tauto.
Qed.

Lemma digits_of_numeral ds v :
  numeral ds v ->
  forall rest n,
    Float.digits (ds +:+ rest) 0 n = Float.digits rest v (n + String.length ds).
Proof.
  induction 1 as [a Ha | ds v a H IH Ha]; intros rest n.
  - app_norm. cbn. apply isdigit_digit in Ha. rewrite Ha.
    unfold Text.digit_value. rewrite Nat.add_1_r. reflexivity.
  - rewrite app_assoc_str, IH. app_norm. cbn [Float.digits].
    apply isdigit_digit in Ha. rewrite Ha. unfold Text.digit_value.
    rewrite app_length_str. cbn [String.length].
    replace (S (n + String.length ds)) with (n + (String.length ds + 1))%nat by lia.
    reflexivity.
Qed.

Lemma numeral_digits ds v : numeral ds v -> every digit ds.
Proof.
  assert (Happ : forall a b, every digit a -> every digit b -> every digit (a +:+ b)).
  { induction a as [| x a IH]; intros b; app_norm; cbn; [tauto |].
    intros [Hx Ha] Hb. auto. }
  induction 1 as [a Ha | ds v a H IH Ha]; [cbn; tauto |].
  apply Happ; [exact IH | cbn; tauto].
Qed.

Lemma sign_reads t neg r :
  Float.sign t = (neg, r) -> exists sgn, t = sgn +:+ r /\ signed neg sgn.
Proof.
  unfold Float.sign, signed. destruct t as [| a t].
  - intros [= <- <-]. exists "". tauto.
  - destruct (Ascii.eqb_spec a "-") as [-> | Hm].
    + intros [= <- <-]. exists "-". tauto.
    + destruct (Ascii.eqb_spec a "+") as [-> | Hp].
      * intros [= <- <-]. exists "+". tauto.
      * intros H. exists "".
        assert (E : (false, String a t) = (neg, r)).
        { rewrite <- H. clear H.
          destruct a as [[] [] [] [] [] [] [] []]; try reflexivity; congruence. }
        injection E as <- <-. tauto.
Qed.

Lemma sign_of_signed neg sgn r :
  signed neg sgn ->
  ~ first_is (fun a => a = "-"%char \/ a = "+"%char) r ->
  Float.sign (sgn +:+ r) = (neg, r).
Proof.
  intros [[-> [-> | ->]] | [-> ->]] Hr; try reflexivity.
  app_norm. unfold Float.sign. destruct r as [| a r]; [reflexivity |].
  cbn in Hr.
  destruct a as [[] [] [] [] [] [] [] []]; try reflexivity; exfalso; apply Hr; auto.
Qed.

Lemma exponent_reads s e : Float.exponent s = Some e <-> exponent_part s e.
Proof.
  unfold exponent_part. split.
  - destruct s as [| a s]; [intros [= <-]; left; tauto |].
    intros H. right.
    assert (Ha : a = "e"%char).
    { destruct a as [[] [] [] [] [] [] [] []]; try discriminate H. reflexivity. }
    subst a. cbn [Float.exponent] in H.
    destruct (Float.sign s) as [neg s''] eqn:Es.
    destruct (Float.digits s'' 0 0) as [[v n] rest] eqn:Ed.
    destruct n as [| n]; [discriminate |].
    destruct rest; [| discriminate].
    injection H as <-.
    destruct (sign_reads _ _ _ Es) as (sgn & -> & Hsgn).
    destruct (digits_reads s'' "" 0%N 0%nat v (S n) "" (or_introl (conj eq_refl eq_refl)) Ed)
      as (ds & -> & Hn & Hv & _).
    rewrite app_nil_r_str. app_norm.
    exists neg, sgn, ds, v. repeat split; [exact Hsgn |].
    destruct Hv as [[-> _] | Hv]; [discriminate Hn | exact Hv].
  - intros [[-> ->] | (neg & sgn & ds & v & -> & Hsgn & Hv & ->)]; [reflexivity |].
    app_norm. cbn [Float.exponent].
    pose proof (numeral_nonempty _ _ Hv) as Hne.
    pose proof (numeral_digits _ _ Hv) as Hds.
    assert (Hfirst : ~ first_is (fun a => a = "-"%char \/ a = "+"%char) ds).
    { destruct ds as [| a ds]; [congruence |]. cbn in *.
      destruct Hds as [Ha _]. unfold digit in Ha. intros [-> | ->].
      - change (Text.code "-") with 45%N in Ha. lia.
      - change (Text.code "+") with 43%N in Ha. lia. }
    rewrite (sign_of_signed neg sgn ds Hsgn Hfirst).
    rewrite <- (app_nil_r_str ds), (digits_of_numeral ds v Hv "" 0%nat).
    cbn [Float.digits]. destruct ds; [congruence | reflexivity].
Qed.

Lemma every_app (P : ascii -> Prop) a b :
  every P (a +:+ b) <-> every P a /\ every P b.
Proof.
  induction a as [| x a IH]; app_norm; cbn; [tauto |]. rewrite IH. tauto.
Qed.

Lemma digits_of_digits ds :
  every digit ds ->
  forall acc, exists v,
    forall rest n,
      Float.digits (ds +:+ rest) acc n
      = Float.digits rest v (n + String.length ds).
Proof.
  induction ds as [| a ds IH]; cbn [every].
  - intros _ acc. exists acc. intros rest n. app_norm. cbn. now rewrite Nat.add_0_r.
  - intros [Ha Hds] acc.
    destruct (IH Hds (10 * acc + Text.digit_value a)%N) as [v Hv].
    exists v. intros rest n. app_norm. cbn [Float.digits].
    apply isdigit_digit in Ha. rewrite Ha, Hv. cbn [String.length].
    f_equal. lia.
Qed.

Lemma after_point r1 i :
  match r1 with
  | String "." r => Float.digits r i O
  | _ => (i, O, r1)
  end
  = match r1 with
    | String a r => if Ascii.eqb a "." then Float.digits r i O else (i, O, r1)
    | EmptyString => (i, O, r1)
    end.
Proof. destruct r1 as [| [[] [] [] [] [] [] [] []] r]; reflexivity. Qed.

Lemma exponent_part_first ex e :
  exponent_part ex e ->
  ~ first_is digit ex /\ ~ first_is (fun a => a = "."%char) ex.
Proof.
  intros [[-> _] | (neg & sgn & ds & v & -> & _)]; app_norm; cbn; [tauto |].
  unfold digit. change (Text.code "e") with 101%N. split; [lia | discriminate].
Qed.

(** What [decimal] reads: digits and an exponent, or digits with a point
    before, within or after them and an exponent. *)
Lemma decimal_reads neg r f :
  Float.decimal neg r = Some f
  <-> (exists int ex m e,
         r = int +:+ ex /\ numeral int m /\ exponent_part ex e
         /\ f = FDec neg m e)
      \/ (exists int frac ex m e,
            r = int +:+ "." +:+ frac +:+ ex /\ numeral (int +:+ frac) m
            /\ exponent_part ex e
            /\ f = FDec neg m (e - Z.of_nat (String.length frac))).
Proof.
  unfold Float.decimal. split.
  - destruct (Float.digits r 0 0) as [[i ni] r1] eqn:E1.
    destruct (digits_reads r "" 0%N 0%nat i ni r1 (or_introl (conj eq_refl eq_refl)) E1)
      as (int & -> & -> & Hi & Hr1).
    app_norm. rewrite Nat.add_0_l, after_point. destruct r1 as [| a r1].
    + rewrite Nat.add_0_r. destruct (String.length int) eqn:El; [discriminate |].
      destruct (Float.exponent "") as [e |] eqn:Ee; [| discriminate].
      intros [= <-]. left. exists int, "", i, e.
      change (Z.of_nat 0) with 0. rewrite Z.sub_0_r.
      repeat split; [| apply exponent_reads, Ee].
      destruct Hi as [[-> _] | Hi]; [discriminate El | exact Hi].
    + destruct (Ascii.eqb_spec a ".") as [-> | Ha].
      * destruct (Float.digits r1 i 0) as [[m nf] r2] eqn:E2.
        destruct (digits_reads r1 int i 0%nat m nf r2 Hi E2)
          as (frac & -> & -> & Hm & Hr2).
        rewrite !Nat.add_0_l.
        destruct (String.length int + String.length frac)%nat eqn:El;
          [discriminate |].
        destruct (Float.exponent r2) as [e |] eqn:Ee; [| discriminate].
        intros [= <-]. right. exists int, frac, r2, m, e. app_norm.
        repeat split; [| apply exponent_reads, Ee].
        destruct Hm as [[Hnil _] | Hm]; [| exact Hm].
        apply (f_equal String.length) in Hnil. rewrite app_length_str in Hnil.
        cbn in Hnil. lia.
      * rewrite Nat.add_0_r. destruct (String.length int) eqn:El; [discriminate |].
        destruct (Float.exponent (String a r1)) as [e |] eqn:Ee; [| discriminate].
        intros [= <-]. left. exists int, (String a r1), i, e.
        change (Z.of_nat 0) with 0. rewrite Z.sub_0_r.
        repeat split; [| apply exponent_reads, Ee].
        destruct Hi as [[-> _] | Hi]; [discriminate El | exact Hi].
  - intros [(int & ex & m & e & -> & Hm & He & ->)
           | (int & frac & ex & m & e & -> & Hm & He & ->)].
    + destruct (exponent_part_first ex e He) as [Hd Hp].
      rewrite (digits_of_numeral int m Hm ex 0%nat), (digits_stops ex _ _ Hd).
      rewrite after_point.
      assert (Hnp : match ex with
                    | String a r => if Ascii.eqb a "." then Float.digits r m 0
                                    else (m, 0%nat, ex)
                    | EmptyString => (m, 0%nat, ex)
                    end = (m, 0%nat, ex)).
      { destruct ex as [| a ex]; [reflexivity |].
        destruct (Ascii.eqb_spec a ".") as [-> | _]; [| reflexivity].
        exfalso. apply Hp. reflexivity. }
      rewrite Hnp. apply exponent_reads in He. rewrite He.
      pose proof (numeral_nonempty _ _ Hm) as Hne.
      destruct int; [congruence |]. cbn [String.length Nat.add].
      change (Z.of_nat 0) with 0. rewrite Z.sub_0_r. reflexivity.
    + destruct (exponent_part_first ex e He) as [Hd Hp].
      pose proof (numeral_digits _ _ Hm) as Hds. apply every_app in Hds.
      destruct Hds as [Hint Hfrac].
      destruct (digits_of_digits int Hint 0%N) as [vi Hvi].
      destruct (digits_of_digits frac Hfrac vi) as [vm Hvm].
      assert (Em : vm = m).
      { pose proof (digits_of_numeral _ _ Hm ex 0%nat) as H1.
        rewrite app_assoc_str, Hvi, Hvm, !(digits_stops ex _ _ Hd) in H1.
        congruence. }
      subst vm. rewrite Hvi.
      rewrite (digits_stops (String "." (frac +:+ ex))) by
        (cbn; unfold digit; change (Text.code ".") with 46%N; lia).
      rewrite Hvm, (digits_stops ex _ _ Hd).
      apply exponent_reads in He. rewrite He.
      pose proof (numeral_nonempty _ _ Hm) as Hne.
      rewrite !Nat.add_0_l.
      destruct (String.length int + String.length frac)%nat eqn:El;
        [| reflexivity].
      exfalso. apply Hne.
      destruct int; [destruct frac; [reflexivity | discriminate El] | discriminate El].
Qed.

Lemma numeral_first ds v : numeral ds v -> first_is digit ds.
Proof.
  intros H. pose proof (numeral_nonempty _ _ H) as Hne.
  apply numeral_digits in H. destruct ds; [congruence |]. cbn in *. tauto.
Qed.

Lemma first_is_app (P : ascii -> Prop) a b : first_is P a -> first_is P (a +:+ b).
Proof. destruct a; [intros [] | app_norm; cbn; tauto]. Qed.

(** A text that begins with a digit or a point has no sign and is none
    of the three words. *)
Lemma begins_like_a_decimal r :
  first_is (fun a => digit a \/ a = "."%char) r ->
  ~ first_is (fun a => a = "-"%char \/ a = "+"%char) r
  /\ Text.str_eqb r "inf" || Text.str_eqb r "infinity" = false
  /\ Text.str_eqb r "nan" = false.
Proof.
  destruct r as [| a r]; [intros [] |]. cbn [first_is]. unfold digit. intros Ha.
  assert (H : a <> "-"%char /\ a <> "+"%char /\ a <> "i"%char /\ a <> "n"%char).
  { repeat split; intros ->; destruct Ha as [Ha | Ha]; try discriminate Ha;
      revert Ha; vm_compute; intros [H1 H2]; try (now apply H1); now apply H2. }
  destruct H as (H1 & H2 & H3 & H4).
  split; [intros [? | ?]; congruence |].
  unfold Text.str_eqb. cbn [String.eqb].
  destruct (Ascii.eqb_spec a "i"); [congruence |].
  destruct (Ascii.eqb_spec a "n"); [congruence |]. split; reflexivity.
Qed.

(** What [float()] reads, on the trimmed and case-folded text. *)
Lemma folded_reads t f :
  (let '(neg, r) := Float.sign t in
   if Text.str_eqb r "inf" || Text.str_eqb r "infinity" then Some (FInf neg)
   else if Text.str_eqb r "nan" then Some FNan
   else Float.decimal neg r) = Some f
  <-> spells_number t f.
Proof.
  split.
  - destruct (Float.sign t) as [neg r] eqn:Es.
    destruct (sign_reads _ _ _ Es) as (sgn & -> & Hsgn).
    destruct (Text.str_eqb r "inf" || Text.str_eqb r "infinity") eqn:Einf.
    { intros [= <-]. apply orb_true_iff in Einf.
      rewrite !str_eqb_eq in Einf.
      apply spells_infinity; [exact Hsgn |]. cbn.
      destruct Einf as [-> | ->]; auto. }
    destruct (Text.str_eqb r "nan") eqn:Enan.
    { intros [= <-]. apply str_eqb_eq in Enan. subst r.
      apply spells_nan with (neg := neg). exact Hsgn. }
    intros Hd. apply decimal_reads in Hd.
    destruct Hd as [(int & ex & m & e & -> & Hm & He & ->)
                   | (int & frac & ex & m & e & -> & Hm & He & ->)].
    + now apply spells_integer.
    + now apply spells_fraction.
  - intros H. destruct H as [neg sgn word Hsgn Hw | neg sgn Hsgn
                            | neg sgn int ex m e Hsgn Hm He
                            | neg sgn int frac ex m e Hsgn Hm He].
    + assert (Hfirst : ~ first_is (fun a => a = "-"%char \/ a = "+"%char) word).
      { destruct Hw as [<- | [<- | []]]; cbn; intros [? | ?]; discriminate. }
      rewrite (sign_of_signed neg sgn word Hsgn Hfirst).
      destruct Hw as [<- | [<- | []]]; reflexivity.
    + rewrite (sign_of_signed neg sgn "nan" Hsgn);
        [reflexivity | cbn; intros [? | ?]; discriminate].
    + assert (Hb : first_is (fun a => digit a \/ a = "."%char) (int +:+ ex)).
      { apply first_is_app. pose proof (numeral_first _ _ Hm) as Hf.
        destruct int; cbn in *; tauto. }
      destruct (begins_like_a_decimal _ Hb) as (Hfirst & Hinf & Hnan).
      rewrite (sign_of_signed neg sgn _ Hsgn Hfirst), Hinf, Hnan.
      apply decimal_reads. left. exists int, ex, m, e. tauto.
    + assert (Hb : first_is (fun a => digit a \/ a = "."%char)
                     (int +:+ "." +:+ frac +:+ ex)).
      { pose proof (numeral_digits _ _ Hm) as Hds. apply every_app in Hds.
        destruct int; app_norm; cbn in *; tauto. }
      destruct (begins_like_a_decimal _ Hb) as (Hfirst & Hinf & Hnan).
      rewrite (sign_of_signed neg sgn _ Hsgn Hfirst), Hinf, Hnan.
      apply decimal_reads. right. exists int, frac, ex, m, e. tauto.
Qed.

Lemma nonzero_not_zero f : Float.nonzero f = true <-> not_zero f.
Proof.
  destruct f as [| neg | neg m e]; cbn; [tauto | tauto |].
  unfold Float.rounds_to_zero.
  rewrite negb_true_iff, orb_false_iff, andb_false_iff, N.eqb_neq, Z.ltb_ge, Z.leb_gt.
  generalize (10 ^ (- e)) (2 ^ 1075). intros p q. tauto.
Qed.

(** ** Boolean coercion *)

Lemma spells_true_literal s :
  spells_true s <-> In (Text.lower (Text.strip s)) bool_literals.
Proof.
  unfold spells_true. split.
  - intros (core & t & Hc & Ht & Hin).
    apply strip_trimmed in Hc. apply lower_case_folded in Ht. subst. exact Hin.
  - intros Hin. exists (Text.strip s), (Text.lower (Text.strip s)).
    rewrite strip_trimmed, lower_case_folded. tauto.
Qed.

Lemma nonzero_number_of_string s :
  parses_as_nonzero_number s
  <-> exists f, Float.of_string s = Some f /\ Float.nonzero f = true.
Proof.
  unfold parses_as_nonzero_number, Float.of_string. split.
  - intros (core & t & f & Hc & Ht & Hf & Hz).
    apply strip_trimmed in Hc. apply lower_case_folded in Ht. subst.
    exists f. split; [apply folded_reads, Hf | apply nonzero_not_zero, Hz].
  - intros (f & Hf & Hz).
    exists (Text.strip s), (Text.lower (Text.strip s)), f.
    rewrite strip_trimmed, lower_case_folded.
    repeat split; [apply folded_reads, Hf | apply nonzero_not_zero, Hz].
Qed.

(** None of the four words is read as a number by [float()]. *)
Lemma literal_is_no_number (s : string) :
  In (Text.lower (Text.strip s)) bool_literals -> Float.of_string s = None.
Proof.
  unfold Float.of_string, bool_literals. simpl.
  intros [H | [H | [H | [H | []]]]]; rewrite <- H; reflexivity.
Qed.

Lemma as_bool_string_true (s : string) :
  as_bool (Val (VStr s)) = Ok true <->
  spells_true s \/ parses_as_nonzero_number s.
Proof.
  rewrite spells_true_literal, nonzero_number_of_string. unfold as_bool. split.
  - destruct (Float.of_string s) as [f|] eqn:Hf; intros H.
    + right. exists f. split; [reflexivity | congruence].
    + left. apply str_in_In. congruence.
  - intros [Hlit | [f [Hf Hnz]]].
    + rewrite (literal_is_no_number s Hlit). f_equal. now apply str_in_In.
    + rewrite Hf. now f_equal.
Qed.

Lemma as_bool_string_total (s : string) :
  as_bool (Val (VStr s)) = Ok true \/ as_bool (Val (VStr s)) = Ok false.
Proof.
  unfold as_bool. destruct (Float.of_string s) as [f|].
  - destruct (Float.nonzero f); auto.
  - destruct (str_in _ _); auto.
Qed.

Example as_bool_examples :
  List.map (fun s => as_bool (Val (VStr s))) ["Yes"; "TRUE"; "On"; "1"; "2.5"; " enabled "]
  = List.map Ok [true; true; true; true; true; true]
  /\ List.map (fun s => as_bool (Val (VStr s))) ["no"; ""; "0"; "maybe"; "0.0"; "1e-400"]
     = List.map Ok [false; false; false; false; false; false]
  /\ List.map as_bool [Val VNone; Val (VInt 2); Val (VList []); _use_default;
                       Opaque (Raise (TypeError "")); Opaque (Raise (IOError ""))]
     = [Ok false; Ok true; Ok false; Ok true; Ok false; Raise (IOError "")].
Proof. repeat split; vm_compute; reflexivity. Qed.

(** The words of the rule and the numbers of the examples, by the
    definitions that word the rule. *)
Example boolean_literal_rule_examples :
  spells_true " Yes " /\ spells_true "ENABLED"
  /\ parses_as_nonzero_number "2.5" /\ parses_as_nonzero_number " -1E3 "
  /\ ~ spells_true "maybe" /\ ~ parses_as_nonzero_number "maybe"
  /\ ~ parses_as_nonzero_number "0.0" /\ ~ parses_as_nonzero_number "".
Proof.
  assert (Hno : forall s, as_bool (Val (VStr s)) = Ok false ->
                          ~ spells_true s /\ ~ parses_as_nonzero_number s).
  { intros s Hs. split; intros H;
      assert (Ht : as_bool (Val (VStr s)) = Ok true)
        by (apply as_bool_string_true; tauto);
      congruence. }
  repeat split.
  - exists "Yes", "yes". split; [| split; [| cbn; tauto]].
    + apply strip_trimmed. reflexivity.
    + apply lower_case_folded. reflexivity.
  - apply spells_true_literal. vm_compute. tauto.
  - exists "2.5", "2.5", (FDec false 25 (0 - 1)). split; [| split; [| split]].
    + apply strip_trimmed. reflexivity.
    + apply lower_case_folded. reflexivity.
    + apply (spells_fraction false "" "2" "5" "" 25 0).
      * left. tauto.
      * apply (numeral_more "2" 2 "5"); [apply (numeral_digit "2") |];
          unfold digit; cbn; lia.
      * left. tauto.
    + cbn. split; [discriminate | right; reflexivity].
  - apply nonzero_number_of_string. exists (FDec true 1 3). split; reflexivity.
  - apply (Hno "maybe"). reflexivity.
  - apply (Hno "maybe"). reflexivity.
  - apply (Hno "0.0"). reflexivity.
  - apply (Hno ""). reflexivity.
Qed.

(** C4, as amended.  [getbool] is [as_bool] of the resolved value.  On
    a string, [as_bool] answers true exactly when the string, trimmed and
    case-folded, is one of yes, true, enabled, on, or when it is read as a
    number other than zero, and false on every other string: true on
    ["Yes"], ["TRUE"], ["On"], ["1"], ["2.5"], false on ["no"], [""],
    ["0"], ["maybe"].  On a value that is no string it answers the truth
    value of that value, false when taking the truth value raises
    [TypeError] or [ValueError], and with the exception when it raises
    anything else. *)
Theorem getbool_boolean_literal_rule :
  (forall registry config name key default,
     Section_getbool registry config name key default
     = (match fst (Section_get registry config name key default) with
        | Ok value => as_bool value
        | Raise e => Raise e
        end,
        snd (Section_get registry config name key default)))
  /\ (forall s,
        as_bool (Val (VStr s)) = Ok true <->
        spells_true s \/ parses_as_nonzero_number s)
  /\ (forall s,
        as_bool (Val (VStr s)) = Ok false <->
        ~ (spells_true s \/ parses_as_nonzero_number s))
  /\ List.map (fun s => as_bool (Val (VStr s)))
       ["Yes"; "TRUE"; "On"; "1"; "2.5"; " enabled "; "-1e3"; "inf"; "nan"; ".5"]
     = List.map Ok [true; true; true; true; true; true; true; true; true; true]
  /\ List.map (fun s => as_bool (Val (VStr s)))
       ["no"; ""; "0"; "maybe"; "0.0"; "-0"; "1e-400"; "yes please"; "o n"; "."]
     = List.map Ok [false; false; false; false; false; false; false; false; false; false]
  /\ (forall b, as_bool (Val (VBool b)) = Ok b)
  /\ (forall v, (forall s, v <> VStr s) -> as_bool (Val v) = Ok (truth v))
  /\ (forall b, as_bool (Opaque (Ok b)) = Ok b)
  /\ (forall msg, as_bool (Opaque (Raise (TypeError msg))) = Ok false)
  /\ (forall msg, as_bool (Opaque (Raise (ValueError msg))) = Ok false)
  /\ (forall e, (forall msg, e <> TypeError msg) -> (forall msg, e <> ValueError msg) ->
                as_bool (Opaque (Raise e)) = Raise e).
Proof.
  split; [| split; [| split; [| split; [| split; [| split; [| split; [| split;
    [| split; [| split]]]]]]]]].
  - intros registry config name key default. unfold Section_getbool.
    destruct (Section_get registry config name key default); reflexivity.
  - apply as_bool_string_true.
  - intros s. split.
    + intros Hf Ht. apply as_bool_string_true in Ht. congruence.
    + intros Hn. destruct (as_bool_string_total s) as [Ht | Hf]; [| assumption].
      exfalso. apply Hn. now apply as_bool_string_true.
  - vm_compute. reflexivity.
  - vm_compute. reflexivity.
  - reflexivity.
  - intros v Hv. destruct v; try reflexivity. now destruct (Hv s).
  - reflexivity.
  - reflexivity.
  - reflexivity.
  - intros e Ht Hv. destruct e; try reflexivity; [destruct (Ht msg) | destruct (Hv msg)];
      reflexivity.
Qed.

(** C4 as stated fails: a default that is no string and whose truth test
    raises something other than [TypeError] or [ValueError] is not coerced
    to false; [getbool] raises. *)
Lemma failing_truth_test_is_raised :
  fst (Section_getbool ∅ list_config "x" "missing" (Opaque (Raise (IOError "disk"))))
  = Raise (IOError "disk").
Proof. vm_compute. reflexivity. Qed.

(** ** Lists *)

(** C9. When the value resolved for a key is the empty string, however
    it was resolved, [Section.getlist] returns the empty list, whatever
    the separator and whatever [keep_empty]. *)
Theorem getlist_of_empty_value
    (registry : Registry) (config config' : Configuration) (name key : string)
    (default : option PyObj) (sep : option string) (keep_empty : option bool) :
  Section_get registry config name key (arg default (Val (VStr "")))
  = (Ok (Val (VStr "")), config') ->
  Section_getlist registry config name key default sep keep_empty
  = (Ok [], config').
Proof.
  intros Hget. unfold Section_getlist. rewrite Hget. reflexivity.
Qed.

Lemma getlist_of_empty_value_witness :
  Section_getlist ∅ list_config "x" "empty" None (Some ";") (Some true)
  = (Ok [], snd (Section_get ∅ list_config "x" "empty" (Val (VStr "")))).
Proof.
  apply (getlist_of_empty_value ∅ list_config).
  apply injective_projections; [vm_compute; reflexivity | reflexivity].
Defined.

Example getlist_of_empty_default :
  fst (Section_getlist ∅ list_config "x" "missing" (Some (Val (VStr ""))) None None)
  = Ok [].
Proof. vm_compute. reflexivity. Qed.

Example getlist_splits_and_trims :
  fst (Section_getlist ∅ list_config "x" "a" None None (Some true))
  = Ok ["a"; "b"; ""; "c"]
  /\ fst (Section_getlist ∅ list_config "x" "a" None None (Some false))
     = Ok ["a"; "b"; "c"].
Proof. split; vm_compute; reflexivity. Qed.

(** C10. With [keep_empty] left out, [Configuration.getlist] behaves as
    [Section.getlist] with [keep_empty=False] and [Section.getlist] as with
    [keep_empty=True]; on the value ["a, b,,c"] the two calls return
    different lists. *)
Theorem getlist_keep_empty_defaults_differ :
  (forall registry config section key default sep,
     Configuration_getlist registry config section key default sep None
     = Section_getlist registry config section key default sep (Some false))
  /\ (forall registry config section key default sep,
        Section_getlist registry config section key default sep None
        = Section_getlist registry config section key default sep (Some true))
  /\ fst (Configuration_getlist ∅ list_config "x" "a" None None None)
     = Ok ["a"; "b"; "c"]
  /\ fst (Section_getlist ∅ list_config "x" "a" None None None)
     = Ok ["a"; "b"; ""; "c"]
  /\ fst (Configuration_getlist ∅ list_config "x" "a" None None None)
     <> fst (Section_getlist ∅ list_config "x" "a" None None None).
Proof.
  split; [| split; [| split; [| split]]].
  - intros. unfold Configuration_getlist, Section_getlist, arg.
    destruct default, sep; reflexivity.
  - reflexivity.
  - vm_compute. reflexivity.
  - vm_compute. reflexivity.
  - vm_compute. discriminate.
Qed.

(** ** Removing an option *)

(** [Configuration.remove] always raises [AttributeError]; what the parser
    holds is untouched. *)
Lemma remove_raises (config : Configuration) (section key : string) :
  (exists msg, fst (Configuration_remove config section key) = Raise (AttributeError msg))
  /\ parser (snd (Configuration_remove config section key)) = parser config
  /\ parents (snd (Configuration_remove config section key)) = parents config.
Proof.
  unfold Configuration_remove, Configuration_getitem. simpl.
  split; [eauto |].
  destruct config as [fn held old ps lm secs cc]. auto.
Qed.

(** C2, at the example of the specification: the child sets [a = 1]
    in section [x], its parent [a = 2].  Removing [a] from the child raises
    and deletes nothing: the next [get] still answers ["1"], where the
    claim has it fall through to the parent's ["2"]. *)
Example remove_deletes_nothing :
  fst (Configuration_get ∅ overriding_child "x" "a" (Val (VStr ""))) = Ok (Val (VStr "1"))
  /\ is_Raise (fst (Configuration_remove overriding_child "x" "a")) = true
  /\ fst (Configuration_get ∅ (snd (Configuration_remove overriding_child "x" "a"))
            "x" "a" (Val (VStr "")))
     = Ok (Val (VStr "1"))
  /\ explicit_value (List.hd overriding_child (parents overriding_child)) "x" "a"
     = Some (Ok "2").
Proof. repeat split; vm_compute; reflexivity. Qed.

(** ** Stale caches after a parent changed *)

(** C1, at a failing input.  The child inherits [a = 1] from its parent
    and has served it once.  The parent file is then rewritten to [a = 2].
    [parse_if_needed] on the child returns true (the parent was reparsed),
    yet the next [get] serves the cached ["1"], where a resolution without
    caches yields ["2"]. *)
Example stale_value_after_parent_reparse :
  fst (parse_if_needed fs_inherit false child_created) = Ok true
  /\ fst (Configuration_get ∅ child_parsed "x" "a" (Val (VStr ""))) = Ok (Val (VStr "1"))
  /\ fst (parse_if_needed fs_parent_rewritten false child_read) = Ok true
  /\ fst (Configuration_get ∅ child_reparsed "x" "a" (Val (VStr ""))) = Ok (Val (VStr "1"))
  /\ resolve ∅ child_reparsed "x" "a" (Val (VStr "")) = Ok (Val (VStr "2"))
  /\ fst (Configuration_get ∅ (drop_caches child_reparsed) "x" "a" (Val (VStr "")))
     = Ok (Val (VStr "2"))
  /\ cached child_reparsed "x" "a" = Some (VStr "1")
  /\ config_cache child_reparsed = Some ∅.
Proof. repeat split; vm_compute; reflexivity. Qed.

(** ** Induction over a configuration and its parents *)

Lemma Configuration_nested_ind (P : Configuration -> Prop) :
  (forall fn held old ps lm secs cc,
     Forall P ps -> P (mkConfiguration fn held old ps lm secs cc)) ->
  forall config, P config.
Proof.
  intros step.
  fix IH 1. intros [fn held old ps lm secs cc]. apply step.
  induction ps as [| p ps IHps]; constructor; [apply IH | exact IHps].
Qed.

(** ** Unfolding lemmas *)

Lemma parse_if_needed_eq fs force fn held old ps lm secs cc :
  parse_if_needed fs force (mkConfiguration fn held old ps lm secs cc)
  = if Text.str_eqb fn "" || negb (os_path.isfile fs fn)
    then (Ok false, mkConfiguration fn held old ps lm secs cc)
    else
      match os_path.getmtime fs fn with
      | Raise e => (Raise e, mkConfiguration fn held old ps lm secs cc)
      | Ok modtime =>
          if force || (lm <? modtime) then
            match ConfigParser.read fs fn with
            | (Raise e, held') =>
                (Raise e, mkConfiguration fn held' old ps lm ∅ cc)
            | (Ok [], held') =>
                (Raise (read_failure fn), mkConfiguration fn held' old ps lm ∅ cc)
            | (Ok (_ :: _), held') =>
                match ConfigParser.get held' "inherit" "file" with
                | Some (Raise e) =>
                    (Raise e, mkConfiguration fn held' held' [] modtime ∅ cc)
                | _ =>
                    match build_parents fs fn
                            (match ConfigParser.get held' "inherit" "file" with
                             | Some (Ok value) => Text.split_go "," value O EmptyString
                             | _ => []
                             end) with
                    | (Raise e, built) =>
                        (Raise e, mkConfiguration fn held' held' built modtime ∅ cc)
                    | (Ok _, built) =>
                        (Ok true,
                         mkConfiguration fn held' held' built modtime ∅ (Some ∅))
                    end
                end
            end
          else
            match visit_parents fs force ps false with
            | (Ok true, ps') =>
                (Ok true, mkConfiguration fn held old ps' lm secs (Some ∅))
            | (Ok false, ps') =>
                (Ok false, mkConfiguration fn held old ps' lm secs cc)
            | (Raise e, ps') =>
                (Raise e, mkConfiguration fn held old ps' lm secs cc)
            end
      end.
Proof.
  assert (Hloop : forall l changed,
            (fix loop (l : list Configuration) (changed : bool)
               : outcome bool * list Configuration :=
               match l with
               | [] => (Ok changed, [])
               | parent :: rest =>
                   match parse_if_needed fs force parent with
                   | (Ok b, parent') =>
                       let '(r, rest') := loop rest (changed || b) in
                       (r, parent' :: rest')
                   | (Raise e, parent') => (Raise e, parent' :: rest)
                   end
               end) l changed = visit_parents fs force l changed).
  { induction l as [| p l IHl]; intros changed; [reflexivity |].
    cbn [visit_parents]. destruct (parse_if_needed fs force p) as [[b | e] p'];
      [rewrite IHl |]; reflexivity. }
  cbn [parse_if_needed]. rewrite Hloop.
  destruct (Text.str_eqb fn "" || negb (os_path.isfile fs fn)); [reflexivity |].
  destruct (os_path.getmtime fs fn) as [modtime | e]; [| reflexivity].
  destruct (force || (lm <? modtime)).
  - destruct (ConfigParser.read fs fn) as [[[| ? ?] | e] held']; try reflexivity.
    destruct (ConfigParser.get held' "inherit" "file") as [[value | e] |]; reflexivity.
  - destruct (visit_parents fs force ps false) as [[[|] | e] ps']; reflexivity.
Qed.

(** ** Reparsing: when it happens and what it returns *)

Lemma isfile_true fs path : os_path.isfile fs path = true <-> exists f, fs !! path = Some f.
Proof.
  unfold os_path.isfile. destruct (fs !! path) as [f |]; split; eauto.
  - discriminate.
  - intros [f Hf]. discriminate.
Qed.


Lemma not_skipped fs fn f :
  fn <> "" -> fs !! fn = Some f ->
  Text.str_eqb fn "" || negb (os_path.isfile fs fn) = false
  /\ os_path.getmtime fs fn = Ok (mtime f).
Proof.
  intros Hfn Hf. unfold os_path.isfile, os_path.getmtime. rewrite Hf. split; [| reflexivity].
  destruct (Text.str_eqb fn "") eqn:E; [| reflexivity].
  apply str_eqb_eq in E. contradiction.
Qed.


(** The cases of a reparse that is due, for the proofs below. *)
Ltac reparse_cases fs fn held' :=
  destruct (ConfigParser.read fs fn) as [[[| ? ?] | ?] held']; try discriminate;
  destruct (ConfigParser.get held' "inherit" "file") as [[? | ?] |];
  try discriminate;
  destruct (build_parents _ _ _) as [[? | ?] ?]; try discriminate.


(** A call that returns false changes nothing. *)
Lemma visit_parents_false fs force ps :
  Forall (fun p => forall p', parse_if_needed fs force p = (Ok false, p') -> p' = p) ps ->
  forall b0 ps', visit_parents fs force ps b0 = (Ok false, ps') ->
                 b0 = false /\ ps' = ps.
Proof.
  induction 1 as [| p ps Hp _ IH]; intros b0 ps' Hv; cbn [visit_parents] in *.
  - inversion Hv. auto.
  - destruct (parse_if_needed fs force p) as [[b | e] p'] eqn:Ep; [| discriminate].
    destruct (visit_parents fs force ps (b0 || b)) as [r0 rest'] eqn:Ev.
    inversion Hv; subst. destruct (IH _ _ Ev) as [Hb ->].
    apply orb_false_elim in Hb as [-> ->]. now rewrite (Hp _ eq_refl).
Qed.

Lemma parse_false_changes_nothing fs force config :
  forall config', parse_if_needed fs force config = (Ok false, config') ->
                  config' = config.
Proof.
  induction config as [fn held old ps lm secs cc IH] using Configuration_nested_ind.
  intros config'. rewrite parse_if_needed_eq.
  destruct (Text.str_eqb fn "" || negb (os_path.isfile fs fn)); [now inversion 1 |].
  destruct (os_path.getmtime fs fn) as [modtime | e]; [| discriminate].
  destruct (force || (lm <? modtime)).
  - reparse_cases fs fn held'.
  - destruct (visit_parents fs force ps false) as [[[|] | e] ps'] eqn:Ev; try discriminate.
    destruct (visit_parents_false fs force ps IH _ _ Ev) as [_ ->]. now inversion 1.
Qed.

(** No reparse pending: the call returns false and changes nothing. *)
Lemma visit_parents_up_to_date fs ps :
  Forall (fun p => parse_if_needed fs false p = (Ok false, p)) ps ->
  visit_parents fs false ps false = (Ok false, ps).
Proof.
  induction 1 as [| p ps Hp _ IH]; cbn [visit_parents]; [reflexivity |].
  rewrite Hp. cbn [orb]. now rewrite IH.
Qed.

Lemma up_to_date_noop fs config :
  up_to_date fs config = true ->
  parse_if_needed fs false config = (Ok false, config).
Proof.
  induction config as [fn held old ps lm secs cc IH] using Configuration_nested_ind.
  cbn [up_to_date]. rewrite parse_if_needed_eq.
  unfold os_path.isfile, os_path.getmtime.
  destruct (fs !! fn) as [f |]; cbn [negb]; [| now rewrite orb_true_r].
  rewrite orb_false_r.
  destruct (Text.str_eqb fn ""); cbn [orb]; [reflexivity |].
  intros [Hm Hps]%andb_prop.
  apply Z.leb_le in Hm. replace (lm <? mtime f) with false by (symmetry; apply Z.ltb_ge; lia).
  rewrite visit_parents_up_to_date; [reflexivity |].
  rewrite Forall_forall in IH |- *. intros p Hin. apply IH; [assumption |].
  rewrite forallb_forall in Hps. apply Hps. now apply list_elem_of_In.
Qed.

Lemma parse_brings_up_to_date fs config b1 config1 :
  parse_if_needed fs false config = (Ok b1, config1) ->
  forallb (up_to_date fs) (parents config1) = true ->
  up_to_date fs config1 = true.
Proof.
  destruct config as [fn held old ps lm secs cc]. rewrite parse_if_needed_eq.
  unfold os_path.isfile, os_path.getmtime.
  destruct (fs !! fn) as [f |] eqn:Ef; cbn [negb].
  2:{ rewrite orb_true_r. inversion 1. cbn [up_to_date]. now rewrite Ef. }
  rewrite orb_false_r.
  destruct (Text.str_eqb fn "") eqn:Efn.
  { inversion 1. cbn [up_to_date]. now rewrite Ef, Efn. }
  cbn [orb]. destruct (lm <? mtime f) eqn:Edue.
  - reparse_cases fs fn held';
      inversion 1; cbn [parents up_to_date]; intros ->;
      rewrite Ef, Efn, Z.leb_refl; reflexivity.
  - destruct (visit_parents fs false ps false) as [[[|] | e] ps']; try discriminate;
      inversion 1; cbn [parents up_to_date]; intros ->;
      rewrite Ef, Efn; apply Z.ltb_ge in Edue; apply Z.leb_le in Edue;
      now rewrite Edue.
Qed.

(** C8, as amended.  Two calls of [parse_if_needed(force=False)] in a
    row, nothing modified in between: when the parents the first call
    leaves behind are up to date (there are none, or each one's file is
    missing or no newer than its recorded time, and so on upwards), the
    second call returns false and leaves the configuration, every cached
    value included, as the first call left it; and a first call that
    returned false had itself changed nothing. *)
Theorem reparse_twice_when_parents_up_to_date
    (fs : filesystem) (config config1 : Configuration) (b1 : bool) :
  parse_if_needed fs false config = (Ok b1, config1) ->
  forallb (up_to_date fs) (parents config1) = true ->
  parse_if_needed fs false config1 = (Ok false, config1)
  /\ (forall name key,
        cached (snd (parse_if_needed fs false config1)) name key
        = cached config1 name key)
  /\ (b1 = false -> config1 = config).
Proof.
  intros Hfirst Hparents.
  assert (Hsecond : parse_if_needed fs false config1 = (Ok false, config1)).
  { apply up_to_date_noop. exact (parse_brings_up_to_date _ _ _ _ Hfirst Hparents). }
  split; [exact Hsecond | split].
  - intros name key. now rewrite Hsecond.
  - intros ->. exact (parse_false_changes_nothing _ _ _ _ Hfirst).
Qed.

(** The child of the example after its second call: its parent has been
    reparsed and is up to date, so a third call changes nothing. *)
Lemma reparse_twice_when_parents_up_to_date_witness :
  parse_if_needed fs_inherit false
    (snd (parse_if_needed fs_inherit false child_parsed))
  = (Ok false, snd (parse_if_needed fs_inherit false child_parsed))
  /\ (forall name key,
        cached (snd (parse_if_needed fs_inherit false
                       (snd (parse_if_needed fs_inherit false child_parsed)))) name key
        = cached (snd (parse_if_needed fs_inherit false child_parsed)) name key)
  /\ (true = false -> snd (parse_if_needed fs_inherit false child_parsed) = child_parsed).
Proof.
  apply (reparse_twice_when_parents_up_to_date fs_inherit child_parsed _ true).
  - apply injective_projections; [vm_compute; reflexivity | reflexivity].
  - vm_compute. reflexivity.
Defined.

(** C8 as stated fails: the first call on a child that names a parent
    builds the parent with recorded time 0, so the second call, nothing
    having been modified, reparses the parent and returns true. *)
Lemma second_call_reports_a_change :
  fst (parse_if_needed fs_inherit false child_created) = Ok true
  /\ child_parsed = snd (parse_if_needed fs_inherit false child_created)
  /\ fst (parse_if_needed fs_inherit false child_parsed) = Ok true.
Proof. repeat split; vm_compute; reflexivity. Qed.

(** ** Reparsing: failures *)

Lemma parses_and_inherits_parsed c :
  parses_and_inherits c = true -> is_parsed c = true.
Proof. destruct c; [discriminate | discriminate | reflexivity]. Qed.







Example parse_if_needed_failures_examples :
  parse_if_needed ∅ true parsed_before_lock = (Ok false, parsed_before_lock)
  /\ is_Raise (fst (parse_if_needed fs_locked true parsed_before_lock)) = true
  /\ is_Raise (fst (parse_if_needed fs_inherit true child_created)) = false
  /\ fst (parse_if_needed fs_bad_reference false bad_reference)
     = Raise (InterpolationError "nope").
Proof. repeat split; vm_compute; reflexivity. Qed.


(** ** The [inherit.file] list *)

Lemma rev_app_spec s : forall t, String.rev_app s t = String.rev s +:+ t.
Proof.
  unfold String.rev. induction s as [| a s IH]; intros t; cbn [String.rev_app].
  - reflexivity.
  - rewrite (IH (String a t)), (IH (String a "")), app_assoc_str. reflexivity.
Qed.

Lemma rev_cons a s : String.rev (String a s) = String.rev s +:+ String a "".
Proof. unfold String.rev at 1. cbn [String.rev_app]. apply rev_app_spec. Qed.

Lemma rev_app_app x : forall y t,
  String.rev_app (x +:+ y) t = String.rev_app y (String.rev_app x t).
Proof.
  induction x as [| a x IH]; intros y t; app_norm; cbn [String.rev_app];
    [reflexivity | apply IH].
Qed.

Lemma rev_involutive s : String.rev (String.rev s) = s.
Proof.
  induction s as [| a s IH]; [reflexivity |].
  rewrite rev_cons. unfold String.rev at 1. rewrite rev_app_app.
  cbn [String.rev_app]. f_equal. exact IH.
Qed.

Lemma occurs_app c a b : occurs c (a +:+ b) = occurs c a || occurs c b.
Proof.
  induction a as [| x a IH]; app_norm; cbn [occurs]; [reflexivity |].
  rewrite IH. apply orb_assoc.
Qed.

Lemma occurs_rev c s : occurs c (String.rev s) = occurs c s.
Proof.
  induction s as [| a s IH]; [reflexivity |].
  rewrite rev_cons, occurs_app, IH. cbn [occurs].
  rewrite orb_false_r. apply orb_comm.
Qed.

Lemma startswith_comma a s :
  Text.startswith "," (String a s) = Ascii.eqb a ",".
Proof.
  cbn [Text.startswith]. rewrite (Ascii.eqb_sym "," a).
  destruct (Ascii.eqb a ","); reflexivity.
Qed.

Lemma concat_cons sep x y l :
  String.concat sep (x :: y :: l) = x +:+ sep +:+ String.concat sep (y :: l).
Proof. reflexivity. Qed.

(** What [split(',')] yields is a comma-separated reading of its input
    (on top of the element under way). *)
Lemma split_go_comma s :
  forall cur,
    occurs "," cur = false ->
    Text.split_go "," s O cur <> []
    /\ String.concat "," (Text.split_go "," s O cur) = String.rev cur +:+ s
    /\ Forall (fun element => occurs "," element = false) (Text.split_go "," s O cur).
Proof.
  induction s as [| a s IH]; intros cur Hcur.
  - cbn [Text.split_go]. rewrite app_nil_r_str. repeat split; [discriminate |].
    constructor; [| constructor]. now rewrite occurs_rev.
  - cbn [Text.split_go]. rewrite startswith_comma.
    destruct (Ascii.eqb_spec a ",") as [-> | Ha].
    + cbn [String.length Nat.sub].
      destruct (IH "" eq_refl) as (Hne & Hcat & Hall).
      repeat split; [discriminate | |].
      * destruct (Text.split_go "," s 0 "") as [| y l] eqn:E; [congruence |].
        rewrite concat_cons, Hcat. reflexivity.
      * constructor; [now rewrite occurs_rev | exact Hall].
    + assert (Hcur' : occurs "," (String a cur) = false).
      { cbn [occurs]. rewrite Hcur.
        destruct (Ascii.eqb_spec a ","); [contradiction | reflexivity]. }
      destruct (IH _ Hcur') as (Hne & Hcat & Hall).
      repeat split; [exact Hne | | exact Hall].
      rewrite Hcat, rev_cons, app_assoc_str. reflexivity.
Qed.

Lemma split_go_element e : forall rest cur,
  occurs "," e = false ->
  Text.split_go "," (e +:+ rest) O cur
  = Text.split_go "," rest O (String.rev_app e cur).
Proof.
  induction e as [| a e IH]; intros rest cur; [reflexivity |].
  cbn [occurs]. intros [Ha He]%orb_false_elim. app_norm.
  cbn [Text.split_go String.rev_app]. rewrite startswith_comma, Ha. apply IH, He.
Qed.

(** The elements of a comma-separated list are what [split(',')] yields. *)
Lemma comma_separated_split value elements :
  comma_separated value elements
  <-> elements = Text.split_go "," value O EmptyString.
Proof.
  split.
  - intros (Hne & <- & Hall). revert Hne.
    induction Hall as [| e l He Hl IH]; [congruence |]. intros _.
    destruct l as [| y l].
    + cbn [String.concat]. rewrite <- (app_nil_r_str e) at 2.
      rewrite (split_go_element e "" "" He). cbn [Text.split_go].
      fold (String.rev e). now rewrite rev_involutive.
    + rewrite concat_cons, (split_go_element e _ "" He).
      app_norm. cbn [Text.split_go]. rewrite startswith_comma, Ascii.eqb_refl.
      cbn [String.length Nat.sub]. fold (String.rev e).
      rewrite rev_involutive. f_equal. apply IH. discriminate.
  - intros ->. destruct (split_go_comma value "" eq_refl) as (Hne & Hcat & Hall).
    repeat split; assumption.
Qed.

(** The file an element names is the one the loop constructs a parent
    for. *)
Lemma names_file_inherit_path fn element path :
  names_file fn element path <-> path = inherit_path fn element.
Proof.
  unfold names_file, inherit_path, to_unicode. split.
  - intros (core & Hc & H). apply strip_str_trimmed in Hc. subst core.
    destruct H as [[-> ->] | [-> ->]]; reflexivity.
  - intros ->. exists (Text.strip_str element). split; [now apply strip_str_trimmed |].
    destruct (os_path.isabs (Text.strip_str element)); tauto.
Qed.

Lemma names_parents_inherit_paths fn value paths :
  names_parents fn value paths
  <-> paths = List.map (inherit_path fn) (Text.split_go "," value O EmptyString).
Proof.
  unfold names_parents. split.
  - intros (elements & Hc & H). apply comma_separated_split in Hc. subst elements.
    induction H as [| e p es ps Hep _ IH]; [reflexivity |].
    apply names_file_inherit_path in Hep. cbn [List.map]. congruence.
  - intros ->. exists (Text.split_go "," value 0 "").
    split; [now apply comma_separated_split |].
    induction (Text.split_go "," value 0 "") as [| e es IH]; constructor;
      [now apply names_file_inherit_path | exact IH].
Qed.

(** ** Reparsing: the rule *)





(** The files that a value names: elements are trimmed of the white space
    of a byte string (a no-break space, byte 160, stays), a relative name
    is joined to the directory of the inheriting file, and an empty
    element names that directory. *)
Example parents_rebuilt_from_inherit_file :
  List.map filename (parents child_parsed) = ["/etc/parent.ini"]
  /\ names_parents "/etc/child.ini" " a.ini ,/opt/b.ini,sub/c.ini"
       ["/etc/a.ini"; "/opt/b.ini"; "/etc/sub/c.ini"]
  /\ names_parents "/etc/child.ini" (String (ascii_of_N 160) "a.ini,")
       ["/etc/" +:+ String (ascii_of_N 160) "a.ini"; "/etc/"]
  /\ ~ names_parents "/etc/child.ini" "a.ini,b.ini" ["/etc/b.ini"; "/etc/a.ini"].
Proof.
  repeat split; try (apply names_parents_inherit_paths; vm_compute; reflexivity).
  intros H. apply names_parents_inherit_paths in H. vm_compute in H. discriminate.
Qed.

Example unchanged_child_visits_parent :
  fst (parse_if_needed fs_parent_rewritten false child_read) = Ok true
  /\ parser child_reparsed = parser child_read
  /\ _lastmtime child_reparsed = _lastmtime child_read
  /\ List.map _lastmtime (parents child_read) = [0]
  /\ List.map _lastmtime (parents child_reparsed) = [2].
Proof. repeat split; vm_compute; reflexivity. Qed.

(** ** Resolution order and cache coherence *)

Lemma Configuration_get_eq registry fn held old ps lm secs0 cc name key default :
  Configuration_get registry (mkConfiguration fn held old ps lm secs0 cc)
    name key default
  = match section_cache (ensure_proxy secs0 name) name !! key with
    | Some cached_value =>
        (Ok (Val cached_value),
         mkConfiguration fn held old ps lm (ensure_proxy secs0 name) cc)
    | None =>
        let '(value, ps') :=
          match ConfigParser.get held name key with
          | Some got => (got_value got, ps)
          | None => ask_parents registry name key default ps
          end in
        match value with
        | Raise e =>
            (Raise e, mkConfiguration fn held old ps' lm (ensure_proxy secs0 name) cc)
        | Ok _use_default =>
            (Ok default, mkConfiguration fn held old ps' lm (ensure_proxy secs0 name) cc)
        | Ok (Val v) =>
            (Ok (Val (normalise v)),
             mkConfiguration fn held old ps' lm
               (cache_store (ensure_proxy secs0 name) name key (normalise v)) cc)
        | Ok (Opaque t) =>
            (Ok (Opaque t),
             mkConfiguration fn held old ps' lm (ensure_proxy secs0 name) cc)
        end
    end.
Proof.
  assert (Hloop : forall l,
            (fix loop (l : list Configuration)
               : outcome PyObj * list Configuration :=
               match l with
               | [] => (Ok (registry_default registry name key default), [])
               | parent :: rest =>
                   let '(v, parent') :=
                     Configuration_get registry parent name key _use_default in
                   match v with
                   | Ok _use_default =>
                       let '(v', rest') := loop rest in (v', parent' :: rest')
                   | _ => (v, parent' :: rest)
                   end
               end) l = ask_parents registry name key default l).
  { induction l as [| p l IHl]; [reflexivity |]. cbn [ask_parents].
    destruct (Configuration_get registry p name key _use_default)
      as [[[v | | t] | e] p'];
      [reflexivity | rewrite IHl; reflexivity | reflexivity | reflexivity]. }
  cbn [Configuration_get]. rewrite Hloop. reflexivity.
Qed.

Lemma explicit_value_eq fn held old ps lm secs cc name key :
  explicit_value (mkConfiguration fn held old ps lm secs cc) name key
  = match ConfigParser.get held name key with
    | Some got => Some got
    | None => first_explicit ps name key
    end.
Proof.
  cbn [explicit_value]. destruct (ConfigParser.get held name key); [reflexivity |].
  induction ps as [| p ps IH]; [reflexivity |]. cbn [first_explicit].
  destruct (explicit_value p name key); [reflexivity | exact IH].
Qed.

Lemma coherent_parent_eq fn held old ps lm secs cc :
  coherent_parent (mkConfiguration fn held old ps lm secs cc)
  <-> (forall name key v, section_cache secs name !! key = Some v ->
         exists raw, v = VStr raw
                     /\ explicit_value (mkConfiguration fn held old ps lm secs cc)
                          name key = Some (Ok raw))
      /\ Forall coherent_parent ps.
Proof.
  cbn [coherent_parent].
  assert (Hall : (fix all (l : list Configuration) : Prop :=
                    match l with
                    | [] => True
                    | parent :: rest => coherent_parent parent /\ all rest
                    end) ps <-> Forall coherent_parent ps).
  { induction ps as [| p ps IH]; split; intros H.
    - constructor.
    - exact I.
    - destruct H as [Hp Hps]. constructor; [exact Hp | now apply IH].
    - inversion H; subst. split; [assumption | now apply IH]. }
  rewrite Hall. reflexivity.
Qed.

Lemma section_cache_ensure secs name n :
  section_cache (ensure_proxy secs name) n = section_cache secs n.
Proof.
  unfold ensure_proxy. destruct (secs !! name) eqn:E; [reflexivity |].
  unfold section_cache. destruct (decide (name = n)) as [-> | Hne].
  - now rewrite lookup_insert_eq, E.
  - now rewrite lookup_insert_ne.
Qed.

Lemma cache_store_lookup secs name key v n k :
  section_cache (cache_store secs name key v) n !! k
  = if decide (n = name /\ k = key) then Some v else section_cache secs n !! k.
Proof.
  unfold cache_store, section_cache.
  destruct (decide (n = name)) as [-> | Hn].
  - destruct (secs !! name) as [sec |] eqn:E; rewrite lookup_insert_eq; cbn [_cache].
    + destruct (decide (k = key)) as [-> | Hk].
      * rewrite lookup_insert_eq. now rewrite decide_True.
      * rewrite lookup_insert_ne by congruence. rewrite decide_False by tauto. reflexivity.
    + destruct (decide (k = key)) as [-> | Hk].
      * rewrite lookup_singleton_eq. now rewrite decide_True.
      * rewrite lookup_singleton_ne by congruence. rewrite decide_False by tauto.
        now rewrite lookup_empty.
  - rewrite decide_False by tauto.
    destruct (secs !! name); now rewrite lookup_insert_ne by congruence.
Qed.

Lemma normalise_string raw : normalise (VStr raw) = VStr raw.
Proof.
  unfold normalise, truth, to_unicode.
  destruct (Text.str_eqb raw "") eqn:E; [| reflexivity].
  apply str_eqb_eq in E. now subst.
Qed.

Lemma registry_default_cases registry name key default :
  registry_default registry name key default = _use_default
  \/ exists opt, registry !! (name, key) = Some opt
                 /\ registry_default registry name key default
                    = Val (option_default opt).
Proof.
  unfold registry_default.
  destruct default; destruct (registry !! (name, key)) as [opt |]; eauto.
Qed.

Lemma registry_default_sentinel registry name key :
  registry_default registry name key _use_default = _use_default.
Proof. reflexivity. Qed.

(** The loop over coherent parents finds the first explicit value. *)
Lemma ask_parents_spec registry name key default ps :
  Forall (answers_as_parent registry) ps ->
  Forall coherent_parent ps ->
  exists ps',
    ask_parents registry name key default ps
    = (match first_explicit ps name key with
       | Some (Ok text) => Ok (Val (VStr text))
       | Some (Raise e) => Raise e
       | None => Ok (registry_default registry name key default)
       end, ps')
    /\ Forall coherent_parent ps'
    /\ forall n k, first_explicit ps' n k = first_explicit ps n k.
Proof.
  induction 1 as [| p ps Hp _ IH]; intros Hco; cbn [ask_parents first_explicit].
  - exists []. repeat split. constructor.
  - inversion Hco as [| ? ? Hcp Hcps]; subst.
    destruct (Hp name key Hcp) as [p' [Hget [Hcp' Hex]]]. rewrite Hget.
    unfold parent_answer.
    destruct (explicit_value p name key) as [[raw | e] |] eqn:Ep.
    + exists (p' :: ps). split; [reflexivity | split].
      * constructor; assumption.
      * intros n k. cbn [first_explicit]. now rewrite Hex.
    + exists (p' :: ps). split; [reflexivity | split].
      * constructor; assumption.
      * intros n k. cbn [first_explicit]. now rewrite Hex.
    + destruct (IH Hcps) as [ps' [Hask [Hcps' Hfirst]]]. rewrite Hask.
      exists (p' :: ps'). split; [reflexivity | split].
      * constructor; assumption.
      * intros n k. cbn [first_explicit]. now rewrite Hex, Hfirst.
Qed.

Lemma explicit_value_frame fn held old ps ps' lm lm' secs secs' cc cc' old' :
  (forall n k, first_explicit ps' n k = first_explicit ps n k) ->
  forall n k,
    explicit_value (mkConfiguration fn held old' ps' lm' secs' cc') n k
    = explicit_value (mkConfiguration fn held old ps lm secs cc) n k.
Proof. intros H n k. rewrite !explicit_value_eq. now rewrite H. Qed.

(** One call on a configuration whose parents are coherent. *)
Lemma get_node registry fn held old ps lm secs cc name key default :
  Forall (answers_as_parent registry) ps ->
  Forall coherent_parent ps ->
  exists ps',
    Forall coherent_parent ps'
    /\ (forall n k, first_explicit ps' n k = first_explicit ps n k)
    /\ Configuration_get registry (mkConfiguration fn held old ps lm secs cc)
         name key default
       = match section_cache secs name !! key with
         | Some v =>
             (Ok (Val v),
              mkConfiguration fn held old ps' lm (ensure_proxy secs name) cc)
         | None =>
             match explicit_value (mkConfiguration fn held old ps lm secs cc)
                     name key with
             | Some (Ok raw) =>
                 (Ok (Val (VStr raw)),
                  mkConfiguration fn held old ps' lm
                    (cache_store (ensure_proxy secs name) name key (VStr raw)) cc)
             | Some (Raise e) =>
                 (Raise e,
                  mkConfiguration fn held old ps' lm (ensure_proxy secs name) cc)
             | None =>
                 match registry_default registry name key default with
                 | Val v =>
                     (Ok (Val (normalise v)),
                      mkConfiguration fn held old ps' lm
                        (cache_store (ensure_proxy secs name) name key (normalise v))
                        cc)
                 | _ =>
                     (Ok default,
                      mkConfiguration fn held old ps' lm (ensure_proxy secs name) cc)
                 end
             end
         end.
Proof.
  intros Hans Hco.
  rewrite Configuration_get_eq, section_cache_ensure, explicit_value_eq.
  destruct (section_cache secs name !! key) as [v |].
  { exists ps. auto. }
  destruct (ConfigParser.get held name key) as [[raw | e] |].
  { exists ps. cbn [got_value]. rewrite normalise_string. auto. }
  { exists ps. auto. }
  destruct (ask_parents_spec registry name key default ps Hans Hco)
    as [ps' [Hask [Hco' Hfirst]]].
  exists ps'. split; [exact Hco' | split; [exact Hfirst |]].
  rewrite Hask. destruct (first_explicit ps name key) as [[raw | e] |].
  { now rewrite normalise_string. }
  { reflexivity. }
  destruct (registry_default_cases registry name key default) as [-> | [opt [_ ->]]];
    reflexivity.
Qed.

Lemma get_as_parent registry config : answers_as_parent registry config.
Proof.
  induction config as [fn held old ps lm secs cc IH] using Configuration_nested_ind.
  intros name key Hco. apply coherent_parent_eq in Hco as [Hcache Hps].
  destruct (get_node registry fn held old ps lm secs cc name key _use_default IH Hps)
    as [ps' [Hps' [Hfirst Hget]]].
  rewrite Hget, registry_default_sentinel. unfold parent_answer.
  destruct (section_cache secs name !! key) as [v |] eqn:Ehit.
  - destruct (Hcache _ _ _ Ehit) as [raw [-> Hraw]]. rewrite Hraw.
    eexists. split; [reflexivity | split].
    + apply coherent_parent_eq. split; [| exact Hps'].
      intros n k v. rewrite section_cache_ensure. intros Hv.
      destruct (Hcache _ _ _ Hv) as [raw' [-> Hraw']]. exists raw'. split; [reflexivity |].
      now rewrite (explicit_value_frame fn held old ps ps' lm lm secs _ cc cc old Hfirst).
    + now apply explicit_value_frame.
  - destruct (explicit_value (mkConfiguration fn held old ps lm secs cc) name key)
      as [[raw | e] |] eqn:Eraw.
    + eexists. split; [reflexivity | split].
      * apply coherent_parent_eq. split; [| exact Hps'].
        intros n k v. rewrite cache_store_lookup, section_cache_ensure.
        rewrite (explicit_value_frame fn held old ps ps' lm lm secs _ cc cc old Hfirst).
        destruct (decide (n = name /\ k = key)) as [[-> ->] | _].
        -- inversion 1; subst. eauto.
        -- apply Hcache.
      * now apply explicit_value_frame.
    + eexists. split; [reflexivity | split].
      * apply coherent_parent_eq. split; [| exact Hps'].
        intros n k v. rewrite section_cache_ensure.
        rewrite (explicit_value_frame fn held old ps ps' lm lm secs _ cc cc old Hfirst).
        apply Hcache.
      * now apply explicit_value_frame.
    + eexists. split; [reflexivity | split].
      * apply coherent_parent_eq. split; [| exact Hps'].
        intros n k v. rewrite section_cache_ensure.
        rewrite (explicit_value_frame fn held old ps ps' lm lm secs _ cc cc old Hfirst).
        apply Hcache.
      * now apply explicit_value_frame.
Qed.

Lemma resolve_whatever_default registry config name key v default :
  resolve registry config name key _use_default = Ok (Val v) ->
  resolve registry config name key default = Ok (Val v).
Proof.
  unfold resolve. destruct (explicit_value config name key) as [[raw | e] |];
    [trivial | trivial |].
  destruct (registry !! (name, key)); [trivial | discriminate].
Qed.

(** On a coherent configuration [get] returns what [resolve] says, and
    leaves a coherent configuration with the same explicit values. *)
Lemma get_resolves registry config name key default :
  default <> _use_default ->
  coherent registry config ->
  exists config',
    Configuration_get registry config name key default
    = (resolve registry config name key default, config')
    /\ coherent registry config'
    /\ forall n k, explicit_value config' n k = explicit_value config n k.
Proof.
  intros Hdefault [Hcache Hps].
  destruct config as [fn held old ps lm secs cc]. unfold cached in Hcache.
  cbn [parents _sections] in *.
  assert (Hans : Forall (answers_as_parent registry) ps).
  { apply Forall_forall. intros p _. apply get_as_parent. }
  destruct (get_node registry fn held old ps lm secs cc name key default Hans Hps)
    as [ps' [Hps' [Hfirst Hget]]].
  rewrite Hget. clear Hget.
  assert (Hframe : forall secs' n k d,
            resolve registry (mkConfiguration fn held old ps' lm secs' cc) n k d
            = resolve registry (mkConfiguration fn held old ps lm secs cc) n k d).
  { intros secs' n k d. unfold resolve.
    now rewrite (explicit_value_frame fn held old ps ps' lm lm secs secs' cc cc old Hfirst). }
  assert (Hkept : forall n k v',
            cached (mkConfiguration fn held old ps' lm (ensure_proxy secs name) cc) n k
            = Some v' ->
            resolve registry
              (mkConfiguration fn held old ps' lm (ensure_proxy secs name) cc)
              n k _use_default = Ok (Val v')).
  { intros n k v'. unfold cached. cbn [_sections].
    rewrite section_cache_ensure, Hframe. apply Hcache. }
  destruct (section_cache secs name !! key) as [v |] eqn:Ehit.
  - rewrite (resolve_whatever_default _ _ _ _ _ default (Hcache _ _ _ Ehit)).
    eexists. split; [reflexivity | split; [split |]];
      [exact Hkept | exact Hps' | now apply explicit_value_frame].
  - unfold resolve at 1.
    destruct (explicit_value (mkConfiguration fn held old ps lm secs cc) name key)
      as [[raw | e] |] eqn:Eraw.
    + eexists. split; [reflexivity | split; [split |]].
      * intros n k v'. unfold cached. cbn [_sections].
        rewrite cache_store_lookup, section_cache_ensure, Hframe.
        destruct (decide (n = name /\ k = key)) as [[-> ->] | _]; [| apply Hcache].
        inversion 1; subst. unfold resolve. now rewrite Eraw.
      * exact Hps'.
      * now apply explicit_value_frame.
    + eexists. split; [reflexivity | split; [split |]];
        [exact Hkept | exact Hps' | now apply explicit_value_frame].
    + unfold registry_default.
      destruct (registry !! (name, key)) as [opt |] eqn:Eopt.
      * destruct default; try contradiction;
          (eexists; split; [reflexivity | split; [split |]];
           [ intros n k v'; unfold cached; cbn [_sections];
             rewrite cache_store_lookup, section_cache_ensure, Hframe;
             destruct (decide (n = name /\ k = key)) as [[-> ->] | _]; [| apply Hcache];
             inversion 1; subst; unfold resolve; now rewrite Eraw, Eopt
           | exact Hps'
           | now apply explicit_value_frame ]).
      * destruct default; try contradiction;
          (eexists; split; [reflexivity | split; [split |]];
           [exact Hkept | exact Hps' | now apply explicit_value_frame]).
Qed.

(** Configurations as the constructor and a reparse leave them are
    coherent: they hold no proxy yet. *)
Lemma no_proxy_coherent_parent fn held old ps lm cc :
  Forall coherent_parent ps ->
  coherent_parent (mkConfiguration fn held old ps lm ∅ cc).
Proof.
  intros Hps. apply coherent_parent_eq. split; [| exact Hps].
  intros name key v. unfold section_cache. rewrite lookup_empty, lookup_empty.
  discriminate.
Qed.

Lemma init_coherent fs path config :
  Configuration_init fs path = Ok config -> coherent_parent config.
Proof.
  unfold Configuration_init.
  destruct (ConfigParser.read fs path) as [[? | e] held]; [| discriminate].
  inversion 1. apply no_proxy_coherent_parent. constructor.
Qed.

Lemma build_parents_coherent fs fn entries :
  forall r built, build_parents fs fn entries = (r, built) ->
                  Forall coherent_parent built.
Proof.
  induction entries as [| entry rest IH]; intros r built; cbn [build_parents].
  - inversion 1. constructor.
  - destruct (Configuration_init fs (inherit_path fn entry)) as [parent | e] eqn:Ep.
    + destruct (build_parents fs fn rest) as [r' built'] eqn:Eb. inversion 1; subst.
      constructor; [exact (init_coherent _ _ _ Ep) | exact (IH _ _ eq_refl)].
    + inversion 1. constructor.
Qed.

Lemma coherent_parent_is_coherent registry config :
  coherent_parent config -> coherent registry config.
Proof.
  destruct config as [fn held old ps lm secs cc].
  intros [Hcache Hps]%coherent_parent_eq. split; [| exact Hps].
  intros name key v Hv. destruct (Hcache _ _ _ Hv) as [raw [-> Hraw]].
  unfold resolve. now rewrite Hraw.
Qed.

(** A configuration whose own file has just been reparsed is coherent. *)
Lemma reparsed_is_coherent registry fs force config f r config' :
  filename config <> "" ->
  fs !! filename config = Some f ->
  force || (_lastmtime config <? mtime f) = true ->
  parse_if_needed fs force config = (Ok r, config') ->
  coherent registry config'.
Proof.
  destruct config as [fn held old ps lm secs cc]. cbn [filename _lastmtime].
  intros Hfn Hf Hdue. rewrite parse_if_needed_eq.
  destruct (not_skipped fs fn f Hfn Hf) as [-> ->]. rewrite Hdue.
  destruct (ConfigParser.read fs fn) as [[[| ? ?] | e] held']; try discriminate.
  destruct (ConfigParser.get held' "inherit" "file") as [[value | e] |];
    try discriminate;
    (destruct (build_parents _ _ _) as [[? | e'] built] eqn:Eb; [| discriminate]);
    inversion 1; apply coherent_parent_is_coherent, no_proxy_coherent_parent;
    exact (build_parents_coherent _ _ _ _ _ Eb).
Qed.

(** C3, as amended.  On a configuration whose caches are coherent (what
    a section proxy caches is what a resolution without caches yields:
    so it is after the constructor, after a reparse of the file itself,
    and after every [get] on such a configuration), [Section.get] with a
    default of the caller returns what [parser.get] hands out for this
    file's own section, else what it hands out in the nearest parent,
    depth first and in declaration order, else the registry default, else
    the caller's default; an explicit empty string is returned as the
    empty string; and the configuration stays coherent. *)
Theorem get_follows_precedence
    (registry : Registry) (config : Configuration) (name key : string)
    (default : PyObj) :
  default <> _use_default ->
  coherent registry config ->
  follows_precedence registry config name key default.
Proof.
  intros Hdefault Hco.
  destruct (get_resolves registry config name key default Hdefault Hco)
    as [config' [Hget [Hco' _]]].
  unfold follows_precedence, Section_get. rewrite Hget. cbn [fst snd].
  split; [| split; [| exact Hco']].
  - unfold resolve. destruct config as [fn held old ps lm secs cc].
    rewrite explicit_value_eq. cbn [parser parents].
    destruct (ConfigParser.get held name key) as [[raw | e] |]; [reflexivity.. |].
    destruct (first_explicit ps name key) as [[raw | e] |]; reflexivity.
  - intros Hempty. unfold resolve. now rewrite Hempty.
Qed.

Lemma child_parsed_coherent : coherent ∅ child_parsed.
Proof.
  apply (reparsed_is_coherent ∅ fs_inherit false child_created
           (mkFile 1 (Parsed (ini [("inherit", [("file", "parent.ini")])])))
           true child_parsed).
  - discriminate.
  - vm_compute. reflexivity.
  - reflexivity.
  - apply injective_projections; [vm_compute; reflexivity | reflexivity].
Qed.

Lemma child_read_coherent : coherent ∅ child_read.
Proof.
  destruct (get_resolves ∅ child_parsed "x" "a" (Val (VStr ""))) as [c [Hget [Hco _]]].
  - discriminate.
  - exact child_parsed_coherent.
  - unfold child_read. rewrite Hget. exact Hco.
Qed.

(** The child that has already served and cached the inherited value. *)
Lemma get_follows_precedence_witness :
  follows_precedence ∅ child_read "x" "a" (Val (VStr "fallback")).
Proof.
  apply get_follows_precedence; [discriminate | exact child_read_coherent].
Defined.

(** C3 as stated fails.  The child of the example has served the value
    ["1"] it inherits, its parent file has then been rewritten to [a = 2],
    and [parse_if_needed] has reparsed the parent: the value explicit in
    the nearest parent is ["2"], the child sets nothing itself, and [get]
    serves the ["1"] that the proxy of the child still caches.  And an
    explicit value that does not interpolate is neither returned nor
    passed over for a default: [get] raises. *)
Lemma cached_value_precedes_the_parent :
  child_reparsed = snd (parse_if_needed fs_parent_rewritten false child_read)
  /\ ConfigParser.get (parser child_reparsed) "x" "a" = None
  /\ first_explicit (parents child_reparsed) "x" "a" = Some (Ok "2")
  /\ fst (Section_get ∅ child_reparsed "x" "a" (Val (VStr ""))) = Ok (Val (VStr "1"))
  /\ ~ follows_precedence ∅ child_reparsed "x" "a" (Val (VStr ""))
  /\ ConfigParser.get (parser bad_reference) "inherit" "file"
     = Some (Raise (InterpolationError "nope"))
  /\ fst (Section_get ∅ bad_reference "inherit" "file" (Val (VStr "d")))
     = Raise (InterpolationError "nope").
Proof.
  split; [reflexivity |]. split; [vm_compute; reflexivity |].
  split; [vm_compute; reflexivity |]. split; [vm_compute; reflexivity |].
  split; [| split; vm_compute; reflexivity].
  intros [H _]. vm_compute in H. discriminate.
Qed.

Example precedence_examples :
  fst (Configuration_get ∅ overriding_child "x" "a" (Val (VStr "d"))) = Ok (Val (VStr "1"))
  /\ fst (Configuration_get ∅ child_parsed "x" "a" (Val (VStr "d"))) = Ok (Val (VStr "1"))
  /\ fst (Configuration_get {[ ("x", "b") := mkOption "x" "b" (VStr "3") "" ]}
            child_parsed "x" "b" (Val (VStr "d"))) = Ok (Val (VStr "3"))
  /\ fst (Configuration_get {[ ("x", "b") := mkOption "x" "b" VNone "" ]}
            child_parsed "x" "b" (Val (VStr "d"))) = Ok (Val (VStr ""))
  /\ fst (Configuration_get ∅ child_parsed "x" "b" (Val (VStr "d"))) = Ok (Val (VStr "d"))
  /\ fst (Configuration_get {[ ("x", "empty") := mkOption "x" "empty" (VStr "3") "" ]}
            list_config "x" "empty" (Val (VStr "d"))) = Ok (Val (VStr ""))
  /\ fst (Configuration_get ∅ bad_reference "inherit" "file" (Val (VStr "d")))
     = Raise (InterpolationError "nope")
  /\ fst (Configuration_get ∅ child_parsed "x" "__name__" (Val (VStr "d")))
     = Ok (Val (VStr "x")).
Proof. repeat split; vm_compute; reflexivity. Qed.

(** ** The monitor *)

Lemma has_changed_newer w seen filename f :
  files w !! filename = Some f ->
  recorded seen filename < mtime f ->
  has_changed w seen filename = (Ok true, <[filename := mtime f]> seen).
Proof.
  intros Hf Hnew. unfold has_changed, os_path.getmtime. rewrite Hf.
  apply Z.ltb_lt in Hnew. now rewrite Hnew.
Qed.

(** The loop over the watched files, cut in two: what follows a file
    whose reload raised is left as it was. *)
Lemma monitor_each_app w seen l1 l2 :
  monitor_each w seen (l1 ++ l2)
  = match monitor_each w seen l1 with
    | (None, seen1, l1', log1) =>
        let '(r, seen2, l2', log2) := monitor_each w seen1 l2 in
        (r, seen2, (l1' ++ l2')%list, (log1 ++ log2)%list)
    | (Some failure, seen1, l1', log1) =>
        (Some failure, seen1, (l1' ++ l2)%list, log1)
    end.
Proof.
  revert seen. induction l1 as [| [filename plugins] l1 IH]; intros seen.
  - cbn [monitor_each app]. now destruct (monitor_each w seen l2) as [[[r s] l] g].
  - cbn [monitor_each app].
    destruct (monitor w seen filename plugins) as [[[[u | e] seen'] plugins'] log];
      [| reflexivity].
    rewrite IH.
    destruct (monitor_each w seen' l1) as [[[[failure |] seen1] l1'] log1].
    + reflexivity.
    + destruct (monitor_each w seen1 l2) as [[[r s] l] g].
      now rewrite app_assoc.
Qed.

(** A file newer than recorded, reached in the loop: its time is
    recorded and its dependents are reloaded in order. *)
Lemma monitor_newer w seen filename plugins f :
  files w !! filename = Some f ->
  recorded seen filename < mtime f ->
  monitor w seen filename plugins
  = (fst (fst (reload_each w plugins)), <[filename := mtime f]> seen,
     snd (fst (reload_each w plugins)),
     Modified filename :: snd (reload_each w plugins)).
Proof.
  intros Hf Hnew. unfold monitor. rewrite (has_changed_newer _ _ _ _ Hf Hnew).
  now destruct (reload_each w plugins) as [[r plugins'] log].
Qed.

Lemma tick_reaches_newer_file w m before filename plugins after f seen1 before' log1 :
  monitoring m = (before ++ (filename, plugins) :: after)%list ->
  monitor_each w (mtimes m) before = (None, seen1, before', log1) ->
  files w !! filename = Some f ->
  recorded seen1 filename < mtime f ->
  exists rest,
    snd (tick w m)
    = (log1 ++ Modified filename :: snd (reload_each w plugins) ++ rest)%list.
Proof.
  intros Hm Hbefore Hf Hnew. unfold tick. rewrite Hm, monitor_each_app, Hbefore.
  cbn [monitor_each]. rewrite (monitor_newer _ _ _ _ _ Hf Hnew).
  destruct (reload_each w plugins) as [[[u | e] plugins'] log]; cbn [fst snd].
  - destruct (monitor_each w (<[filename:=mtime f]> seen1) after)
      as [[[[[fn' e'] |] s] l] g]; cbn [snd].
    + exists (g ++ [ErrorReloading fn' e'])%list.
      now rewrite <- !app_assoc.
    + exists g. reflexivity.
  - exists [ErrorReloading filename e]. now rewrite <- app_assoc.
Qed.

Lemma tick_with_failing_reload w m before filename plugins after f e seen1 before' log1 :
  monitoring m = (before ++ (filename, plugins) :: after)%list ->
  monitor_each w (mtimes m) before = (None, seen1, before', log1) ->
  files w !! filename = Some f ->
  recorded seen1 filename < mtime f ->
  fst (fst (reload_each w plugins)) = Raise e ->
  tick w m
  = (mkMonitor (<[filename := mtime f]> seen1)
       (before' ++ (filename, snd (fst (reload_each w plugins))) :: after),
     (log1 ++ Modified filename :: snd (reload_each w plugins)
        ++ [ErrorReloading filename e])%list).
Proof.
  intros Hm Hbefore Hf Hnew Hraise. unfold tick.
  rewrite Hm, monitor_each_app, Hbefore.
  cbn [monitor_each]. rewrite (monitor_newer _ _ _ _ _ Hf Hnew).
  destruct (reload_each w plugins) as [[r plugins'] log]; cbn [fst snd] in *.
  subst r. now rewrite <- app_assoc.
Qed.

Lemma run_length ws : forall m, length (snd (run ws m)) = length ws.
Proof.
  induction ws as [| w ws IH]; intros m; cbn [run]; [reflexivity |].
  destruct (tick w m) as [m' log]. specialize (IH m').
  destruct (run ws m') as [m'' logs]. cbn [snd length] in *. now rewrite IH.
Qed.

(** The loop records times for the files it visits only. *)
Lemma monitor_each_frame w l :
  forall seen r seen' l' log,
    monitor_each w seen l = (r, seen', l', log) ->
    forall B, ~ In B (List.map fst l) -> seen' !! B = seen !! B.
Proof.
  induction l as [| [filename plugins] l IH]; intros seen r seen' l' log;
    cbn [monitor_each List.map fst].
  - now inversion 1.
  - intros Hrun B HB.
    assert (Hne : filename <> B) by (intros ->; apply HB; now left).
    assert (HB' : ~ In B (List.map fst l)) by (intros Hin; apply HB; now right).
    assert (Hstep : forall ro s p g,
              monitor w seen filename plugins = (ro, s, p, g) -> s !! B = seen !! B).
    { unfold monitor, has_changed. intros ro s p g.
      destruct (os_path.getmtime (files w) filename) as [t | e]; [| now inversion 1].
      destruct (recorded seen filename <? t).
      - destruct (reload_each w plugins) as [[r0 p0] g0]. inversion 1; subst.
        now rewrite lookup_insert_ne.
      - now inversion 1. }
    destruct (monitor w seen filename plugins) as [[[[u | e] s] p] g] eqn:Em.
    + destruct (monitor_each w s l) as [[[r0 s0] l0] g0] eqn:Erest.
      inversion Hrun; subst.
      now rewrite (IH _ _ _ _ _ Erest B HB'), (Hstep _ _ _ _ eq_refl).
    + inversion Hrun; subst. exact (Hstep _ _ _ _ eq_refl).
Qed.

(** C7, as amended.  When the reload of a dependent of a changed file
    [A] raises during a tick, the exception is caught: the tick ends by
    logging it with the path of [A], and [run] goes on with the next tick.
    [A]'s new time has been recorded, so it is reported again only after
    its next modification.  The files that follow [A] in the iteration are
    not visited in that tick: they are left as they were and nothing is
    recorded for them.  On every tick, a file whose time is newer than
    recorded is reported and its dependents reloaded once the loop reaches
    it, that is when no file before it raised in that tick; this is how [B]
    is caught up with on a later tick, and [A] after its next change. *)
Theorem monitor_survives_failing_reload :
  (forall w m before A pa after fA e seen1 before' log1,
     monitoring m = (before ++ (A, pa) :: after)%list ->
     monitor_each w (mtimes m) before = (None, seen1, before', log1) ->
     files w !! A = Some fA ->
     recorded seen1 A < mtime fA ->
     fst (fst (reload_each w pa)) = Raise e ->
     snd (tick w m)
     = (log1 ++ Modified A :: snd (reload_each w pa) ++ [ErrorReloading A e])%list
     /\ monitoring (fst (tick w m))
        = (before' ++ (A, snd (fst (reload_each w pa))) :: after)%list
     /\ recorded (mtimes (fst (tick w m))) A = mtime fA
     /\ forall B, B <> A -> ~ In B (List.map fst before) ->
                  recorded (mtimes (fst (tick w m))) B = recorded (mtimes m) B)
  /\ (forall w m before F pf after fF seen1 before' log1,
        monitoring m = (before ++ (F, pf) :: after)%list ->
        monitor_each w (mtimes m) before = (None, seen1, before', log1) ->
        files w !! F = Some fF ->
        recorded seen1 F < mtime fF ->
        exists rest,
          snd (tick w m)
          = (log1 ++ Modified F :: snd (reload_each w pf) ++ rest)%list)
  /\ (forall ws m, length (snd (run ws m)) = length ws).
Proof.
  split; [| split].
  - intros w m before A pa after fA e seen1 before' log1 Hm Hbefore HfA Hnew Hraise.
    rewrite (tick_with_failing_reload _ _ _ _ _ _ _ _ _ _ _ Hm Hbefore HfA Hnew Hraise).
    cbn [fst snd mtimes monitoring]. repeat split.
    + unfold recorded. now rewrite lookup_insert_eq.
    + intros B HB Hnot. unfold recorded.
      rewrite lookup_insert_ne by congruence.
      now rewrite (monitor_each_frame _ _ _ _ _ _ _ Hbefore B Hnot).
  - intros w m before F pf after fF seen1 before' log1.
    apply tick_reaches_newer_file.
  - apply run_length.
Qed.

(** The two watched files of the example over three ticks: [A]'s reload
    raises on the first, [B] is caught up with on the second, and [A] is
    reported again on the third, after its next change. *)
Example monitor_three_ticks :
  snd (run [world_at 2; world_at 2; world_at 3] two_watched)
  = [ [Modified "A"; Reloading "HandlerA"; ErrorReloading "A" (ImportError "modA")];
      [Modified "B"; Reloading "HandlerB"; Patching "HandlerB"];
      [Modified "A"; Reloading "HandlerA"; ErrorReloading "A" (ImportError "modA")] ].
Proof. vm_compute. reflexivity. Qed.

(** When it is [patch_menu_item] that raises, the patching has been
    logged before the error is. *)
Example failing_patch_is_logged :
  snd (tick (mkWorld (files (world_at 2)) (fun _ _ => Ok ())
               (fun _ class => Raise (AttributeError class)))
         two_watched)
  = [Modified "A"; Reloading "HandlerA"; Patching "HandlerA";
     ErrorReloading "A" (AttributeError "HandlerA")].
Proof. vm_compute. reflexivity. Qed.

(** C7 as stated fails: [A] and [B] have both changed before the tick
    and the reload of [A]'s dependent raises; the tick reports [A] and the
    error and ends there, [B] is neither reported nor reloaded in it and
    its recorded time stays behind. *)
Lemma changed_file_after_failure_is_skipped :
  fst (has_changed (world_at 2) (mtimes two_watched) "A") = Ok true
  /\ fst (has_changed (world_at 2) (mtimes two_watched) "B") = Ok true
  /\ is_Raise
       (fst (fst (reload (world_at 2) (mkPlugin "modA" "HandlerA" (Some MenuItemHandler)))))
     = true
  /\ snd (tick (world_at 2) two_watched)
     = [Modified "A"; Reloading "HandlerA"; ErrorReloading "A" (ImportError "modA")]
  /\ ~ In (Modified "B") (snd (tick (world_at 2) two_watched))
  /\ mtimes (fst (tick (world_at 2) two_watched)) !! "B" = Some 1.
Proof.
  repeat split; try (vm_compute; reflexivity).
  vm_compute. intros [H | [H | [H | []]]]; discriminate.
Qed.

(** The branch of [Configuration_get] for an opaque object found among
    the parents or in the registry is never taken: asked with a default
    that is no opaque object, a configuration answers none. *)
Lemma ask_parents_never_opaque registry name key default ps :
  Forall (fun p => forall t,
            fst (Configuration_get registry p name key _use_default)
            <> Ok (Opaque t)) ps ->
  forall t, fst (ask_parents registry name key default ps) <> Ok (Opaque t).
Proof.
  induction 1 as [| p ps Hp _ IH]; intros t; cbn [ask_parents].
  - destruct (registry_default_cases registry name key default) as [-> | [opt [_ ->]]];
      discriminate.
  - destruct (Configuration_get registry p name key _use_default) as [v p'] eqn:Ep.
    cbn [fst] in Hp. destruct v as [[v | | t'] | e].
    + discriminate.
    + specialize (IH t). now destruct (ask_parents registry name key default ps).
    + now destruct (Hp t').
    + discriminate.
Qed.

Lemma get_never_opaque registry name key config :
  forall default, (forall t, default <> Opaque t) ->
  forall t, fst (Configuration_get registry config name key default) <> Ok (Opaque t).
Proof.
  induction config as [fn held old ps lm secs cc IH] using Configuration_nested_ind.
  intros default Hdefault t. rewrite Configuration_get_eq.
  destruct (section_cache (ensure_proxy secs name) name !! key); [discriminate |].
  destruct (ConfigParser.get held name key) as [[raw | e] |]; [discriminate.. |].
  assert (Hps : Forall (fun p => forall t,
                          fst (Configuration_get registry p name key _use_default)
                          <> Ok (Opaque t)) ps).
  { eapply Forall_impl; [exact IH |]. intros p Hp t'. apply Hp. discriminate. }
  pose proof (ask_parents_never_opaque registry name key default ps Hps) as Hask.
  destruct (ask_parents registry name key default ps) as [[[v | | t'] | e] ps'];
    cbn [fst] in *.
  - discriminate.
  - intros [= H]. exact (Hdefault t H).
  - now destruct (Hask t').
  - discriminate.
Qed.

(** ** Presence tests and reads *)


Lemma Configuration_has_option_eq registry fn held old ps lm secs cc section opt defaults :
  Configuration_has_option registry (mkConfiguration fn held old ps lm secs cc)
    section opt defaults
  = if ConfigParser.in_options held section opt then true
    else if any_parent_has_option registry section opt ps then true
    else defaults && match registry !! (section, opt) with
                     | Some _ => true
                     | None => false
                     end.
Proof.
  cbn [Configuration_has_option]. unfold _to_utf8, to_unicode.
  destruct (ConfigParser.in_options held section opt); [reflexivity |].
  replace ((fix loop (l : list Configuration) : bool :=
              match l with
              | [] => false
              | parent :: rest =>
                  if Configuration_has_option registry parent section opt false
                  then true else loop rest
              end) ps)
    with (any_parent_has_option registry section opt ps); [reflexivity |].
  induction ps as [| p ps IH]; [reflexivity |].
  cbn [any_parent_has_option]. rewrite IH. reflexivity.
Qed.

Lemma Section_contains_eq registry fn held old ps lm secs0 cc name key defaults :
  Section_contains registry (mkConfiguration fn held old ps lm secs0 cc)
    name key defaults
  = if ConfigParser.has_option held name key
    then (true, mkConfiguration fn held old ps lm (ensure_proxy secs0 name) cc)
    else
      (if fst (any_parent_contains registry name key ps) then true
       else defaults && match registry !! (name, key) with
                        | Some _ => true
                        | None => false
                        end,
       mkConfiguration fn held old (snd (any_parent_contains registry name key ps))
         lm (ensure_proxy secs0 name) cc).
Proof.
  cbn [Section_contains]. unfold _to_utf8, to_unicode.
  destruct (ConfigParser.has_option held name key); [reflexivity |].
  replace ((fix loop (l : list Configuration) : bool * list Configuration :=
              match l with
              | [] => (false, [])
              | parent :: rest =>
                  let '(b, parent') :=
                    Section_contains registry parent name key false in
                  if b then (true, parent' :: rest)
                  else let '(b', rest') := loop rest in (b', parent' :: rest')
              end) ps)
    with (any_parent_contains registry name key ps).
  - destruct (any_parent_contains registry name key ps) as [found ps']. reflexivity.
  - induction ps as [| p ps IH]; [reflexivity |].
    cbn [any_parent_contains]. rewrite IH. reflexivity.
Qed.





(** The entry [__name__] is where the two part: [has_option] does not
    report it, and [get] serves it. *)
Example has_option_examples :
  Configuration_has_option ∅ child_parsed "x" "a" true = true
  /\ Configuration_has_option ∅ child_parsed "x" "b" true = false
  /\ Configuration_has_option {[ ("x", "b") := mkOption "x" "b" VNone "" ]}
       child_parsed "x" "b" true = true
  /\ Configuration_has_option {[ ("x", "b") := mkOption "x" "b" VNone "" ]}
       child_parsed "x" "b" false = false
  /\ Configuration_has_option ∅ child_parsed "x" "__name__" true = false
  /\ fst (Configuration_get ∅ child_parsed "x" "__name__" (Val (VStr "d")))
     = Ok (Val (VStr "x")).
Proof. vm_compute. repeat split. Qed.

(** ** [contains] against [has_option] *)

Lemma ensure_proxy_idem secs name :
  ensure_proxy (ensure_proxy secs name) name = ensure_proxy secs name.
Proof.
  unfold ensure_proxy at 1.
  destruct (ensure_proxy secs name !! name) eqn:E; [reflexivity |].
  unfold ensure_proxy in E. destruct (secs !! name) eqn:E'.
  - congruence.
  - rewrite lookup_insert_eq in E. discriminate.
Qed.







(** ** Reading twice *)

Lemma ensure_proxy_cache_store secs name key v :
  ensure_proxy (cache_store secs name key v) name = cache_store secs name key v.
Proof.
  unfold ensure_proxy.
  destruct (cache_store secs name key v !! name) eqn:E; [reflexivity |].
  unfold cache_store in E. destruct (secs !! name);
    rewrite lookup_insert_eq in E; discriminate.
Qed.

Lemma cache_store_hit secs name key v :
  section_cache (cache_store secs name key v) name !! key = Some v.
Proof.
  rewrite cache_store_lookup. rewrite decide_True; [reflexivity | split; reflexivity].
Qed.

Lemma ask_parents_again registry name key default ps :
  Forall (fun p =>
            Configuration_get registry
              (snd (Configuration_get registry p name key _use_default))
              name key _use_default
            = Configuration_get registry p name key _use_default) ps ->
  ask_parents registry name key default
    (snd (ask_parents registry name key default ps))
  = ask_parents registry name key default ps.
Proof.
  induction 1 as [| p ps Hp _ IH]; [reflexivity |].
  cbn [ask_parents].
  destruct (Configuration_get registry p name key _use_default) as [v p'] eqn:E.
  cbn [snd] in Hp.
  destruct v as [[v | | t] | e].
  - cbn [snd ask_parents]. rewrite Hp. reflexivity.
  - destruct (ask_parents registry name key default ps) as [v' ps'] eqn:E'.
    cbn [snd] in IH. cbn [snd ask_parents]. rewrite Hp, IH. reflexivity.
  - cbn [snd ask_parents]. rewrite Hp. reflexivity.
  - cbn [snd ask_parents]. rewrite Hp. reflexivity.
Qed.

(** X4.  A read is repeatable: the same [get] made again returns the same value
    and changes nothing further, in any state of the caches. *)
Theorem get_twice
    (registry : Registry) (config : Configuration) (name key : string)
    (default : PyObj) :
  Configuration_get registry
    (snd (Configuration_get registry config name key default)) name key default
  = Configuration_get registry config name key default.
Proof.
  revert default. induction config as [fn held old ps lm secs cc IH]
    using Configuration_nested_ind; intros default.
  assert (Hps : Forall (fun p =>
            Configuration_get registry
              (snd (Configuration_get registry p name key _use_default))
              name key _use_default
            = Configuration_get registry p name key _use_default) ps).
  { eapply Forall_impl; [exact IH |]. intros p Hp. apply Hp. }
  rewrite (Configuration_get_eq registry fn held old ps).
  destruct (section_cache (ensure_proxy secs name) name !! key) as [c |] eqn:Hc.
  - cbn [snd]. rewrite Configuration_get_eq, ensure_proxy_idem, Hc. reflexivity.
  - destruct (ConfigParser.get held name key) as [[raw | e] |] eqn:Hraw.
    + cbn [snd got_value]. rewrite Configuration_get_eq, ensure_proxy_cache_store,
        cache_store_hit. reflexivity.
    + cbn [snd got_value]. rewrite Configuration_get_eq, ensure_proxy_idem, Hc, Hraw.
      reflexivity.
    + pose proof (ask_parents_again registry name key default ps Hps) as Hag.
      destruct (ask_parents registry name key default ps) as [value ps'] eqn:Ha.
      cbn [snd] in Hag.
      destruct value as [[v | | t] | e]; cbn [snd].
      * rewrite Configuration_get_eq, ensure_proxy_cache_store, cache_store_hit.
        reflexivity.
      * rewrite Configuration_get_eq, ensure_proxy_idem, Hc, Hraw, Hag.
        reflexivity.
      * rewrite Configuration_get_eq, ensure_proxy_idem, Hc, Hraw, Hag.
        reflexivity.
      * rewrite Configuration_get_eq, ensure_proxy_idem, Hc, Hraw, Hag.
        reflexivity.
Qed.

Lemma ask_parents_keeps_data registry name key default ps :
  Forall (fun p => forall d,
            drop_caches (snd (Configuration_get registry p name key d))
            = drop_caches p) ps ->
  List.map drop_caches (snd (ask_parents registry name key default ps))
  = List.map drop_caches ps.
Proof.
  induction 1 as [| p ps Hp _ IH]; [reflexivity |].
  cbn [ask_parents]. specialize (Hp _use_default).
  destruct (Configuration_get registry p name key _use_default) as [v p'].
  cbn [snd] in Hp.
  destruct v as [[v | | t] | e].
  - cbn [snd List.map]. rewrite Hp. reflexivity.
  - destruct (ask_parents registry name key default ps) as [v' ps'].
    cbn [snd List.map] in *. rewrite Hp, IH. reflexivity.
  - cbn [snd List.map]. rewrite Hp. reflexivity.
  - cbn [snd List.map]. rewrite Hp. reflexivity.
Qed.

Lemma get_keeps_data
    (registry : Registry) (config : Configuration) (name key : string)
    (default : PyObj) :
  drop_caches (snd (Configuration_get registry config name key default))
  = drop_caches config.
Proof.
  revert default. induction config as [fn held old ps lm secs cc IH]
    using Configuration_nested_ind; intros default.
  rewrite Configuration_get_eq.
  destruct (section_cache (ensure_proxy secs name) name !! key) as [c |];
    [reflexivity |].
  destruct (ConfigParser.get held name key) as [[raw | e] |]; [reflexivity.. |].
  pose proof (ask_parents_keeps_data registry name key default ps IH) as Hk.
  destruct (ask_parents registry name key default ps) as [value ps'].
  cbn [snd] in Hk.
  destruct value as [[v | | t] | e]; cbn [snd drop_caches]; rewrite Hk; reflexivity.
Qed.

Lemma first_explicit_drop_caches ps name key :
  Forall (fun p => explicit_value (drop_caches p) name key
                   = explicit_value p name key) ps ->
  first_explicit (List.map drop_caches ps) name key = first_explicit ps name key.
Proof.
  induction 1 as [| p ps Hp _ IH]; [reflexivity |].
  cbn [List.map first_explicit]. rewrite Hp, IH. reflexivity.
Qed.

Lemma explicit_value_drop_caches config name key :
  explicit_value (drop_caches config) name key = explicit_value config name key.
Proof.
  induction config as [fn held old ps lm secs cc IH] using Configuration_nested_ind.
  cbn [drop_caches]. rewrite !explicit_value_eq.
  rewrite first_explicit_drop_caches by exact IH. reflexivity.
Qed.

Lemma reparse_due_drop_caches fs force config :
  reparse_due fs force (drop_caches config) = reparse_due fs force config.
Proof.
  induction config as [fn held old ps lm secs cc IH] using Configuration_nested_ind.
  cbn [drop_caches reparse_due].
  destruct (fs !! fn); [| reflexivity].
  f_equal. f_equal.
  induction IH as [| p ps Hp _ IH]; [reflexivity |].
  cbn [List.map existsb]. rewrite Hp, IH. reflexivity.
Qed.

(** X5.  A read writes to the caches only: the file name, the parsed sections,
    the recorded time and the list of parents are the same afterwards, in
    the configuration and in every ancestor; hence so are the explicit
    value of every option and whether a reparse is due. *)
Theorem get_writes_caches_only
    (registry : Registry) (config : Configuration) (name key : string)
    (default : PyObj) :
  drop_caches (snd (Configuration_get registry config name key default))
  = drop_caches config
  /\ (forall n k,
        explicit_value (snd (Configuration_get registry config name key default)) n k
        = explicit_value config n k)
  /\ (forall fs force,
        reparse_due fs force (snd (Configuration_get registry config name key default))
        = reparse_due fs force config).
Proof.
  pose proof (get_keeps_data registry config name key default) as H.
  split; [exact H | split].
  - intros n k. rewrite <- explicit_value_drop_caches, H.
    apply explicit_value_drop_caches.
  - intros fs force. rewrite <- reparse_due_drop_caches, H.
    apply reparse_due_drop_caches.
Qed.

(** ** Typed accessors on a value that is not there *)

Lemma get_of_coherent registry config name key default :
  default <> _use_default ->
  coherent registry config ->
  fst (Configuration_get registry config name key default)
  = resolve registry config name key default.
Proof.
  intros Hd Hco.
  destruct (get_resolves registry config name key default Hd Hco)
    as (config' & Hget & _).
  rewrite Hget. reflexivity.
Qed.

Lemma normalise_false v : truth v = false -> normalise v = VStr "".
Proof. intros H. unfold normalise. rewrite H. reflexivity. Qed.

(** X6.  An option set to nothing, or set nowhere and declared with a default
    that is false ([None], [False], [0], [0.0], [''], [[]]), reads as the
    empty string, and through the typed accessors as [False], [0], [0.0]
    and the empty list: no conversion is attempted and nothing is raised. *)
Theorem empty_value_reads_as_zero
    (registry : Registry) (config : Configuration) (name key : string)
    (default : PyObj) (int_ : PyObj -> outcome Z)
    (float_ : PyObj -> outcome pyfloat) (sep : option string)
    (keep_empty : option bool) :
  coherent registry config ->
  default <> _use_default ->
  explicit_value config name key = Some (Ok "")
  \/ (explicit_value config name key = None
      /\ exists opt, registry !! (name, key) = Some opt
                     /\ truth (option_default opt) = false) ->
  fst (Section_get registry config name key default) = Ok (Val (VStr ""))
  /\ fst (Section_getbool registry config name key default) = Ok false
  /\ fst (Section_getint int_ registry config name key default) = Ok 0
  /\ fst (Section_getfloat float_ registry config name key default)
     = Ok (FDec false 0 0)
  /\ fst (Section_getlist registry config name key (Some default) sep keep_empty)
     = Ok [].
Proof.
  intros Hco Hd Hcase.
  assert (Hget : fst (Section_get registry config name key default)
                 = Ok (Val (VStr ""))).
  { unfold Section_get. rewrite get_of_coherent by assumption. unfold resolve.
    destruct Hcase as [-> | [-> (opt & -> & Hf)]]; [reflexivity |].
    rewrite normalise_false by exact Hf. reflexivity. }
  unfold Section_getbool, Section_getint, Section_getfloat, Section_getlist.
  cbn [arg].
  destruct (Section_get registry config name key default) as [value config'].
  cbn [fst] in Hget. subst value. cbn. repeat split; reflexivity.
Qed.

Lemma empty_value_reads_as_zero_witness :
  fst (Section_get {[ ("x", "b") := mkOption "x" "b" (VInt 0) "" ]}
         child_parsed "x" "b" (Val (VInt 7))) = Ok (Val (VStr ""))
  /\ fst (Section_getbool {[ ("x", "b") := mkOption "x" "b" (VInt 0) "" ]}
            child_parsed "x" "b" (Val (VInt 7))) = Ok false
  /\ fst (Section_getint (fun _ => Raise (ValueError ""))
            {[ ("x", "b") := mkOption "x" "b" (VInt 0) "" ]}
            child_parsed "x" "b" (Val (VInt 7))) = Ok 0
  /\ fst (Section_getfloat (fun _ => Raise (ValueError ""))
            {[ ("x", "b") := mkOption "x" "b" (VInt 0) "" ]}
            child_parsed "x" "b" (Val (VInt 7))) = Ok (FDec false 0 0)
  /\ fst (Section_getlist {[ ("x", "b") := mkOption "x" "b" (VInt 0) "" ]}
            child_parsed "x" "b" (Some (Val (VInt 7))) None None) = Ok [].
Proof.
  apply (empty_value_reads_as_zero
           {[ ("x", "b") := mkOption "x" "b" (VInt 0) "" ]} child_parsed "x" "b"
           (Val (VInt 7)) (fun _ => Raise (ValueError ""))
           (fun _ => Raise (ValueError "")) None None).
  - apply coherent_parent_is_coherent.
    unfold child_parsed.
    vm_compute. split; [| split; [| exact I]]; [| split; [| exact I]];
      intros n k v H; discriminate.
  - discriminate.
  - right. split; [vm_compute; reflexivity |].
    exists (mkOption "x" "b" (VInt 0) ""). split; [| reflexivity].
    apply lookup_singleton_eq.
Defined.

(** ** Declared options read through their descriptors *)

Lemma resolve_registered registry config name key default reg :
  registry !! (name, key) = Some reg ->
  resolve registry config name key default
  = match explicit_value config name key with
    | Some (Ok text) => Ok (Val (VStr text))
    | Some (Raise e) => Raise e
    | None => Ok (Val (normalise (option_default reg)))
    end.
Proof. intros H. unfold resolve. rewrite H. reflexivity. Qed.

(** X7.  On a configuration whose caches are coherent with the registry
    as it stands (what a proxy caches is what a resolution with that
    registry yields: so it is for a configuration that has cached nothing
    under another registry), a descriptor reads what [parser.get] hands
    out for the value that a file of the inheritance tree sets, if one
    does, and else the default of the declaration registered for its
    section and name.  Its own default plays no part: after a second
    declaration for the same section and name, the first descriptor reads
    the default of the second.  Without the coherence this fails: a
    configuration that has read the option under the first declaration
    goes on serving the first default after the second declaration. *)
Theorem descriptor_reads_registered_declaration :
  (forall registry config self reg,
     coherent registry config ->
     registry !! (option_section self, option_name self) = Some reg ->
     fst (Option_get registry self config)
     = match explicit_value config (option_section self) (option_name self) with
       | Some (Ok text) => Ok (Val (VStr text))
       | Some (Raise e) => Raise e
       | None => Ok (Val (normalise (option_default reg)))
       end)
  /\ (forall registry section name d1 d2 doc1 doc2 config,
        let first := Option_init registry section name d1 doc1 in
        let second := Option_init (snd first) section name d2 doc2 in
        coherent (snd second) config ->
        explicit_value config section name = None ->
        fst (Option_get (snd second) (fst first) config) = Ok (Val (normalise d2))
        /\ fst (Option_get (snd second) (fst second) config)
           = Ok (Val (normalise d2)))
  /\ (let first := Option_init ∅ "x" "b" (VStr "one") "" in
      let second := Option_init (snd first) "x" "b" (VStr "two") "" in
      let read := snd (Option_get (snd first) (fst first) child_parsed) in
      fst (Option_get (snd first) (fst first) child_parsed) = Ok (Val (VStr "one"))
      /\ fst (Option_get (snd second) (fst first) read) = Ok (Val (VStr "one"))
      /\ fst (Option_get (snd second) (fst second) read) = Ok (Val (VStr "one"))
      /\ fst (Option_get (snd second) (fst first) child_parsed)
         = Ok (Val (VStr "two"))
      /\ ~ coherent (snd second) read).
Proof.
  split; [| split].
  - intros registry config self reg Hco Hreg.
    unfold Option_get, Section_get.
    rewrite get_of_coherent by (assumption || discriminate).
    apply resolve_registered. exact Hreg.
  - intros registry section name d1 d2 doc1 doc2 config first second Hco Hex.
    assert (Hreg : snd second !! (section, name)
                   = Some (mkOption section name d2 doc2)).
    { subst first second. cbn [Option_init snd]. apply lookup_insert_eq. }
    split; unfold Option_get, Section_get;
      rewrite get_of_coherent by (assumption || discriminate);
      subst first second; cbn [Option_init fst snd option_section option_name] in *;
      erewrite resolve_registered by exact Hreg; rewrite Hex; reflexivity.
  - cbv zeta. repeat split; try (vm_compute; reflexivity).
    intros [Hcache _].
    specialize (Hcache "x" "b" (VStr "one")).
    assert (Hc : cached (snd (Option_get (snd (Option_init ∅ "x" "b" (VStr "one") ""))
                                (fst (Option_init ∅ "x" "b" (VStr "one") ""))
                                child_parsed)) "x" "b" = Some (VStr "one"))
      by (vm_compute; reflexivity).
    specialize (Hcache Hc). vm_compute in Hcache. discriminate.
Qed.

(** X8.  A declaration read back, on a configuration whose caches are
    coherent with the registry as the declaration leaves it (what a proxy
    caches is what a resolution with that registry yields: so it is for a
    configuration just constructed or reparsed, and for one that has not
    read the option under an earlier declaration): an option declared
    with a default and set nowhere reads, through the descriptor of its
    type, as that default; a default that is false reads as the empty
    string, [False], [0] or the empty list. *)
Theorem declared_default_read_back
    (registry : Registry) (section name doc : string) (default : Value)
    (config : Configuration) :
  let self := fst (Option_init registry section name default doc) in
  let registry' := snd (Option_init registry section name default doc) in
  coherent registry' config ->
  explicit_value config section name = None ->
  fst (Option_get registry' self config) = Ok (Val (normalise default))
  /\ (forall b, default = VBool b ->
        fst (BoolOption_get registry' self config) = Ok b)
  /\ (forall int_ z, default = VInt z -> int_ (Val (VInt z)) = Ok z ->
        fst (IntOption_get int_ registry' self config) = Ok z)
  /\ (forall sep keep_empty l, default = VList l ->
        fst (ListOption_get registry' self sep keep_empty config)
        = Ok (if keep_empty then l else filter_nonempty l)).
Proof.
  intros self registry' Hco Hex.
  assert (Hget : forall d, d <> _use_default ->
            fst (Section_get registry' config section name d)
            = Ok (Val (normalise default))).
  { intros d Hd. unfold Section_get.
    rewrite get_of_coherent by assumption.
    erewrite resolve_registered
      by (subst registry'; cbn [Option_init snd]; apply lookup_insert_eq).
    rewrite Hex. reflexivity. }
  subst self. cbn [Option_init fst option_section option_name option_default].
  split; [| split; [| split]].
  - unfold Option_get. cbn [option_section option_name option_default].
    apply Hget. discriminate.
  - intros b ->. unfold BoolOption_get, Section_getbool.
    cbn [option_section option_name option_default].
    specialize (Hget (Val (VBool b))).
    destruct (Section_get registry' config section name (Val (VBool b)))
      as [value config'].
    cbn [fst] in *. rewrite Hget by discriminate. destruct b; reflexivity.
  - intros int_ z -> Hint. unfold IntOption_get, Section_getint.
    cbn [option_section option_name option_default].
    specialize (Hget (Val (VInt z))).
    destruct (Section_get registry' config section name (Val (VInt z)))
      as [value config'].
    cbn [fst] in *. rewrite Hget by discriminate.
    unfold normalise. cbn [truth]. destruct (z =? 0) eqn:Hz.
    + apply Z.eqb_eq in Hz. subst z. reflexivity.
    + cbn. rewrite Hz. cbn. exact Hint.
  - intros sep keep_empty l ->. unfold ListOption_get, Section_getlist.
    cbn [option_section option_name option_default arg].
    specialize (Hget (Val (VList l))).
    destruct (Section_get registry' config section name (Val (VList l)))
      as [value config'].
    cbn [fst] in *. rewrite Hget by discriminate.
    destruct l as [| x l]; [destruct keep_empty; reflexivity |].
    reflexivity.
Qed.

Lemma declared_default_read_back_witness :
  fst (Option_get (snd (Option_init ∅ "x" "b" (VInt 3) ""))
         (fst (Option_init ∅ "x" "b" (VInt 3) "")) child_parsed)
  = Ok (Val (normalise (VInt 3)))
  /\ (forall b, VInt 3 = VBool b ->
        fst (BoolOption_get (snd (Option_init ∅ "x" "b" (VInt 3) ""))
               (fst (Option_init ∅ "x" "b" (VInt 3) "")) child_parsed) = Ok b)
  /\ (forall int_ z, VInt 3 = VInt z -> int_ (Val (VInt z)) = Ok z ->
        fst (IntOption_get int_ (snd (Option_init ∅ "x" "b" (VInt 3) ""))
               (fst (Option_init ∅ "x" "b" (VInt 3) "")) child_parsed) = Ok z)
  /\ (forall sep keep_empty l, VInt 3 = VList l ->
        fst (ListOption_get (snd (Option_init ∅ "x" "b" (VInt 3) ""))
               (fst (Option_init ∅ "x" "b" (VInt 3) "")) sep keep_empty child_parsed)
        = Ok (if keep_empty then l else filter_nonempty l)).
Proof.
  apply (declared_default_read_back ∅ "x" "b" "" (VInt 3) child_parsed).
  - apply coherent_parent_is_coherent.
    vm_compute. split; [| split; [| exact I]]; [| split; [| exact I]];
      intros n k v H; discriminate.
  - vm_compute. reflexivity.
Defined.

(** ** The elements of a list option *)

Lemma rstrip_cons a s :
  Text.isspace a = false -> Text.rstrip (String a s) = String a (Text.rstrip s).
Proof.
  intros H. cbn [Text.rstrip]. rewrite H. destruct (Text.rstrip s); reflexivity.
Qed.

Lemma rstrip_cons_nonempty a s b r :
  Text.rstrip s = String b r -> Text.rstrip (String a s) = String a (String b r).
Proof. intros H. cbn [Text.rstrip]. rewrite H. reflexivity. Qed.

Lemma rstrip_idem s : Text.rstrip (Text.rstrip s) = Text.rstrip s.
Proof.
  induction s as [| a s IH]; [reflexivity |].
  destruct (Text.rstrip s) as [| b r] eqn:E.
  - cbn [Text.rstrip]. rewrite E.
    destruct (Text.isspace a) eqn:Ha; [reflexivity |].
    cbn [Text.rstrip]. rewrite Ha. reflexivity.
  - rewrite (rstrip_cons_nonempty a s b r E).
    apply rstrip_cons_nonempty. exact IH.
Qed.

Lemma lstrip_starts s :
  Text.lstrip s = ""
  \/ exists a r, Text.lstrip s = String a r /\ Text.isspace a = false.
Proof.
  induction s as [| a s IH]; [left; reflexivity |].
  cbn [Text.lstrip]. destruct (Text.isspace a) eqn:Ha; [exact IH |].
  right. eauto.
Qed.

Lemma strip_idem s : Text.strip (Text.strip s) = Text.strip s.
Proof.
  unfold Text.strip. destruct (lstrip_starts s) as [-> | (a & r & -> & Ha)];
    [reflexivity |].
  rewrite rstrip_cons by exact Ha. cbn [Text.lstrip]. rewrite Ha.
  rewrite rstrip_cons by exact Ha. rewrite rstrip_idem. reflexivity.
Qed.

Lemma filter_nonempty_sound items :
  Forall (fun item => item <> "") (filter_nonempty items).
Proof.
  unfold filter_nonempty. apply List.Forall_forall. intros x Hx.
  apply List.filter_In in Hx. destruct Hx as [_ Hx]. intros ->. discriminate.
Qed.

Lemma Forall_filter_nonempty (P : string -> Prop) items :
  Forall P items -> Forall P (filter_nonempty items).
Proof.
  intros H. unfold filter_nonempty. rewrite List.Forall_forall in *.
  intros x Hx. apply List.filter_In in Hx. apply H, Hx.
Qed.

(** X9.  The elements [getlist] makes of a string are trimmed: none begins or
    ends with white space; and with [keep_empty] false none is empty.  What
    [keep_empty=False] returns is what [keep_empty=True] returns without
    its empty elements, whatever the value is. *)
Theorem getlist_elements_are_trimmed
    (registry : Registry) (config : Configuration) (name key : string)
    (default : option PyObj) (sep : option string) (keep_empty : option bool)
    (s : string) (items : list string) :
  fst (Section_get registry config name key (arg default (Val (VStr ""))))
  = Ok (Val (VStr s)) ->
  fst (Section_getlist registry config name key default sep keep_empty)
  = Ok items ->
  Forall (fun item => Text.strip item = item) items
  /\ (arg keep_empty true = false -> Forall (fun item => item <> "") items)
  /\ (forall kept,
        fst (Section_getlist registry config name key default sep (Some true))
        = Ok kept ->
        fst (Section_getlist registry config name key default sep (Some false))
        = Ok (filter_nonempty kept)).
Proof.
  unfold Section_getlist. cbn [arg].
  destruct (Section_get registry config name key (arg default (Val (VStr ""))))
    as [value config'].
  cbn [fst]. intros -> Hitems. cbn [py_bool truth] in *.
  destruct (negb (Text.str_eqb s "")).
  2:{ cbn [fst] in *. injection Hitems as <-.
      repeat split; try constructor. intros kept [= <-]. reflexivity. }
  destruct (Text.split (arg sep ",") s) as [parts | e]; [| discriminate].
  cbn [fst] in *. injection Hitems as <-.
  assert (Htrim : Forall (fun item => Text.strip item = item)
                    (List.map Text.strip parts)).
  { apply List.Forall_forall. intros x Hx. apply List.in_map_iff in Hx.
    destruct Hx as (y & <- & _). apply strip_idem. }
  split; [| split].
  - destruct (arg keep_empty true); [exact Htrim |].
    apply Forall_filter_nonempty, Htrim.
  - intros ->. apply filter_nonempty_sound.
  - intros kept [= <-]. reflexivity.
Qed.

Lemma getlist_elements_are_trimmed_witness :
  Forall (fun item => Text.strip item = item) ["a"; "b"; "c"]
  /\ (arg (Some false) true = false -> Forall (fun item => item <> "") ["a"; "b"; "c"])
  /\ (forall kept,
        fst (Section_getlist ∅ list_config "x" "a" None None (Some true)) = Ok kept ->
        fst (Section_getlist ∅ list_config "x" "a" None None (Some false))
        = Ok (filter_nonempty kept)).
Proof.
  apply (getlist_elements_are_trimmed ∅ list_config "x" "a" None None
           (Some false) "a, b,,c" ["a"; "b"; "c"]).
  - vm_compute. reflexivity.
  - vm_compute. reflexivity.
Defined.

(** ** A forced reparse, twice *)

(** X10.  [parse_if_needed(force=True)] that returns is idempotent on the state:
    made again on the same files it returns the same answer and leaves the
    configuration as the first call left it, the parents included. *)
Theorem forced_reparse_twice
    (fs : filesystem) (config config1 : Configuration) (r : bool) :
  parse_if_needed fs true config = (Ok r, config1) ->
  parse_if_needed fs true config1 = (Ok r, config1).
Proof.
  destruct config as [fn held old ps lm secs cc].
  rewrite parse_if_needed_eq.
  destruct (Text.str_eqb fn "" || negb (os_path.isfile fs fn)) eqn:Hskip.
  - intros [= <- <-]. rewrite parse_if_needed_eq, Hskip. reflexivity.
  - destruct (os_path.getmtime fs fn) as [modtime | e] eqn:Hm; [| discriminate].
    cbn [orb].
    destruct (ConfigParser.read fs fn) as [[files | e] held'] eqn:Hread;
      [| discriminate].
    destruct files as [| f files]; [discriminate |].
    destruct (ConfigParser.get held' "inherit" "file") as [[value | e] |] eqn:Hg;
      try discriminate;
      (destruct (build_parents _ _ _) as [[[] | e'] built] eqn:Hb; [| discriminate]);
      intros [= <- <-];
      rewrite parse_if_needed_eq, Hskip, Hm; cbn [orb]; rewrite Hread, Hg, Hb;
      reflexivity.
Qed.

Lemma forced_reparse_twice_witness :
  parse_if_needed fs_inherit true (snd (parse_if_needed fs_inherit true child_read))
  = (Ok true, snd (parse_if_needed fs_inherit true child_read)).
Proof.
  apply (forced_reparse_twice fs_inherit child_read).
  vm_compute. reflexivity.
Defined.

(** ** The listing of the sections *)

Lemma ascii_compare_eq a b : Ascii.compare a b = Eq -> a = b.
Proof. apply Ascii.compare_eq_iff. Qed.

Lemma str_compare_trans_le a : forall b c,
  String.compare a b <> Gt -> String.compare b c <> Gt -> String.compare a c <> Gt.
Proof.
  induction a as [| x a IH]; intros [| y b] [| z c]; cbn [String.compare];
    try congruence.
  unfold Ascii.compare.
  destruct (N.compare_spec (N_of_ascii x) (N_of_ascii y)) as [Hxy | Hxy | Hxy];
    destruct (N.compare_spec (N_of_ascii y) (N_of_ascii z)) as [Hyz | Hyz | Hyz];
    destruct (N.compare_spec (N_of_ascii x) (N_of_ascii z)) as [Hxz | Hxz | Hxz];
    try congruence; try lia; intros H1 H2.
  apply (IH b c); assumption.
Qed.

#[global] Instance str_le_trans : Transitive str_le.
Proof.
  intros a b c. unfold str_le, String.leb. intros H1 H2.
  pose proof (str_compare_trans_le a b c) as H.
  destruct (String.compare a b); try discriminate;
    destruct (String.compare b c); try discriminate;
    destruct (String.compare a c); try reflexivity;
    exfalso; apply H; congruence.
Qed.

#[global] Instance str_le_total : Total str_le.
Proof. intros a b. unfold str_le. apply String.leb_total. Qed.

Lemma sorted_spec (s : gset string) :
  (forall x, x ∈ sorted s <-> x ∈ s)
  /\ StronglySorted str_le (sorted s)
  /\ NoDup (sorted s).
Proof.
  unfold sorted. split; [| split].
  - intros x. rewrite merge_sort_Permutation. apply elem_of_elements.
  - apply StronglySorted_merge_sort; apply _.
  - rewrite merge_sort_Permutation. apply NoDup_elements.
Qed.

Lemma Configuration_sections_eq registry compmgr fn held old ps lm secs cc defaults :
  Configuration_sections registry compmgr
    (mkConfiguration fn held old ps lm secs cc) defaults
  = sorted (if defaults
            then parent_sections registry compmgr ps
                   (list_to_set (List.map to_unicode (elements (dom held))))
                 ∪ dom (Configuration_defaults compmgr registry)
            else parent_sections registry compmgr ps
                   (list_to_set (List.map to_unicode (elements (dom held))))).
Proof.
  cbn [Configuration_sections].
  replace ((fix loop (l : list Configuration) (sections : gset string)
              : gset string :=
              match l with
              | [] => sections
              | parent :: rest =>
                  loop rest
                    (sections
                     ∪ list_to_set
                         (Configuration_sections registry compmgr parent false))
              end) ps (list_to_set (List.map to_unicode (elements (dom held)))))
    with (parent_sections registry compmgr ps
            (list_to_set (List.map to_unicode (elements (dom held)))));
    [reflexivity |].
  generalize (list_to_set (List.map to_unicode (elements (dom held))) : gset string).
  induction ps as [| p ps IH]; intros acc; [reflexivity |].
  cbn [parent_sections]. apply IH.
Qed.

Lemma own_sections (held : parsed) name :
  name ∈ (list_to_set (List.map to_unicode (elements (dom held))) : gset string)
  <-> is_Some (held !! name).
Proof.
  rewrite elem_of_list_to_set. unfold to_unicode.
  rewrite List.map_id, elem_of_elements. apply elem_of_dom.
Qed.

Lemma section_in_tree_eq fn held old ps lm secs cc name :
  section_in_tree (mkConfiguration fn held old ps lm secs cc) name
  <-> is_Some (held !! name) \/ Exists (fun p => section_in_tree p name) ps.
Proof.
  cbn [section_in_tree].
  assert (H : (fix some (l : list Configuration) : Prop :=
                 match l with
                 | [] => False
                 | parent :: rest => section_in_tree parent name \/ some rest
                 end) ps
              <-> Exists (fun p => section_in_tree p name) ps).
  { induction ps as [| p ps IH].
    - split; [intros [] | intros H; inversion H].
    - rewrite Exists_cons, IH. reflexivity. }
  rewrite H. reflexivity.
Qed.

Lemma parent_sections_spec registry compmgr name ps :
  Forall (fun p => name ∈ Configuration_sections registry compmgr p false
                   <-> section_in_tree p name) ps ->
  forall acc : gset string,
    name ∈ parent_sections registry compmgr ps acc
    <-> name ∈ acc \/ Exists (fun p => section_in_tree p name) ps.
Proof.
  induction 1 as [| p ps Hp _ IH]; intros acc.
  - cbn [parent_sections]. rewrite Exists_nil. tauto.
  - cbn [parent_sections]. rewrite IH, Exists_cons, elem_of_union,
      elem_of_list_to_set, Hp. tauto.
Qed.

(** [defaults()[section][key]] is the default of the option registered
    for [(section, key)], and no section of [defaults()] is empty. *)
Lemma defaults_spec compmgr registry :
  (forall section key,
     Configuration_defaults compmgr registry !! section ≫= (.!! key)
     = option_default <$> Option_get_registry compmgr registry !! (section, key))
  /\ (forall section d,
        Configuration_defaults compmgr registry !! section = Some d -> d <> ∅).
Proof.
  unfold Configuration_defaults.
  generalize (Option_get_registry compmgr registry). intros m.
  apply (map_fold_weak_ind
           (fun (b : gmap string (gmap string Value)) (m : Registry) =>
              (forall section key,
                 b !! section ≫= (.!! key) = option_default <$> m !! (section, key))
              /\ (forall section d, b !! section = Some d -> d <> ∅))).
  - split.
    + intros section key. rewrite !lookup_empty. reflexivity.
    + intros section d H. rewrite lookup_empty in H. discriminate.
  - intros [s0 k0] x m' r Hfresh [IH1 IH2]. cbn [fst snd]. split.
    + intros section key.
      destruct (decide (section = s0)) as [-> | Hs].
      * rewrite lookup_insert_eq. cbn.
        destruct (decide (key = k0)) as [-> | Hk].
        -- rewrite !lookup_insert_eq. reflexivity.
        -- rewrite !lookup_insert_ne by congruence.
           rewrite <- IH1. destruct (r !! s0); reflexivity.
      * rewrite !lookup_insert_ne by congruence. apply IH1.
    + intros section d.
      destruct (decide (section = s0)) as [-> | Hs].
      * rewrite lookup_insert_eq. intros [= <-]. apply insert_non_empty.
      * rewrite lookup_insert_ne by congruence. apply IH2.
Qed.

Lemma defaults_dom compmgr registry name :
  name ∈ dom (Configuration_defaults compmgr registry)
  <-> exists key opt, Option_get_registry compmgr registry !! (name, key) = Some opt.
Proof.
  destruct (defaults_spec compmgr registry) as [H1 H2].
  rewrite elem_of_dom. split.
  - intros [d Hd]. specialize (H2 _ _ Hd).
    destruct (map_choose d H2) as (key & v & Hv).
    specialize (H1 name key). rewrite Hd in H1. cbn in H1. rewrite Hv in H1.
    destruct (Option_get_registry compmgr registry !! (name, key)) as [opt |] eqn:E;
      [eauto | discriminate].
  - intros (key & opt & Hreg). specialize (H1 name key). rewrite Hreg in H1.
    destruct (Configuration_defaults compmgr registry !! name); [eauto | discriminate].
Qed.

Lemma sections_without_defaults registry compmgr config name :
  name ∈ Configuration_sections registry compmgr config false
  <-> section_in_tree config name.
Proof.
  induction config as [fn held old ps lm secs cc IH] using Configuration_nested_ind.
  rewrite Configuration_sections_eq, section_in_tree_eq.
  destruct (sorted_spec (parent_sections registry compmgr ps
              (list_to_set (List.map to_unicode (elements (dom held))))))
    as [Hin _].
  rewrite Hin, parent_sections_spec by exact IH. rewrite own_sections. reflexivity.
Qed.

Lemma has_option_section registry config section opt :
  Configuration_has_option registry config section opt false = true ->
  section_in_tree config section.
Proof.
  induction config as [fn held old ps lm secs cc IH] using Configuration_nested_ind.
  rewrite Configuration_has_option_eq, section_in_tree_eq.
  unfold ConfigParser.in_options, ConfigParser.has_section.
  destruct (held !! section) as [sec |] eqn:E; [intros _; left; eauto |].
  cbn [andb].
  intros H. right. induction IH as [| p ps Hp _ IHps]; [discriminate |].
  cbn [any_parent_has_option] in H. rewrite Exists_cons.
  destruct (Configuration_has_option registry p section opt false);
    [left; apply Hp; reflexivity |].
  right. apply IHps, H.
Qed.

Lemma has_option_with_defaults registry config section opt :
  Configuration_has_option registry config section opt true
  = Configuration_has_option registry config section opt false
    || is_some (registry !! (section, opt)).
Proof.
  destruct config as [fn held old ps lm secs cc].
  rewrite !Configuration_has_option_eq.
  destruct (ConfigParser.in_options held section opt); [reflexivity |].
  destruct (any_parent_has_option registry section opt ps); [reflexivity |].
  destruct (registry !! (section, opt)); reflexivity.
Qed.

(** X12.  [sections()] lists, in increasing order and without repetition, the
    sections some file of the inheritance tree has and, unless
    [defaults=False], the sections of the registered options that the
    component manager keeps.  It lists the section of every option that
    [has_option] reports, and [name in config] is membership in that
    list. *)
Theorem sections_are_sorted_and_complete :
  (forall registry compmgr config defaults name,
     name ∈ Configuration_sections registry compmgr config defaults
     <-> section_in_tree config name
         \/ (defaults = true
             /\ exists key opt,
                  Option_get_registry compmgr registry !! (name, key) = Some opt))
  /\ (forall registry compmgr config defaults,
        StronglySorted str_le (Configuration_sections registry compmgr config defaults)
        /\ NoDup (Configuration_sections registry compmgr config defaults))
  /\ (forall registry config section opt,
        Configuration_has_option registry config section opt true = true ->
        Configuration_contains registry config section = true)
  /\ (forall registry compmgr config name,
        name ∈ Configuration_sections registry compmgr config true ->
        name ∈ Configuration_sections registry None config true).
Proof.
  assert (Hmem : forall registry compmgr config defaults name,
     name ∈ Configuration_sections registry compmgr config defaults
     <-> section_in_tree config name
         \/ (defaults = true
             /\ exists key opt,
                  Option_get_registry compmgr registry !! (name, key) = Some opt)).
  { intros registry compmgr config defaults name.
    destruct defaults.
    - destruct config as [fn held old ps lm secs cc].
      pose proof (sections_without_defaults registry compmgr
                    (mkConfiguration fn held old ps lm secs cc) name) as Hno.
      rewrite Configuration_sections_eq in Hno |- *.
      match goal with
      | |- context [sorted ?s] => destruct (sorted_spec s) as [Hin _]
      end.
      match type of Hno with
      | context [sorted ?s] => destruct (sorted_spec s) as [Hin' _]
      end.
      rewrite Hin' in Hno. rewrite Hin, elem_of_union, Hno, defaults_dom.
      intuition.
    - rewrite sections_without_defaults. intuition. discriminate. }
  split; [exact Hmem | split; [| split]].
  - intros registry compmgr [fn held old ps lm secs cc] defaults.
    rewrite Configuration_sections_eq.
    match goal with
    | |- context [sorted ?s] => destruct (sorted_spec s) as (_ & H1 & H2)
    end.
    split; assumption.
  - intros registry config section opt Hhas.
    unfold Configuration_contains. apply bool_decide_eq_true. apply Hmem.
    rewrite has_option_with_defaults in Hhas.
    destruct (Configuration_has_option registry config section opt false) eqn:E.
    + left. eapply has_option_section, E.
    + right. split; [reflexivity |]. cbn [Option_get_registry].
      destruct (registry !! (section, opt)) as [o |] eqn:Ereg;
        [exists opt, o; exact Ereg | discriminate].
  - intros registry compmgr config name H. apply Hmem in H. apply Hmem.
    destruct H as [H | [_ (key & opt & H)]]; [left; exact H |].
    right. split; [reflexivity |]. exists key, opt.
    destruct compmgr as [keeps |]; [| exact H].
    cbn [Option_get_registry] in *.
    apply map_lookup_filter_Some in H. apply H.
Qed.

Example sections_examples :
  Configuration_sections {[ ("b", "k") := mkOption "b" "k" VNone "";
                            ("a", "k") := mkOption "a" "k" VNone "" ]}
    None child_parsed true = ["a"; "b"; "inherit"; "x"]
  /\ Configuration_sections {[ ("b", "k") := mkOption "b" "k" VNone "";
                               ("a", "k") := mkOption "a" "k" VNone "" ]}
       (Some (fun each => Text.str_eqb (fst (fst each)) "a")) child_parsed true
     = ["a"; "inherit"; "x"]
  /\ Configuration_sections {[ ("b", "k") := mkOption "b" "k" VNone "" ]}
       None child_parsed false = ["inherit"; "x"].
Proof. vm_compute. repeat split. Qed.

(** ** The monitor between changes *)

Lemma has_changed_cases w seen filename :
  (exists e, os_path.getmtime (files w) filename = Raise e
             /\ has_changed w seen filename = (Raise e, seen))
  \/ (exists f, files w !! filename = Some f
                /\ recorded seen filename < mtime f
                /\ has_changed w seen filename
                   = (Ok true, <[filename := mtime f]> seen))
  \/ (exists f, files w !! filename = Some f
                /\ mtime f <= recorded seen filename
                /\ has_changed w seen filename = (Ok false, seen)).
Proof.
  unfold has_changed, os_path.getmtime.
  destruct (files w !! filename) as [f |] eqn:E.
  - right. destruct (recorded seen filename <? mtime f) eqn:Hlt.
    + left. exists f. apply Z.ltb_lt in Hlt. auto.
    + right. exists f. apply Z.ltb_ge in Hlt. auto.
  - left. eauto.
Qed.

Lemma recorded_insert seen filename t F :
  recorded (<[filename := t]> seen) F
  = if decide (F = filename) then t else recorded seen F.
Proof.
  unfold recorded. destruct (decide (F = filename)) as [-> | Hne].
  - rewrite lookup_insert_eq. reflexivity.
  - rewrite lookup_insert_ne by congruence. reflexivity.
Qed.

Lemma has_changed_mono w seen filename r seen' F :
  has_changed w seen filename = (r, seen') ->
  recorded seen F <= recorded seen' F.
Proof.
  destruct (has_changed_cases w seen filename)
    as [(e & _ & ->) | [(f & _ & Hlt & ->) | (f & _ & _ & ->)]];
    intros [= <- <-]; try lia.
  rewrite recorded_insert. destruct (decide (F = filename)) as [-> | _]; lia.
Qed.

Lemma monitor_mono w seen filename plugins r seen' plugins' log F :
  monitor w seen filename plugins = (r, seen', plugins', log) ->
  recorded seen F <= recorded seen' F.
Proof.
  unfold monitor.
  destruct (has_changed w seen filename) as [[[] | e] seen1] eqn:E.
  - destruct (reload_each w plugins) as [[r1 plugins1] log1].
    intros [= <- <- <- <-]. eapply has_changed_mono, E.
  - intros [= <- <- <- <-]. eapply has_changed_mono, E.
  - intros [= <- <- <- <-]. eapply has_changed_mono, E.
Qed.

Lemma monitor_each_mono w l F :
  forall seen r seen' l' log,
    monitor_each w seen l = (r, seen', l', log) ->
    recorded seen F <= recorded seen' F.
Proof.
  induction l as [| [filename plugins] rest IH]; intros seen r seen' l' log.
  - intros [= <- <- <- <-]. lia.
  - cbn [monitor_each].
    destruct (monitor w seen filename plugins) as [[[[[] | e] seen1] plugins1] log1] eqn:E.
    + destruct (monitor_each w seen1 rest) as [[[r2 seen2] rest2] log2] eqn:E2.
      intros [= <- <- <- <-].
      pose proof (monitor_mono _ _ _ _ _ _ _ _ F E).
      pose proof (IH _ _ _ _ _ E2). lia.
    + intros [= <- <- <- <-]. eapply monitor_mono, E.
Qed.

Lemma monitor_each_keys w l :
  forall seen r seen' l' log,
    monitor_each w seen l = (r, seen', l', log) ->
    List.map fst l' = List.map fst l.
Proof.
  induction l as [| [filename plugins] rest IH]; intros seen r seen' l' log.
  - intros [= <- <- <- <-]. reflexivity.
  - cbn [monitor_each].
    destruct (monitor w seen filename plugins) as [[[[[] | e] seen1] plugins1] log1].
    + destruct (monitor_each w seen1 rest) as [[[r2 seen2] rest2] log2] eqn:E2.
      intros [= <- <- <- <-]. cbn [List.map fst]. f_equal. eapply IH, E2.
    + intros [= <- <- <- <-]. reflexivity.
Qed.

Lemma reload_each_no_modified w plugins F :
  ~ In (Modified F) (snd (reload_each w plugins)).
Proof.
  induction plugins as [| p rest IH]; [intros [] |].
  cbn [reload_each].
  assert (Hreload : ~ In (Modified F) (snd (reload w p))).
  { unfold reload. destruct (instance p) as [[| config | |] |]; cbn.
    - destruct (rebind w (plugin_module p) (plugin_class p)); cbn;
        intuition discriminate.
    - destruct (parse_if_needed (files w) true config). cbn. intuition discriminate.
    - intros [].
    - intros [].
    - intuition discriminate. }
  destruct (reload w p) as [[[[] | e] p'] log]; cbn [snd] in *.
  - destruct (reload_each w rest) as [[r rest'] log']. cbn [snd] in *.
    intros [H | H]; [discriminate |].
    apply List.in_app_or in H. tauto.
  - intros [H | H]; [discriminate | tauto].
Qed.

Lemma monitor_modified w seen filename plugins r seen' plugins' log F :
  monitor w seen filename plugins = (r, seen', plugins', log) ->
  In (Modified F) log ->
  F = filename
  /\ exists f, files w !! F = Some f /\ recorded seen F < mtime f.
Proof.
  unfold monitor.
  destruct (has_changed_cases w seen filename)
    as [(e & _ & ->) | [(f & Hf & Hlt & ->) | (f & _ & _ & ->)]].
  - intros [= <- <- <- <-] [].
  - pose proof (reload_each_no_modified w plugins F) as Hno.
    destruct (reload_each w plugins) as [[r1 plugins1] log1]. cbn [snd] in Hno.
    intros [= <- <- <- <-] [H | H]; [| tauto].
    injection H as <-. split; [reflexivity | eauto].
  - intros [= <- <- <- <-] [].
Qed.

Lemma monitor_each_modified w l F :
  forall seen r seen' l' log,
    monitor_each w seen l = (r, seen', l', log) ->
    In (Modified F) log ->
    In F (List.map fst l)
    /\ exists f, files w !! F = Some f /\ recorded seen F < mtime f.
Proof.
  induction l as [| [filename plugins] rest IH]; intros seen r seen' l' log.
  - intros [= <- <- <- <-] [].
  - cbn [monitor_each].
    destruct (monitor w seen filename plugins) as [[[[[] | e] seen1] plugins1] log1] eqn:E.
    + destruct (monitor_each w seen1 rest) as [[[r2 seen2] rest2] log2] eqn:E2.
      intros [= <- <- <- <-] H. apply List.in_app_or in H. destruct H as [H | H].
      * destruct (monitor_modified _ _ _ _ _ _ _ _ F E H) as [-> Hf].
        split; [left; reflexivity | exact Hf].
      * destruct (IH _ _ _ _ _ E2 H) as [Hin (f & Hf & Hlt)].
        split; [right; exact Hin |].
        exists f. split; [exact Hf |].
        pose proof (monitor_mono _ _ _ _ _ _ _ _ F E). lia.
    + intros [= <- <- <- <-] H.
      destruct (monitor_modified _ _ _ _ _ _ _ _ F E H) as [-> Hf].
      split; [left; reflexivity | exact Hf].
Qed.

Lemma tick_log w m :
  snd (tick w m)
  = match fst (fst (fst (monitor_each w (mtimes m) (monitoring m)))) with
    | None => snd (monitor_each w (mtimes m) (monitoring m))
    | Some (filename, e) =>
        (snd (monitor_each w (mtimes m) (monitoring m))
           ++ [ErrorReloading filename e])%list
    end.
Proof.
  unfold tick.
  destruct (monitor_each w (mtimes m) (monitoring m)) as [[[[[filename e] |] seen] l] log];
    reflexivity.
Qed.

(** X14.  A tick reports a file as modified only if the file is watched, exists
    and is newer than the time the monitor recorded for it. *)
Theorem modified_means_newer
    (w : world) (m : PluginMonitorThread) (F : string) :
  In (Modified F) (snd (tick w m)) ->
  In F (List.map fst (monitoring m))
  /\ exists f, files w !! F = Some f /\ recorded (mtimes m) F < mtime f.
Proof.
  rewrite tick_log.
  destruct (monitor_each w (mtimes m) (monitoring m)) as [[[r seen] l] log] eqn:E.
  cbn [fst snd]. intros H.
  apply (monitor_each_modified w (monitoring m) F _ _ _ _ _ E).
  destruct r as [[filename e] |]; [| exact H].
  apply List.in_app_or in H. destruct H as [H | [H | []]]; [exact H | discriminate].
Qed.

Lemma modified_means_newer_witness :
  In "A" (List.map fst (monitoring two_watched))
  /\ exists f, files (world_at 2) !! "A" = Some f
               /\ recorded (mtimes two_watched) "A" < mtime f.
Proof.
  apply (modified_means_newer (world_at 2) two_watched "A").
  vm_compute. left. reflexivity.
Defined.

Lemma monitor_each_quiet w l :
  forall seen,
    (forall F, In F (List.map fst l) ->
               exists f, files w !! F = Some f /\ mtime f <= recorded seen F) ->
    monitor_each w seen l = (None, seen, l, []).
Proof.
  induction l as [| [filename plugins] rest IH]; intros seen H; [reflexivity |].
  cbn [monitor_each]. unfold monitor.
  destruct (H filename) as (f & Hf & Hle); [left; reflexivity |].
  destruct (has_changed_cases w seen filename)
    as [(e & He & _) | [(f' & Hf' & Hlt & _) | (f' & _ & _ & ->)]].
  - unfold os_path.getmtime in He. rewrite Hf in He. discriminate.
  - rewrite Hf in Hf'. injection Hf' as <-. lia.
  - rewrite IH; [reflexivity |]. intros F HF. apply H. right. exact HF.
Qed.

Lemma monitor_each_settled w l :
  forall seen seen' l' log,
    monitor_each w seen l = (None, seen', l', log) ->
    forall F, In F (List.map fst l) ->
              exists f, files w !! F = Some f /\ mtime f <= recorded seen' F.
Proof.
  induction l as [| [filename plugins] rest IH]; intros seen seen' l' log.
  - intros _ F [].
  - cbn [monitor_each].
    destruct (monitor w seen filename plugins) as [[[[[] | e] seen1] plugins1] log1] eqn:E;
      [| discriminate].
    destruct (monitor_each w seen1 rest) as [[[r2 seen2] rest2] log2] eqn:E2.
    intros [= -> <- <- <-] F [<- | HF].
    + cbn [fst].
      assert (exists f, files w !! filename = Some f /\ mtime f <= recorded seen1 filename)
        as (f & Hf & Hle).
      { unfold monitor in E.
        destruct (has_changed_cases w seen filename)
          as [(e & _ & Hc) | [(f & Hf & Hlt & Hc) | (f & Hf & Hle & Hc)]];
          rewrite Hc in E.
        - discriminate.
        - destruct (reload_each w plugins) as [[r1 p1] l1].
          injection E as _ <- _ _. exists f. split; [exact Hf |].
          rewrite recorded_insert, decide_True by reflexivity. lia.
        - injection E as <- _ _. eauto. }
      exists f. split; [exact Hf |].
      pose proof (monitor_each_mono _ _ filename _ _ _ _ _ E2). lia.
    + eapply IH; eassumption.
Qed.

(** X15.  Once a tick has gone through the whole watch list without an error,
    the next tick on the same files finds nothing to do: it logs nothing
    and leaves the monitor as it is. *)
Theorem tick_settles (w : world) (m : PluginMonitorThread) :
  (forall filename e, ~ In (ErrorReloading filename e) (snd (tick w m))) ->
  tick w (fst (tick w m)) = (fst (tick w m), []).
Proof.
  rewrite tick_log. unfold tick at 2 3.
  destruct (monitor_each w (mtimes m) (monitoring m)) as [[[r seen] l] log] eqn:E.
  cbn [fst snd]. intros Hno.
  destruct r as [[filename e] |].
  { exfalso. apply (Hno filename e). apply List.in_or_app. right. left. reflexivity. }
  unfold tick. cbn [mtimes monitoring].
  rewrite monitor_each_quiet; [reflexivity |].
  intros F HF. rewrite (monitor_each_keys _ _ _ _ _ _ _ E) in HF.
  eapply monitor_each_settled; eassumption.
Qed.

Lemma tick_settles_witness :
  tick (world_at 2) (fst (tick (world_at 2) (fst (tick (world_at 2) two_watched))))
  = (fst (tick (world_at 2) (fst (tick (world_at 2) two_watched))), []).
Proof.
  apply (tick_settles (world_at 2) (fst (tick (world_at 2) two_watched))).
  intros filename e. vm_compute. intros [H | [H | [H | []]]]; discriminate.
Defined.

(** ** The monitor at start-up and after a file has vanished *)

Lemma initial_mtimes_spec fs names :
  forall seen0 seen,
    initial_mtimes fs names seen0 = Ok seen ->
    forall F,
      In F names \/ (exists f, fs !! F = Some f /\ seen0 !! F = Some (mtime f)) ->
      exists f, fs !! F = Some f /\ seen !! F = Some (mtime f).
Proof.
  induction names as [| a rest IH]; intros seen0 seen.
  - intros [= <-] F [[] | H]. exact H.
  - cbn [initial_mtimes]. unfold os_path.getmtime.
    destruct (fs !! a) as [fa |] eqn:Ea; [| discriminate].
    intros Hrest F HF. apply (IH _ _ Hrest).
    destruct (decide (F = a)) as [-> | Hne].
    + right. exists fa. rewrite lookup_insert_eq. auto.
    + destruct HF as [[-> | HF] | (f & Hf & Hs)]; [congruence | left; exact HF |].
      right. exists f. rewrite lookup_insert_ne by congruence. auto.
Qed.

Lemma initial_mtimes_ok fs names :
  forall seen0,
    (exists seen, initial_mtimes fs names seen0 = Ok seen)
    <-> forall F, In F names -> os_path.isfile fs F = true.
Proof.
  induction names as [| a rest IH]; intros seen0.
  - split; [intros _ F [] | eauto].
  - cbn [initial_mtimes]. unfold os_path.getmtime, os_path.isfile in *.
    destruct (fs !! a) as [fa |] eqn:Ea.
    + rewrite IH. split.
      * intros H F [<- | HF]; [rewrite Ea; reflexivity | apply H, HF].
      * intros H F HF. apply H. right. exact HF.
    + split; [intros [seen H]; discriminate |].
      intros H. specialize (H a (or_introl eq_refl)). rewrite Ea in H. discriminate.
Qed.

(** X16.  The monitor can be constructed exactly when every watched file exists;
    and the first tick after construction, the files being as they were,
    reports nothing and changes nothing. *)
Theorem fresh_monitor_is_quiet :
  (forall fs watched,
     (exists m, PluginMonitorThread_init fs watched = Ok m)
     <-> forall F, In F (List.map fst watched) -> os_path.isfile fs F = true)
  /\ (forall fs watched m reload_module patch,
        PluginMonitorThread_init fs watched = Ok m ->
        monitoring m = watched
        /\ tick (mkWorld fs reload_module patch) m = (m, [])).
Proof.
  split.
  - intros fs watched. rewrite <- (initial_mtimes_ok fs (List.map fst watched) ∅).
    unfold PluginMonitorThread_init.
    destruct (initial_mtimes fs (List.map fst watched) ∅) as [seen | e];
      split; intros [x H]; try discriminate; eauto.
  - intros fs watched m reload_module patch. unfold PluginMonitorThread_init.
    destruct (initial_mtimes fs (List.map fst watched) ∅) as [seen | e] eqn:E;
      [| discriminate].
    intros [= <-]. split; [reflexivity |].
    unfold tick. cbn [mtimes monitoring].
    rewrite monitor_each_quiet; [reflexivity |].
    intros F HF. cbn [files].
    destruct (initial_mtimes_spec _ _ _ _ E F (or_introl HF)) as (f & Hf & Hs).
    exists f. split; [exact Hf |]. unfold recorded. rewrite Hs. lia.
Qed.

Example fresh_monitor_examples :
  PluginMonitorThread_init (files (world_at 2)) (monitoring two_watched)
  = Ok (mkMonitor {[ "A" := 2; "B" := 2 ]} (monitoring two_watched))
  /\ PluginMonitorThread_init (delete "B" (files (world_at 2))) (monitoring two_watched)
     = Raise (OSError "B").
Proof. vm_compute. split; reflexivity. Qed.

Lemma tick_at_vanished_file w m before F pf after :
  monitoring m = (before ++ (F, pf) :: after)%list ->
  files w !! F = None ->
  exists before',
    monitoring (fst (tick w m)) = (before' ++ (F, pf) :: after)%list
    /\ List.map fst before' = List.map fst before
    /\ (exists filename e, last (snd (tick w m)) = Some (ErrorReloading filename e))
    /\ forall B, ~ In B (List.map fst before) ->
                 ~ In (Modified B) (snd (tick w m))
                 /\ mtimes (fst (tick w m)) !! B = mtimes m !! B.
Proof.
  intros Hm HF. unfold tick. rewrite Hm, monitor_each_app.
  destruct (monitor_each w (mtimes m) before) as [[[r1 seen1] before'] log1] eqn:E1.
  pose proof (monitor_each_keys _ _ _ _ _ _ _ E1) as Hkeys.
  assert (Hlog1 : forall B, ~ In B (List.map fst before) -> ~ In (Modified B) log1).
  { intros B HB Hin.
    destruct (monitor_each_modified _ _ B _ _ _ _ _ E1 Hin) as [Hk _]. tauto. }
  pose proof (monitor_each_frame _ _ _ _ _ _ _ E1) as Hframe.
  destruct r1 as [[filename e] |].
  - exists before'. cbn [fst snd monitoring mtimes]. repeat split.
    + exact Hkeys.
    + exists filename, e. apply last_snoc.
    + intros Hin. apply List.in_app_or in Hin.
      destruct Hin as [Hin | [Hin | []]]; [eapply Hlog1; eassumption | discriminate].
    + apply Hframe. assumption.
  - cbn [monitor_each]. unfold monitor, has_changed, os_path.getmtime.
    rewrite HF. exists before'. cbn [fst snd monitoring mtimes]. repeat split.
    + exact Hkeys.
    + exists F, (OSError F). rewrite app_nil_r. apply last_snoc.
    + rewrite app_nil_r. intros Hin. apply List.in_app_or in Hin.
      destruct Hin as [Hin | [Hin | []]]; [eapply Hlog1; eassumption | discriminate].
    + apply Hframe. assumption.
Qed.

(** X17.  A watched file that has vanished blocks what is listed after it: as
    long as it stays away, every tick ends in the error handler, no file
    listed after it is ever reported as modified, and the recorded times
    and the dependents of those files stay as they are. *)
Theorem vanished_file_blocks_the_rest
    (ws : list world) (m : PluginMonitorThread) (before after : list (string * list plugin))
    (F : string) (pf : list plugin) :
  monitoring m = (before ++ (F, pf) :: after)%list ->
  Forall (fun w => files w !! F = None) ws ->
  Forall (fun log => exists filename e,
                       last log = Some (ErrorReloading filename e))
    (snd (run ws m))
  /\ (exists before',
        monitoring (fst (run ws m)) = (before' ++ (F, pf) :: after)%list
        /\ List.map fst before' = List.map fst before)
  /\ forall B, ~ In B (List.map fst before) ->
               Forall (fun log => ~ In (Modified B) log) (snd (run ws m))
               /\ mtimes (fst (run ws m)) !! B = mtimes m !! B.
Proof.
  intros Hm Hws. revert m before Hm.
  induction Hws as [| w ws Hw _ IH]; intros m before Hm.
  - cbn [run fst snd]. split; [constructor | split].
    + exists before. auto.
    + intros B _. split; [constructor | reflexivity].
  - cbn [run].
    destruct (tick_at_vanished_file w m before F pf after Hm Hw)
      as (before1 & Hm1 & Hk1 & Herr & Hrest).
    destruct (tick w m) as [m1 log1]. cbn [fst snd] in *.
    destruct (IH m1 before1 Hm1) as (Herrs & (before2 & Hm2 & Hk2) & Hrest2).
    destruct (run ws m1) as [m2 logs]. cbn [fst snd] in *.
    split; [constructor; assumption | split].
    + exists before2. split; [exact Hm2 | congruence].
    + intros B HB. destruct (Hrest B HB) as [Hno Hsame].
      destruct (Hrest2 B) as [Hnos Hsame2]; [rewrite Hk1; exact HB |].
      split; [constructor; assumption | congruence].
Qed.

Lemma vanished_file_blocks_the_rest_witness :
  Forall (fun log => exists filename e,
                       last log = Some (ErrorReloading filename e))
    (snd (run [working_world {[ "B" := mkFile 9 (Parsed ∅) ]};
               working_world {[ "B" := mkFile 10 (Parsed ∅) ]}]
            two_watched))
  /\ (exists before',
        monitoring (fst (run [working_world {[ "B" := mkFile 9 (Parsed ∅) ]};
                              working_world {[ "B" := mkFile 10 (Parsed ∅) ]}]
                           two_watched))
        = (before' ++ ("A", [mkPlugin "modA" "HandlerA" (Some MenuItemHandler)])
             :: [("B", [mkPlugin "modB" "HandlerB" (Some MenuItemHandler)])])%list
        /\ List.map fst before'
           = List.map fst ([] : list (string * list plugin)))
  /\ forall B, ~ In B (List.map fst ([] : list (string * list plugin))) ->
               Forall (fun log => ~ In (Modified B) log)
                 (snd (run [working_world {[ "B" := mkFile 9 (Parsed ∅) ]};
                            working_world {[ "B" := mkFile 10 (Parsed ∅) ]}]
                         two_watched))
               /\ mtimes (fst (run [working_world {[ "B" := mkFile 9 (Parsed ∅) ]};
                                    working_world {[ "B" := mkFile 10 (Parsed ∅) ]}]
                                 two_watched)) !! B
                  = mtimes two_watched !! B.
Proof.
  apply (vanished_file_blocks_the_rest
           [working_world {[ "B" := mkFile 9 (Parsed ∅) ]};
            working_world {[ "B" := mkFile 10 (Parsed ∅) ]}]
           two_watched [] [("B", [mkPlugin "modB" "HandlerB" (Some MenuItemHandler)])]
           "A" [mkPlugin "modA" "HandlerA" (Some MenuItemHandler)]).
  - reflexivity.
  - repeat constructor.
Defined.

Example vanished_file_example :
  snd (run [working_world {[ "B" := mkFile 9 (Parsed ∅) ]};
            working_world {[ "B" := mkFile 10 (Parsed ∅) ]}]
         two_watched)
  = [ [ErrorReloading "A" (OSError "A")]; [ErrorReloading "A" (OSError "A")] ].
Proof. vm_compute. reflexivity. Qed.

(** ** A configuration reloaded by the monitor *)




(** ** The defaults of the registry *)

(** X13.  [defaults()[section][key]] is the default of the option registered
    for [(section, key)], for the options the component manager keeps; a
    section is listed if and only if some kept option belongs to it; and
    with a component manager the result is part of what it is without. *)
Theorem defaults_hold_the_registered_defaults :
  (forall compmgr registry section key,
     Configuration_defaults compmgr registry !! section ≫= (.!! key)
     = option_default <$> Option_get_registry compmgr registry !! (section, key))
  /\ (forall compmgr registry section,
        is_Some (Configuration_defaults compmgr registry !! section)
        <-> exists key opt,
              Option_get_registry compmgr registry !! (section, key) = Some opt)
  /\ (forall registry section key opt,
        Option_get_registry None registry !! (section, key) = Some opt
        <-> registry !! (section, key) = Some opt)
  /\ (forall keeps registry section key opt,
        Option_get_registry (Some keeps) registry !! (section, key) = Some opt
        <-> registry !! (section, key) = Some opt
            /\ keeps (section, key, opt) = true).
Proof.
  split; [| split; [| split]].
  - intros compmgr registry. apply defaults_spec.
  - intros compmgr registry section. rewrite <- elem_of_dom. apply defaults_dom.
  - reflexivity.
  - intros keeps registry section key opt. cbn [Option_get_registry].
    rewrite map_lookup_filter_Some. reflexivity.
Qed.

(** ** Inherited files of a configuration given by an absolute path *)

Lemma isabs_cons path :
  os_path.isabs path = true <-> exists rest, path = String "/" rest.
Proof.
  unfold os_path.isabs. destruct path as [| a rest]; cbn [Text.startswith].
  - split; [discriminate | intros [rest H]; discriminate].
  - destruct (Ascii.eqb "/" a) eqn:E.
    + apply Ascii.eqb_eq in E. subst a. split; eauto.
    + split; [discriminate |]. intros [rest' [= -> _]].
      rewrite Ascii.eqb_refl in E. discriminate.
Qed.

Lemma rstrip_slashes_empty p :
  os_path.rstrip_slashes p = "" -> os_path.all_slashes p = true.
Proof.
  induction p as [| a p IH]; [reflexivity |].
  cbn [os_path.rstrip_slashes os_path.all_slashes].
  destruct (os_path.rstrip_slashes p); [| discriminate].
  destruct (Ascii.eqb a "/"); [| discriminate].
  intros _. apply IH. reflexivity.
Qed.

Lemma dirname_absolute path :
  os_path.isabs path = true -> os_path.isabs (os_path.dirname path) = true.
Proof.
  rewrite !isabs_cons. intros [rest ->]. unfold os_path.dirname.
  assert (Hhead : exists h, os_path.head (String "/" rest) = String "/" h).
  { cbn [os_path.head]. destruct (os_path.head rest); cbn; eauto. }
  destruct Hhead as [h Hh]. rewrite Hh.
  destruct (os_path.all_slashes (String "/" h)) eqn:Hall; [eauto |].
  pose proof (rstrip_slashes_empty h) as Hempty.
  cbn [os_path.rstrip_slashes]. cbn [os_path.all_slashes] in Hall.
  destruct (os_path.rstrip_slashes h); [| eauto].
  rewrite Hempty in Hall by reflexivity. cbn in Hall. discriminate.
Qed.

Lemma join_absolute a b :
  os_path.isabs a = true -> os_path.isabs (os_path.join a b) = true.
Proof.
  intros Ha. unfold os_path.join.
  destruct (Text.startswith "/" b) eqn:Hb; [exact Hb |].
  apply isabs_cons in Ha. destruct Ha as [rest ->].
  destruct (Text.str_eqb (String "/" rest) "" || os_path.endswith_slash (String "/" rest));
    apply isabs_cons; cbn; eauto.
Qed.

Lemma inherit_path_absolute fn entry :
  os_path.isabs fn = true -> os_path.isabs (inherit_path fn entry) = true.
Proof.
  intros Hfn. unfold inherit_path.
  destruct (os_path.isabs (to_unicode (Text.strip_str entry))) eqn:E; [exact E |].
  apply join_absolute, dirname_absolute, Hfn.
Qed.

Lemma absolute_tree_eq fn held old ps lm secs cc :
  absolute_tree (mkConfiguration fn held old ps lm secs cc)
  <-> os_path.isabs fn = true /\ Forall absolute_tree ps.
Proof.
  cbn [absolute_tree].
  assert (H : (fix all (l : list Configuration) : Prop :=
                 match l with
                 | [] => True
                 | parent :: rest => absolute_tree parent /\ all rest
                 end) ps <-> Forall absolute_tree ps).
  { induction ps as [| p ps IH]; [split; constructor |].
    rewrite Forall_cons, IH. reflexivity. }
  rewrite H. reflexivity.
Qed.

Lemma init_absolute fs path config :
  os_path.isabs path = true ->
  Configuration_init fs path = Ok config -> absolute_tree config.
Proof.
  intros Hp. unfold Configuration_init.
  destruct (ConfigParser.read fs path) as [[files | e] held]; [| discriminate].
  intros [= <-]. apply absolute_tree_eq. split; [exact Hp | constructor].
Qed.

Lemma build_parents_absolute fs fn entries :
  os_path.isabs fn = true ->
  forall r built, build_parents fs fn entries = (r, built) ->
                  Forall absolute_tree built.
Proof.
  intros Hfn. induction entries as [| entry rest IH]; intros r built.
  - intros [= <- <-]. constructor.
  - cbn [build_parents].
    destruct (Configuration_init fs (inherit_path fn entry)) as [parent | e] eqn:E.
    + destruct (build_parents fs fn rest) as [r' built'].
      intros [= <- <-]. constructor.
      * eapply init_absolute; [| exact E]. apply inherit_path_absolute, Hfn.
      * eapply IH. reflexivity.
    + intros [= <- <-]. constructor.
Qed.

Lemma visit_parents_absolute fs force ps :
  Forall (fun p => absolute_tree p ->
                   absolute_tree (snd (parse_if_needed fs force p))) ps ->
  Forall absolute_tree ps ->
  forall b0, Forall absolute_tree (snd (visit_parents fs force ps b0)).
Proof.
  induction 1 as [| p ps Hp _ IH]; intros Habs b0; [constructor |].
  apply Forall_cons in Habs. destruct Habs as [Habs1 Habs2].
  cbn [visit_parents]. specialize (Hp Habs1).
  destruct (parse_if_needed fs force p) as [[b | e] p']; cbn [snd] in *.
  - specialize (IH Habs2 (b0 || b)).
    destruct (visit_parents fs force ps (b0 || b)) as [r ps']. cbn [snd] in *.
    constructor; assumption.
  - constructor; assumption.
Qed.

(** X11.  A configuration constructed from an absolute path stays within
    absolute paths: whatever [parse_if_needed] does, and however it ends,
    the files of the parents it leaves are given by absolute paths, a
    relative [inherit.file] entry being resolved against the directory of
    the inheriting file. *)
Theorem parents_are_absolute_paths
    (fs : filesystem) (force : bool) (config : Configuration) :
  absolute_tree config ->
  absolute_tree (snd (parse_if_needed fs force config)).
Proof.
  induction config as [fn held old ps lm secs cc IH] using Configuration_nested_ind.
  intros Habs. pose proof Habs as Habs'.
  apply absolute_tree_eq in Habs'. destruct Habs' as [Hfn Hps].
  rewrite parse_if_needed_eq.
  destruct (Text.str_eqb fn "" || negb (os_path.isfile fs fn)); [exact Habs |].
  destruct (os_path.getmtime fs fn) as [modtime | e]; [| exact Habs].
  destruct (force || (lm <? modtime)).
  - destruct (ConfigParser.read fs fn) as [[[| f files] | e] held'].
    + cbn [snd]. apply absolute_tree_eq. split; assumption.
    + destruct (ConfigParser.get held' "inherit" "file") as [[value | e] |];
        try (cbn [snd]; apply absolute_tree_eq; split; [exact Hfn | constructor]);
        (destruct (build_parents _ _ _) as [[[] | e'] built] eqn:Hb; cbn [snd];
         apply absolute_tree_eq; (split; [exact Hfn |]);
         eapply build_parents_absolute; eassumption).
    + cbn [snd]. apply absolute_tree_eq. split; assumption.
  - pose proof (visit_parents_absolute fs force ps IH Hps false) as Hv.
    destruct (visit_parents fs force ps false) as [[[] | e] ps']; cbn [snd] in *;
      apply absolute_tree_eq; split; assumption.
Qed.

Lemma parents_are_absolute_paths_witness :
  absolute_tree (snd (parse_if_needed fs_inherit false child_created)).
Proof.
  apply (parents_are_absolute_paths fs_inherit false child_created).
  vm_compute. split; [reflexivity | exact I].
Defined.

(** ** A membership test between two reads *)

Lemma same_cached_eq fn held old ps lm secs cc fn' held' old' ps' lm' secs' cc' :
  same_cached (mkConfiguration fn held old ps lm secs cc)
    (mkConfiguration fn' held' old' ps' lm' secs' cc')
  <-> fn = fn' /\ held = held' /\ old = old' /\ lm = lm' /\ cc = cc'
      /\ (forall n k, section_cache secs n !! k = section_cache secs' n !! k)
      /\ Forall2 same_cached ps ps'.
Proof.
  cbn [same_cached].
  assert (H : (fix all (l l' : list Configuration) {struct l} : Prop :=
                 match l, l' with
                 | [], [] => True
                 | p :: rest, p' :: rest' => same_cached p p' /\ all rest rest'
                 | _, _ => False
                 end) ps ps' <-> Forall2 same_cached ps ps').
  { revert ps'. induction ps as [| p ps IH]; intros [| p' ps'].
    - split; constructor.
    - split; [intros [] | intros H; inversion H].
    - split; [intros [] | intros H; inversion H].
    - rewrite IH, Forall2_cons. reflexivity. }
  rewrite H. reflexivity.
Qed.

Lemma same_cached_refl config : same_cached config config.
Proof.
  induction config as [fn held old ps lm secs cc IH] using Configuration_nested_ind.
  apply same_cached_eq. repeat split.
  induction IH; constructor; assumption.
Qed.

Lemma ask_parents_same_cached registry name key default ps :
  Forall (fun p => forall p' d,
            same_cached p p' ->
            fst (Configuration_get registry p name key d)
            = fst (Configuration_get registry p' name key d)
            /\ same_cached (snd (Configuration_get registry p name key d))
                 (snd (Configuration_get registry p' name key d))) ps ->
  forall ps', Forall2 same_cached ps ps' ->
    fst (ask_parents registry name key default ps)
    = fst (ask_parents registry name key default ps')
    /\ Forall2 same_cached (snd (ask_parents registry name key default ps))
         (snd (ask_parents registry name key default ps')).
Proof.
  induction 1 as [| p ps Hp _ IH]; intros ps' H2; inversion H2 as [| ? p' ? rest' Hpp Hrest];
    subst; [split; [reflexivity | constructor] |].
  cbn [ask_parents].
  destruct (Hp p' _use_default Hpp) as [Hv Hs].
  destruct (Configuration_get registry p name key _use_default) as [v q].
  destruct (Configuration_get registry p' name key _use_default) as [v' q'].
  cbn [fst snd] in Hv, Hs. subst v'.
  destruct v as [[v | | t] | e].
  - cbn [fst snd]. split; [reflexivity | constructor; assumption].
  - destruct (IH rest' Hrest) as [Hv' Hs'].
    destruct (ask_parents registry name key default ps) as [w qs].
    destruct (ask_parents registry name key default rest') as [w' qs'].
    cbn [fst snd] in *. split; [exact Hv' | constructor; assumption].
  - cbn [fst snd]. split; [reflexivity | constructor; assumption].
  - cbn [fst snd]. split; [reflexivity | constructor; assumption].
Qed.

Lemma get_same_cached registry name key config :
  forall config' default,
    same_cached config config' ->
    fst (Configuration_get registry config name key default)
    = fst (Configuration_get registry config' name key default)
    /\ same_cached (snd (Configuration_get registry config name key default))
         (snd (Configuration_get registry config' name key default)).
Proof.
  induction config as [fn held old ps lm secs cc IH] using Configuration_nested_ind.
  intros [fn' held' old' ps' lm' secs' cc'] default Hsame.
  apply same_cached_eq in Hsame.
  destruct Hsame as (<- & <- & <- & <- & <- & Hc & Hps).
  rewrite !Configuration_get_eq, !section_cache_ensure, <- Hc.
  assert (Hens : forall n k,
            section_cache (ensure_proxy secs name) n !! k
            = section_cache (ensure_proxy secs' name) n !! k).
  { intros n k. rewrite !section_cache_ensure. apply Hc. }
  assert (Hstore : forall v n k,
            section_cache (cache_store (ensure_proxy secs name) name key v) n !! k
            = section_cache (cache_store (ensure_proxy secs' name) name key v) n !! k).
  { intros v n k. rewrite !cache_store_lookup. destruct (decide _); [reflexivity |].
    apply Hens. }
  destruct (section_cache secs name !! key) as [c |].
  - cbn [fst snd]. split; [reflexivity |]. apply same_cached_eq. repeat split; assumption.
  - destruct (ConfigParser.get held name key) as [[raw | e] |].
    + cbn [fst snd got_value]. split; [reflexivity |]. apply same_cached_eq.
      repeat split; [apply Hstore | assumption].
    + cbn [fst snd got_value]. split; [reflexivity |]. apply same_cached_eq.
      repeat split; assumption.
    + destruct (ask_parents_same_cached registry name key default ps IH ps' Hps)
        as [Hv Hs].
      destruct (ask_parents registry name key default ps) as [v qs].
      destruct (ask_parents registry name key default ps') as [v' qs'].
      cbn [fst snd] in Hv, Hs. subst v'.
      destruct v as [[v | | t] | e]; cbn [fst snd]; (split; [reflexivity |]);
        apply same_cached_eq; repeat split; solve [apply Hstore | assumption].
Qed.

Lemma any_parent_contains_same_cached registry name key ps :
  Forall (fun p => forall d,
            same_cached p (snd (Section_contains registry p name key d))) ps ->
  Forall2 same_cached ps (snd (any_parent_contains registry name key ps)).
Proof.
  induction 1 as [| p ps Hp _ IH]; [constructor |].
  cbn [any_parent_contains]. specialize (Hp false).
  destruct (Section_contains registry p name key false) as [b p'].
  cbn [snd] in Hp. destruct b.
  - cbn [snd]. constructor; [exact Hp |].
    clear. induction ps; constructor; [apply same_cached_refl | assumption].
  - destruct (any_parent_contains registry name key ps) as [b' ps'].
    cbn [snd] in *. constructor; assumption.
Qed.

Lemma contains_same_cached registry name key config :
  forall defaults,
    same_cached config (snd (Section_contains registry config name key defaults)).
Proof.
  induction config as [fn held old ps lm secs cc IH] using Configuration_nested_ind.
  intros defaults. rewrite Section_contains_eq.
  destruct (ConfigParser.has_option held name key); cbn [snd];
    apply same_cached_eq; repeat split;
    try (intros n k; rewrite section_cache_ensure; reflexivity).
  - clear. induction ps; constructor; [apply same_cached_refl | assumption].
  - apply any_parent_contains_same_cached, IH.
Qed.

(** X3.  A membership test is not seen by the reads that follow it: the
    proxies that [contains] creates in the parents cache nothing, and
    every [get] returns after the test what it returns without it. *)
Theorem contains_does_not_change_reads
    (registry : Registry) (config : Configuration) (name key : string)
    (defaults : bool) (section opt : string) (default : PyObj) :
  fst (Configuration_get registry
         (snd (Section_contains registry config name key defaults))
         section opt default)
  = fst (Configuration_get registry config section opt default).
Proof.
  symmetry. apply get_same_cached, contains_same_cached.
Qed.
